(** * kudos: the file-based transactional store and its neighbours

    A shallow embedding of [lib/db/db.go] (functions [getDBObj], [Open], the
    [Committer] closure built by [Open], [Read] and [Init]) over an explicit
    model of the world the Go code runs in: a file system keyed by path, the
    set of lock sentinels currently held, the cells captured by closures, a
    clock, and a log of the system calls performed.

    The operating system and the Go libraries are the environment.  Every
    fallible call consults the world's [fault] oracle, so that a theorem
    quantified over worlds covers every pattern of injected I/O failures.

    Three more packages follow the store: the validation and the reading of
    assignment files ([lib/kudos/assignment_parse.go]), the commands fed by
    a template (package [template]), and the handin directories
    ([lib/handin/handin.go]), the last over a file system of its own with
    directories, modes and access control lists. *)

From Stdlib Require Import ZArith Ascii String Floats.
From stdpp Require Import gmap strings pretty list fin_maps.

Local Set Warnings "-register-all,-clear-no-such-hyp".
Local Open Scope Z_scope.

(** ** JSON texts *)

Inductive json : Type :=
| JNull
| JBool (b : bool)
| JNum (n : Z)
| JStr (s : string)
| JArr (items : list json)
| JObj (fields : list (string * json)).

(** ** Errors and outcomes *)

(** The calls the store makes into its environment. *)
Inductive Op : Type :=
| OpLockNew (p : string)
| OpTryLock (p : string)
| OpUnlock (p : string)
| OpOpen (p : string)
| OpRead (p : string)
| OpCreate (p : string)
| OpWrite (p : string)
| OpSync (p : string)
| OpRename (src dst : string)
| OpClose (p : string).

#[global] Instance Op_eq_dec : EqDecision Op.
Proof. solve_decision. Defined.

(** Go [error] values.  The two package-level sentinels of [db.go] are
    compared by identity; [Errorf ctx e] is [fmt.Errorf("ctx: %v", e)]. *)
Inductive error : Type :=
| ErrNeedAbsPath
| ErrLockFailed
| SysErr (op : Op) (msg : string)
| NotExist (p : string)
| JsonErr (msg : string)
| Errorf (ctx : string) (e : error).

Inductive panic_value : Type :=
| PanicError (e : error)
| PanicString (s : string).

(** A Go call either returns or panics. *)
Inductive Outcome (A : Type) : Type :=
| Ret (a : A)
| Panic (p : panic_value).
Arguments Ret {A} a.
Arguments Panic {A} p.

(** ** The world *)

(** A file holds at most one complete JSON text ([None]: empty or torn), and
    remembers whether its content has reached stable storage. *)
Record File : Type := mkFile {
  content : option json;
  synced : bool
}.

Record World : Type := mkWorld {
  files : gmap string File;
  locked : gset string;
  cells : list Z;
  cwd : string;
  now : Z;
  user_current : option string;
  fault : Op → option string;
  trace : list (Op * option string)
}.

Definition set_files (fs : gmap string File) (w : World) : World :=
  mkWorld fs (locked w) (cells w) (cwd w) (now w) (user_current w) (fault w) (trace w).

Definition set_locked (ls : gset string) (w : World) : World :=
  mkWorld (files w) ls (cells w) (cwd w) (now w) (user_current w) (fault w) (trace w).

Definition set_cells (cs : list Z) (w : World) : World :=
  mkWorld (files w) (locked w) cs (cwd w) (now w) (user_current w) (fault w) (trace w).

Definition set_cwd (d : string) (w : World) : World :=
  mkWorld (files w) (locked w) (cells w) d (now w) (user_current w) (fault w) (trace w).

Definition set_now (t : Z) (w : World) : World :=
  mkWorld (files w) (locked w) (cells w) (cwd w) t (user_current w) (fault w) (trace w).

Definition log (op : Op) (r : option string) (w : World) : World :=
  mkWorld (files w) (locked w) (cells w) (cwd w) (now w) (user_current w) (fault w)
          (trace w ++ [(op, r)]).

(** Stateful computations: explicit state passing. *)
Definition M (A : Type) : Type := World → World * A.

(** ** path/filepath (Unix) *)

(** [filepath.IsAbs]: the path starts with a slash. *)
Definition IsAbs (p : string) : bool :=
  match p with
  | String "/"%char _ => true
  | _ => false
  end.

(** [filepath.Join] of two elements: empty elements are ignored, the others
    are joined by a slash.  Lexical cleaning of the result is not modelled;
    paths are used as names. *)
Definition Join (dir name : string) : string :=
  match dir, name with
  | "", _ => name
  | _, "" => dir
  | _, _ => dir +:+ "/" +:+ name
  end.

(** How the operating system reads a path: relative paths are taken from
    the current working directory. *)
Definition resolve (w : World) (p : string) : string :=
  if IsAbs p then p else Join (cwd w) p.

(** ** package os *)

(** [os.Open]: fails on an injected fault and on a missing file. *)
Definition os_Open (p : string) : M (option error) := fun w =>
  let q := resolve w p in
  match fault w (OpOpen q) with
  | Some m => (log (OpOpen q) (Some m) w, Some (SysErr (OpOpen q) m))
  | None =>
      match files w !! q with
      | None => (log (OpOpen q) (Some "no such file or directory") w, Some (NotExist q))
      | Some _ => (log (OpOpen q) None w, None)
      end
  end.

(** [os.Create]: creates the file, or truncates it when it exists. *)
Definition os_Create (p : string) : M (option error) := fun w =>
  let q := resolve w p in
  match fault w (OpCreate q) with
  | Some m => (log (OpCreate q) (Some m) w, Some (SysErr (OpCreate q) m))
  | None => (log (OpCreate q) None (set_files (<[q := mkFile None false]> (files w)) w), None)
  end.

(** [os.File.Write] of one JSON text: a failed write leaves a torn file. *)
Definition file_Write (p : string) (j : json) : M (option error) := fun w =>
  let q := resolve w p in
  match fault w (OpWrite q) with
  | Some m => (log (OpWrite q) (Some m) (set_files (<[q := mkFile None false]> (files w)) w),
               Some (SysErr (OpWrite q) m))
  | None => (log (OpWrite q) None (set_files (<[q := mkFile (Some j) false]> (files w)) w), None)
  end.

(** Reading the whole file behind an open handle. *)
Definition file_Read (p : string) : M (error + option json) := fun w =>
  let q := resolve w p in
  match fault w (OpRead q) with
  | Some m => (log (OpRead q) (Some m) w, inl (SysErr (OpRead q) m))
  | None => (log (OpRead q) None w, inr (files w !! q ≫= content))
  end.

(** [os.File.Sync]. *)
Definition file_Sync (p : string) : M (option error) := fun w =>
  let q := resolve w p in
  match fault w (OpSync q) with
  | Some m => (log (OpSync q) (Some m) w, Some (SysErr (OpSync q) m))
  | None =>
      (log (OpSync q) None
         (set_files (alter (fun f => mkFile (content f) true) q (files w)) w), None)
  end.

(** [os.File.Close]; its result is dropped by every caller in [db.go]. *)
Definition file_Close (p : string) : World → World := fun w =>
  log (OpClose (resolve w p)) None w.

(** [os.Rename]: one atomic step; a failed rename changes nothing. *)
Definition os_Rename (src dst : string) : M (option error) := fun w =>
  let s := resolve w src in
  let d := resolve w dst in
  match fault w (OpRename s d) with
  | Some m => (log (OpRename s d) (Some m) w, Some (SysErr (OpRename s d) m))
  | None =>
      match files w !! s with
      | None => (log (OpRename s d) (Some "no such file or directory") w, Some (NotExist s))
      | Some f => (log (OpRename s d) None (set_files (<[d := f]> (delete s (files w))) w), None)
      end
  end.

(** ** sync/atomic *)

(** [atomic.CompareAndSwapUint32(&cell, old, new)] on the cell at address [a]. *)
Definition CompareAndSwapUint32 (a : nat) (old new : Z) : M bool := fun w =>
  match cells w !! a with
  | Some x => if decide (x = old) then (set_cells (<[a := new]> (cells w)) w, true)
              else (w, false)
  | None => (w, false)
  end.

(** [var done uint32]: a fresh zeroed cell, captured by reference. *)
Definition new_uint32 : M nat := fun w =>
  (set_cells (cells w ++ [0]) w, length (cells w)).

(** ** package lockfile *)

(** The lock object is bound to the path of its sentinel. *)
Record Lock : Type := mkLock { lock_path : string }.

(** Modelled from the spec: [lockfile.New] is not among the sources.  It
    binds a lock object to the sentinel path; its Go signature also returns
    an error, which the environment decides here. *)
Definition lockfile_New (p : string) : M (error + Lock) := fun w =>
  match fault w (OpLockNew p) with
  | Some m => (w, inl (SysErr (OpLockNew p) m))
  | None => (w, inr (mkLock p))
  end.

(** Modelled from the spec: one acquisition attempt of the lock manager.  An
    I/O failure creating or checking the sentinel is an error; a sentinel
    held by somebody else is the answer [false]. *)
Definition Lock_TryLock (l : Lock) : M (error + bool) := fun w =>
  let q := resolve w (lock_path l) in
  match fault w (OpTryLock q) with
  | Some m => (log (OpTryLock q) (Some m) w, inl (SysErr (OpTryLock q) m))
  | None =>
      if decide (q ∈ locked w)
      then (log (OpTryLock q) None w, inr false)
      else (log (OpTryLock q) None (set_locked ({[q]} ∪ locked w) w), inr true)
  end.

(** Modelled from the spec: [TryLockN] makes at most [n] attempts, a fixed
    [delay] apart, and answers [false] without an error once they are
    exhausted. *)
Fixpoint Lock_TryLockN (l : Lock) (n : nat) (delay : Z) : M (error + bool) := fun w =>
  match n with
  | O => (w, inr false)
  | S k =>
      match Lock_TryLock l w with
      | (w1, inl e) => (w1, inl e)
      | (w1, inr true) => (w1, inr true)
      | (w1, inr false) =>
          match k with
          | O => (w1, inr false)
          | S _ => Lock_TryLockN l k delay (set_now (now w1 + delay) w1)
          end
      end
  end.

(** Modelled from the spec: [Unlock] releases the sentinel; it returns an
    error when the release fails (the lock stays held) and when the lock
    is not held. *)
Definition Lock_Unlock (l : Lock) : M (option error) := fun w =>
  let q := resolve w (lock_path l) in
  match fault w (OpUnlock q) with
  | Some m => (log (OpUnlock q) (Some m) w, Some (SysErr (OpUnlock q) m))
  | None =>
      if decide (q ∈ locked w)
      then (log (OpUnlock q) None (set_locked (locked w ∖ {[q]}) w), None)
      else (log (OpUnlock q) (Some "not locked") w, Some (SysErr (OpUnlock q) "not locked"))
  end.

(** ** package config *)

(** Modelled from the spec: the three file names of a store directory; the
    constants of package [config] are not among the sources. *)
Definition DBFileName : string := "data".
Definition DBTempFileName : string := "data.tmp".
Definition DBLockFileName : string := "lock".

(** ** encoding/json and time, as far as the envelope needs them *)

(** What the store takes from [encoding/json] for a payload type [P]:
    [json.Marshal] and [json.Unmarshal] at that type; the latter updates
    the target it is given. *)
Class Library (P : Type) : Type := {
  json_Marshal : P → error + json;
  json_Unmarshal : json → P → P * option error
}.

(** The RFC 3339 text of a [time.Time], as [Time.MarshalJSON] prints it and
    [Time.UnmarshalJSON] reads it.  The clock is taken to stay within the
    years that [Time.MarshalJSON] prints. *)
Class TimeText : Type := {
  format_time : Z → string;
  parse_time : string → option Z
}.

Definition to_lower (c : ascii) : ascii :=
  let n := N_of_ascii c in
  if ((65 <=? n) && (n <=? 90))%N then ascii_of_N (n + 32) else c.

Fixpoint lower (s : string) : string :=
  match s with
  | EmptyString => EmptyString
  | String c r => String (to_lower c) (lower r)
  end.

Inductive dbField : Type := FVersion | FCommit | FUID | FTime | FDB.

(** The decoder matches an object key against the field names of [db]
    without regard to case (ASCII folding here). *)
Definition field_of_key (k : string) : option dbField :=
  let k' := lower k in
  if String.eqb k' "version" then Some FVersion
  else if String.eqb k' "commit" then Some FCommit
  else if String.eqb k' "uid" then Some FUID
  else if String.eqb k' "time" then Some FTime
  else if String.eqb k' "db" then Some FDB
  else None.

(** ** Logs of a write path *)

(** The log of the write path of a commit, for every pattern of failures:
    the calls made (without the final unlock) are one of six sequences. *)
Inductive write_log (tmp dbp : string) : list (Op * option string) → Prop :=
| wl_create_failed m :
    write_log tmp dbp [(OpCreate tmp, Some m)]
| wl_marshal_failed :
    write_log tmp dbp [(OpCreate tmp, None); (OpClose tmp, None)]
| wl_write_failed m :
    write_log tmp dbp [(OpCreate tmp, None); (OpWrite tmp, Some m); (OpClose tmp, None)]
| wl_sync_failed m :
    write_log tmp dbp [(OpCreate tmp, None); (OpWrite tmp, None); (OpSync tmp, Some m);
                       (OpClose tmp, None)]
| wl_rename_failed m :
    write_log tmp dbp [(OpCreate tmp, None); (OpWrite tmp, None); (OpSync tmp, None);
                       (OpRename tmp dbp, Some m); (OpClose tmp, None)]
| wl_renamed :
    write_log tmp dbp [(OpCreate tmp, None); (OpWrite tmp, None); (OpSync tmp, None);
                       (OpRename tmp dbp, None); (OpClose tmp, None)].

(** The successful log of a write path. *)
Definition full_write_log (tmp dbp : string) : list (Op * option string) :=
  [(OpCreate tmp, None); (OpWrite tmp, None); (OpSync tmp, None);
   (OpRename tmp dbp, None); (OpClose tmp, None)].

(** ** package db *)

Section DB.

Context {P : Type} `{!Library P} `{!TimeText}.

(** The constants [build.Version] and [build.Commit]; package [build] is
    not among the sources. *)
Context (build_Version build_Commit : string).

(** [type marshaler struct { v interface{} }]: [None] is the nil interface. *)
Record marshaler : Type := mkMarshaler { m_v : option P }.

Record db : Type := mkdb {
  Version : string;
  Commit : string;
  UID : string;
  Time : Z;
  DB : marshaler
}.

Definition marshaler_MarshalJSON (m : marshaler) : error + json :=
  match m_v m with
  | None => inr JNull
  | Some p => json_Marshal p
  end.

(** [json.Unmarshal(b, m.v)]; the pointee of [m.v] is returned updated. *)
Definition marshaler_UnmarshalJSON (m : marshaler) (b : json) : marshaler * option error :=
  match m_v m with
  | None => (m, Some (JsonErr "json: Unmarshal(nil)"))
  | Some t => let '(t', e) := json_Unmarshal b t in (mkMarshaler (Some t'), e)
  end.

Definition getDBObj (v : option P) (w : World) : db :=
  {| Version := build_Version;
     Commit := build_Commit;
     UID := match user_current w with
            | Some uid => uid
            | None => ""
            end;
     Time := now w;
     DB := mkMarshaler v |}.

(** [json.Marshal] of a [db]: the exported fields in declaration order,
    [UID] left out when empty (its tag says [omitempty]). *)
Definition marshal_db (d : db) : error + json :=
  match marshaler_MarshalJSON (DB d) with
  | inl e => inl e
  | inr payload =>
      inr (JObj ([("Version", JStr (Version d)); ("Commit", JStr (Commit d))]
                 ++ (if String.eqb (UID d) "" then [] else [("UID", JStr (UID d))])
                 ++ [("Time", JStr (format_time (Time d))); ("DB", payload)]))
  end.

(** [json.NewEncoder(f).Encode(d)]: the text is built first and written
    with one write. *)
Definition Encoder_Encode (p : string) (d : db) : M (option error) := fun w =>
  match marshal_db d with
  | inl e => (w, Some e)
  | inr j => file_Write p j w
  end.

Definition save_error (saved : option error) (e : error) : option error :=
  match saved with
  | Some _ => saved
  | None => Some e
  end.

(** Decoding the members of a JSON object into [&db{DB: m}], in order.  A
    member of the wrong JSON type for a string field is remembered and
    decoding goes on; an error of [Time.UnmarshalJSON] or of the
    marshaler's [UnmarshalJSON] ends decoding at once; unknown members are
    skipped.  The decoded metadata is thrown away, as [db.go] does. *)
Fixpoint decode_fields (fs : list (string * json)) (m : marshaler) (saved : option error)
  : marshaler * option error :=
  match fs with
  | [] => (m, saved)
  | (k, x) :: rest =>
      match field_of_key k with
      | None => decode_fields rest m saved
      | Some FTime =>
          match x with
          | JNull => decode_fields rest m saved
          | JStr s =>
              match parse_time s with
              | Some _ => decode_fields rest m saved
              | None => (m, Some (JsonErr "parsing time"))
              end
          | _ => (m, Some (JsonErr "Time.UnmarshalJSON: input is not a JSON string"))
          end
      | Some FDB =>
          match marshaler_UnmarshalJSON m x with
          | (m', Some e) => (m', Some e)
          | (m', None) => decode_fields rest m' saved
          end
      | Some _ =>
          match x with
          | JStr _ | JNull => decode_fields rest m saved
          | _ => decode_fields rest m
                   (save_error saved (JsonErr "json: cannot unmarshal into Go struct field of type string"))
          end
      end
  end.

(** [json.NewDecoder(f).Decode(&db{DB: m})]. *)
Definition Decoder_Decode (p : string) (m : marshaler) : M (marshaler * option error) := fun w =>
  match file_Read p w with
  | (w1, inl e) => (w1, (m, Some e))
  | (w1, inr None) => (w1, (m, Some (JsonErr "EOF")))
  | (w1, inr (Some (JObj fs))) => (w1, decode_fields fs m None)
  | (w1, inr (Some JNull)) => (w1, (m, None))
  | (w1, inr (Some _)) =>
      (w1, (m, Some (JsonErr "json: cannot unmarshal into Go value of type db.db")))
  end.

(** The closure [c] built by [Open]: the variables it captures. *)
Record Committer : Type := mkCommitter {
  c_lock : Lock;
  c_path : string;
  c_dbpath : string;
  c_done : nat
}.

(** The block guarded by [if v != nil] in the closure, with the deferred
    [f.Close()] it registers. *)
Definition commit_write (c : Committer) (v : P) : M (option error) := fun w =>
  let tmppath := Join (c_path c) DBTempFileName in
  match os_Create tmppath w with
  | (w1, Some e) => (w1, Some e)
  | (w1, None) =>
      match Encoder_Encode tmppath (getDBObj (Some v) w1) w1 with
      | (w2, Some e) => (file_Close tmppath w2, Some (Errorf "marshal to file" e))
      | (w2, None) =>
          match file_Sync tmppath w2 with
          | (w3, Some e) => (file_Close tmppath w3, Some (Errorf "marshal to file" e))
          | (w3, None) =>
              match os_Rename tmppath (c_dbpath c) w3 with
              | (w4, Some e) => (file_Close tmppath w4, Some (Errorf "atomically update" e))
              | (w4, None) => (file_Close tmppath w4, None)
              end
          end
      end
  end.

(** The deferred function of the closure: unlock, and report the failure
    of the unlock only when no error is being returned already. *)
Definition commit_deferred (c : Committer) (err : option error) : M (option error) := fun w =>
  let '(w1, err2) := Lock_Unlock (c_lock c) w in
  match err2, err with
  | Some e2, None => (w1, Some (Errorf "release lock" e2))
  | _, _ => (w1, err)
  end.

(** The body of the closure after the deferred function is registered:
    [if v != nil { ... }; return nil]. *)
Definition commit_body (c : Committer) (v : option P) : M (option error) := fun w =>
  match v with
  | Some p => commit_write c p w
  | None => (w, None)
  end.

(** Calling the [Committer]. *)
Definition commit (c : Committer) (v : option P) : M (Outcome (option error)) := fun w =>
  match CompareAndSwapUint32 (c_done c) 0 1 w with
  | (w1, false) => (w1, Panic (PanicString "db: Committer called twice"))
  | (w1, true) =>
      let '(w2, err) := commit_body c v w1 in
      let '(w3, err') := commit_deferred c err w2 in
      (w3, Ret err')
  end.

(** The part of [Open] that runs with the lock held, with its deferred
    [f.Close()]. *)
Definition Open_locked (v : P) (path : string) (lock : Lock)
  : M (P * option Committer * option error) := fun w =>
  let dbpath := Join path DBFileName in
  match os_Open dbpath w with
  | (w1, Some e) => (w1, (v, None, Some e))
  | (w1, None) =>
      match Decoder_Decode dbpath (mkMarshaler (Some v)) w1 with
      | (w2, (m, Some e)) =>
          (file_Close dbpath w2, (default v (m_v m), None, Some (Errorf "unmarshal from file" e)))
      | (w2, (m, None)) =>
          let '(w3, done) := new_uint32 w2 in
          (file_Close dbpath w3, (default v (m_v m), Some (mkCommitter lock path dbpath done), None))
      end
  end.

Definition Open (v : P) (path : string)
  : M (P * Outcome (option Committer * option error)) := fun w =>
  if negb (IsAbs path) then (w, (v, Ret (None, Some ErrNeedAbsPath))) else
  let lpath := Join path DBLockFileName in
  match lockfile_New lpath w with
  | (w1, inl e) => (w1, (v, Panic (PanicError (Errorf "db: unexpected error" e))))
  | (w1, inr lock) =>
      match Lock_TryLockN lock 3 30 w1 with
      | (w2, inl e) => (w2, (v, Ret (None, Some (Errorf "acquire lock" e))))
      | (w2, inr false) => (w2, (v, Ret (None, Some ErrLockFailed)))
      | (w2, inr true) =>
          let '(w3, (v', c, err)) := Open_locked v path lock w2 in
          (* deferred: release the lock if an error is being returned *)
          match err with
          | Some _ => (fst (Lock_Unlock lock w3), (v', Ret (c, err)))
          | None => (w3, (v', Ret (c, err)))
          end
      end
  end.

Definition Read (v : P) (path : string) : M (P * option error) := fun w =>
  let dbpath := Join path DBFileName in
  match os_Open dbpath w with
  | (w1, Some e) => (w1, (v, Some e))
  | (w1, None) =>
      match Decoder_Decode dbpath (mkMarshaler (Some v)) w1 with
      | (w2, (m, Some e)) =>
          (file_Close dbpath w2, (default v (m_v m), Some (Errorf "unmarshal from file" e)))
      | (w2, (m, None)) => (file_Close dbpath w2, (default v (m_v m), None))
      end
  end.

Definition Init (v : option P) (path : string) : M (option error) := fun w =>
  if negb (IsAbs path) then (w, Some ErrNeedAbsPath) else
  let dbpath := Join path DBFileName in
  match os_Create dbpath w with
  | (w1, Some e) => (w1, Some e)
  | (w1, None) =>
      match Encoder_Encode dbpath (getDBObj v w1) w1 with
      | (w2, Some e) => (file_Close dbpath w2, Some (Errorf "marshal to file" e))
      | (w2, None) =>
          match file_Sync dbpath w2 with
          | (w3, Some e) => (file_Close dbpath w3, Some (Errorf "marshal to file" e))
          | (w3, None) => (file_Close dbpath w3, None)
          end
      end
  end.

(** The envelope [getDBObj] builds, as the encoder writes it. *)
Definition envelope (w : World) (payload : json) : json :=
  JObj ([("Version", JStr build_Version); ("Commit", JStr build_Commit)]
        ++ match user_current w with
           | Some uid => if String.eqb uid "" then [] else [("UID", JStr uid)]
           | None => []
           end
        ++ [("Time", JStr (format_time (now w))); ("DB", payload)]).

(** Some step of the write path fails: the creation of the temporary file,
    the serialisation, the write, the sync or the rename. *)
Definition write_path_fails (path : string) (v : P) (w : World) : Prop :=
  is_Some (fault w (OpCreate (Join path DBTempFileName))) ∨
  (∃ e, json_Marshal v = inl e) ∨
  is_Some (fault w (OpWrite (Join path DBTempFileName))) ∨
  is_Some (fault w (OpSync (Join path DBTempFileName))) ∨
  is_Some (fault w (OpRename (Join path DBTempFileName) (Join path DBFileName))).

End DB.

(** ** A sample payload: the roster of the spec's scenario *)

Module Roster.

Definition students_of (items : list json) : option (list string) :=
  mapM (fun j => match j with JStr s => Some s | _ => None end) items.

Definition marshal_roster (l : list string) : error + json :=
  inr (JObj [("students", JArr (JStr <$> l))]).

Definition unmarshal_roster (j : json) (t : list string) : list string * option error :=
  match j with
  | JObj [(k, JArr items)] =>
      if String.eqb k "students" then
        match students_of items with
        | Some l => (l, None)
        | None => (t, Some (JsonErr "json: cannot unmarshal into Go value of type string"))
        end
      else (t, None)
  | _ => (t, Some (JsonErr "json: cannot unmarshal into Go value of type roster"))
  end.

#[export] Instance roster_library : Library (list string) := {
  json_Marshal := marshal_roster;
  json_Unmarshal := unmarshal_roster
}.

#[export] Instance roster_time : TimeText := {
  format_time := fun t => "T" +:+ pretty t;
  parse_time := fun s => match s with String "T"%char _ => Some 0 | _ => None end
}.

(** No file exists, nothing is locked, nothing fails. *)
Definition empty_world : World :=
  mkWorld ∅ ∅ [] "/home/ta" 1000 (Some "501") (fun _ => None) [].

(** The same world, where the call [bad] fails. *)
Definition failing (bad : Op) (w : World) : World :=
  mkWorld (files w) (locked w) (cells w) (cwd w) (now w) (user_current w)
          (fun op => if bool_decide (op = bad) then Some "input/output error" else None)
          (trace w).

Definition ver : string := "0.1".
Definition rev : string := "4f2a".
Definition dir : string := "/tmp/c1".

(** The directory initialised with an empty roster. *)
Definition initialized : World := fst (Init ver rev (Some []) dir empty_world).

(** The same, with the lock held by somebody else. *)
Definition busy : World := set_locked {["/tmp/c1/lock"]} initialized.

(** The world a successful [Open] leaves, and the committer it returns. *)
Definition opened : World := fst (Open [] dir initialized).

Definition tx : Committer :=
  mkCommitter (mkLock "/tmp/c1/lock") "/tmp/c1" "/tmp/c1/data" 0.

End Roster.

(** ** A sample payload that is a map *)

Module Grades.

(** A map from names to grades, as its entries. *)
Definition grades : Type := list (string * Z).

Fixpoint set_entry (k : string) (n : Z) (m : grades) : grades :=
  match m with
  | [] => [(k, n)]
  | (k', n') :: rest =>
      if String.eqb k k' then (k, n) :: rest else (k', n') :: set_entry k n rest
  end.

Definition marshal_grades (m : grades) : error + json :=
  inr (JObj ((fun kn => (kn.1, JNum kn.2)) <$> m)).

(** [json.Unmarshal] into a map that is not nil reuses the map and keeps the
    entries it holds. *)
Fixpoint merge_members (fs : list (string * json)) (t : grades) : grades * option error :=
  match fs with
  | [] => (t, None)
  | (k, JNum n) :: rest => merge_members rest (set_entry k n t)
  | (k, _) :: rest => (t, Some (JsonErr "json: cannot unmarshal into Go value of type int"))
  end.

Definition unmarshal_grades (j : json) (t : grades) : grades * option error :=
  match j with
  | JObj fs => merge_members fs t
  | JNull => (t, None)
  | _ => (t, Some (JsonErr "json: cannot unmarshal into Go value of type map[string]int"))
  end.

#[export] Instance grades_library : Library grades := {
  json_Marshal := marshal_grades;
  json_Unmarshal := unmarshal_grades
}.

End Grades.

(** ** A sample payload that [json.Marshal] can refuse *)

Module Settings.

(** A setting is a limit or a callback; [json.Marshal] refuses function
    values. *)
Inductive setting : Type :=
| Limit (n : Z)
| Callback.

Definition marshal_setting (s : setting) : error + json :=
  match s with
  | Limit n => inr (JObj [("limit", JNum n)])
  | Callback => inl (JsonErr "json: unsupported type: func()")
  end.

Definition unmarshal_setting (j : json) (t : setting) : setting * option error :=
  match j with
  | JObj [(k, JNum n)] => if String.eqb k "limit" then (Limit n, None) else (t, None)
  | _ => (t, Some (JsonErr "json: cannot unmarshal into Go value of type setting"))
  end.

#[export] Instance setting_library : Library setting := {
  json_Marshal := marshal_setting;
  json_Unmarshal := unmarshal_setting
}.

End Settings.

(** * package kudos: assignment files ([assignment_parse.go]) *)

Module AssignmentParse.

(** Dereferencing a nil pointer panics. *)
Definition nil_dereference : panic_value :=
  PanicString "runtime error: invalid memory address or nil pointer dereference".

Definition deref {A : Type} (p : option A) : Outcome A :=
  match p with
  | Some a => Ret a
  | None => Panic nil_dereference
  end.

(** [type parseableHandin]: a nil pointer is [None]; a [time.Time] is an
    instant, the zero [time.Time] being [0]. *)
Record parseableHandin : Type := mkParseableHandin {
  ph_Code : option string;
  ph_Due : option Z;
  ph_Problems : list string
}.

(** [type parseableProblem]; points are float64. *)
Inductive parseableProblem : Type := mkParseableProblem {
  pp_Code : option string;
  pp_Name : option string;
  pp_RubricCommentTemplate : option string;
  pp_Points : option float;
  pp_Subproblems : list parseableProblem
}.

Record parseableAssignment : Type := mkParseableAssignment {
  pa_Code : option string;
  pa_Name : option string;
  pa_Handins : list parseableHandin;
  pa_Problems : list parseableProblem
}.

(** The exported types the parser builds; their declarations are not among
    the sources, their fields are those the converters assign. *)
Record Handin : Type := mkHandin {
  Handin_Code : string;
  Handin_Due : Z;
  Handin_Problems : list string
}.

Inductive Problem : Type := mkProblem {
  Problem_Code : string;
  Problem_Name : string;
  Problem_RubricCommentTemplate : string;
  Problem_Points : float;
  Problem_Subproblems : list Problem
}.

Record Assignment : Type := mkAssignment {
  Assignment_Code : string;
  Assignment_Name : string;
  Assignment_Handins : list Handin;
  Assignment_Problems : list Problem
}.

(** The accessors of the parseable types. *)
Definition parseableHandin_code (p : parseableHandin) : string := default "" (ph_Code p).
Definition parseableHandin_due (p : parseableHandin) : Z := default 0 (ph_Due p).
Definition parseableHandin_problems (p : parseableHandin) : list string := ph_Problems p.
Definition parseableHandin_hasCode (p : parseableHandin) : bool := bool_decide (is_Some (ph_Code p)).
Definition parseableHandin_hasDue (p : parseableHandin) : bool := bool_decide (is_Some (ph_Due p)).

Definition parseableHandin_toHandin (p : parseableHandin) : Handin :=
  {| Handin_Code := parseableHandin_code p;
     Handin_Due := parseableHandin_due p;
     Handin_Problems := parseableHandin_problems p |}.

Definition parseableProblem_code (p : parseableProblem) : Outcome string := deref (pp_Code p).
Definition parseableProblem_name (p : parseableProblem) : string := default "" (pp_Name p).
Definition parseableProblem_rubricCommentTemplate (p : parseableProblem) : string :=
  default "" (pp_RubricCommentTemplate p).
Definition parseableProblem_points (p : parseableProblem) : Outcome float := deref (pp_Points p).
Definition parseableProblem_subproblems (p : parseableProblem) : list parseableProblem :=
  pp_Subproblems p.
Definition parseableProblem_hasCode (p : parseableProblem) : bool :=
  bool_decide (is_Some (pp_Code p)).
Definition parseableProblem_hasPoints (p : parseableProblem) : bool :=
  bool_decide (is_Some (pp_Points p)).

Definition parseableAssignment_code (p : parseableAssignment) : Outcome string := deref (pa_Code p).
Definition parseableAssignment_name (p : parseableAssignment) : string := default "" (pa_Name p).

(** [toProblem]: the code and the points are dereferenced unguarded. *)
Fixpoint parseableProblem_toProblem (p : parseableProblem) : Outcome Problem :=
  match parseableProblem_code p with
  | Panic x => Panic x
  | Ret code =>
      match parseableProblem_points p with
      | Panic x => Panic x
      | Ret points =>
          match
            (fix each (ps : list parseableProblem) : Outcome (list Problem) :=
               match ps with
               | [] => Ret []
               | q :: qs =>
                   match parseableProblem_toProblem q with
                   | Panic x => Panic x
                   | Ret q' =>
                       match each qs with
                       | Panic x => Panic x
                       | Ret qs' => Ret (q' :: qs')
                       end
                   end
               end) (pp_Subproblems p)
          with
          | Panic x => Panic x
          | Ret subs =>
              Ret {| Problem_Code := code;
                     Problem_Name := parseableProblem_name p;
                     Problem_RubricCommentTemplate := parseableProblem_rubricCommentTemplate p;
                     Problem_Points := points;
                     Problem_Subproblems := subs |}
          end
      end
  end.

(** Converting a slice of problems in order, as the loops of [toProblem]
    and [parseAssignment] do. *)
Fixpoint toProblems (ps : list parseableProblem) : Outcome (list Problem) :=
  match ps with
  | [] => Ret []
  | q :: qs =>
      match parseableProblem_toProblem q with
      | Panic x => Panic x
      | Ret q' =>
          match toProblems qs with
          | Panic x => Panic x
          | Ret qs' => Ret (q' :: qs')
          end
      end
  end.

Section Validation.

(** [ValidateCode] is not among the sources: a parameter, with the type of
    its errors. *)
Context {E : Type} (ValidateCode : string → option E).

(** The errors of the validation, one constructor for each [fmt.Errorf]. *)
Inductive verror : Type :=
| JSONError (msg : string)
| MustHaveCode
| BadAssignmentCode (c : string) (e : E)
| MustHaveProblem
| ProblemsMustHaveCodes
| BadProblemCode (c : string) (e : E)
| DuplicateProblemCode (c : string)
| ProblemMustHavePoints (c : string)
| PointsNotSum (c : string)
| MustHaveHandin
| OneHandinWithCode
| HandinsNeedCodes
| BadHandinCode (c : string) (e : E)
| HandinNoDue
| HandinCodeNoDue (c : string)
| DuplicateHandinCode (c : string)
| HandinNoProblems (name : string)
| HandinBadProblemCode (name pc : string) (e : E)
| HandinNonexistentProblem (name pc : string)
| HandinNonTopLevelProblem (name pc : string)
| HandinProblemTwice (name pc hc : string)
| ProblemNotInHandin (c : string).

(** A call returns a value, returns an error, or panics. *)
Definition R (A : Type) : Type := Outcome (verror + A).

Definition ok {A : Type} (a : A) : R A := Ret (inr a).
Definition fail {A : Type} (e : verror) : R A := Ret (inl e).

Definition bindR {A B : Type} (m : R A) (k : A → R B) : R B :=
  match m with
  | Panic x => Panic x
  | Ret (inl e) => Ret (inl e)
  | Ret (inr a) => k a
  end.

Definition lift {A : Type} (m : Outcome A) : R A :=
  match m with
  | Panic x => Panic x
  | Ret a => Ret (inr a)
  end.

(** A [for ... range] loop over a slice with a state, left as soon as the
    body returns an error or panics. *)
Section Loop.
Context {A S : Type} (body : S → A → R S).
Fixpoint for_range (l : list A) (s : S) : R S :=
  match l with
  | [] => ok s
  | a :: l' => bindR (body s a) (for_range l')
  end.
End Loop.

(** The closure [walkTree] of [validateProblemTree], for one problem; the
    map [seenCodes] it updates is the state. *)
Fixpoint walkTree_problem (seenCodes : gset string) (p : parseableProblem) : R (gset string) :=
  if negb (parseableProblem_hasCode p) then fail ProblemsMustHaveCodes else
  bindR (lift (parseableProblem_code p)) (fun c =>
  match ValidateCode c with
  | Some err => fail (BadProblemCode c err)
  | None =>
      if bool_decide (c ∈ seenCodes) then fail (DuplicateProblemCode c) else
      for_range walkTree_problem (parseableProblem_subproblems p) ({[c]} ∪ seenCodes)
  end).

Definition walkTree (problems : list parseableProblem) (seenCodes : gset string)
  : R (gset string) :=
  for_range walkTree_problem problems seenCodes.

(** The closure [walkTreePoints], for one problem; the state is [sum]. *)
Fixpoint walkTreePoints_problem (sum : float) (p : parseableProblem) : R float :=
  if negb (parseableProblem_hasPoints p) then
    bindR (lift (parseableProblem_code p)) (fun c => fail (ProblemMustHavePoints c))
  else
  bindR (lift (parseableProblem_points p)) (fun points =>
  let sum := (sum + points)%float in
  match parseableProblem_subproblems p with
  | [] => ok sum
  | _ :: _ =>
      bindR (for_range walkTreePoints_problem (parseableProblem_subproblems p) 0%float)
        (fun subSum =>
           if negb (subSum =? points)%float then
             bindR (lift (parseableProblem_code p)) (fun c => fail (PointsNotSum c))
           else ok sum)
  end).

Definition walkTreePoints (problems : list parseableProblem) : R float :=
  for_range walkTreePoints_problem problems 0%float.

Definition validateProblemTree (problems : list parseableProblem) : R unit :=
  match problems with
  | [] => fail MustHaveProblem
  | _ :: _ =>
      bindR (walkTree problems ∅) (fun _ =>
      bindR (walkTreePoints problems) (fun _ => ok tt))
  end.

(** The closure [walkProblems] of [validateHandins], for one problem. *)
Fixpoint walkProblems_problem (problemsByCode : gmap string parseableProblem)
    (p : parseableProblem) : R (gmap string parseableProblem) :=
  bindR (lift (parseableProblem_code p)) (fun c =>
  for_range walkProblems_problem (parseableProblem_subproblems p) (<[c := p]> problemsByCode)).

Definition walkProblems (problems : list parseableProblem)
    (problemsByCode : gmap string parseableProblem) : R (gmap string parseableProblem) :=
  for_range walkProblems_problem problems problemsByCode.

(** The name of a handin in error messages. *)
Definition handinErrorName (n : nat) (h : parseableHandin) : string :=
  if bool_decide (1 < n)%nat then "handin" +:+ " " +:+ parseableHandin_code h else "handin".

(** The [switch] at the head of the loop over the handins: the first case
    that holds is the one taken. *)
Definition handin_switch (n : nat) (h : parseableHandin) : R unit :=
  if bool_decide (n = 1%nat) && parseableHandin_hasCode h then fail OneHandinWithCode
  else if bool_decide (1 < n)%nat && negb (parseableHandin_hasCode h) then fail HandinsNeedCodes
  else if bool_decide (1 < n)%nat then
    match ValidateCode (parseableHandin_code h) with
    | Some err => fail (BadHandinCode (parseableHandin_code h) err)
    | None => ok tt
    end
  else if negb (parseableHandin_hasDue h) then
    (if bool_decide (n = 1%nat) then fail HandinNoDue
     else fail (HandinCodeNoDue (parseableHandin_code h)))
  else ok tt.

(** The inner loop over the problem codes of one handin; the state is the
    map [seenProblems]. *)
Definition handin_problem (n : nat) (h : parseableHandin)
    (topLevelProblemsByCode problemsByCode : gmap string parseableProblem)
    (seenProblems : gmap string string) (pc : string) : R (gmap string string) :=
  match ValidateCode pc with
  | Some err => fail (HandinBadProblemCode (handinErrorName n h) pc err)
  | None =>
      let okTop := bool_decide (is_Some (topLevelProblemsByCode !! pc)) in
      let okAll := bool_decide (is_Some (problemsByCode !! pc)) in
      if negb okAll then fail (HandinNonexistentProblem (handinErrorName n h) pc)
      else if negb okTop then fail (HandinNonTopLevelProblem (handinErrorName n h) pc)
      else match seenProblems !! pc with
           | Some hc => fail (HandinProblemTwice (handinErrorName n h) pc hc)
           | None => ok (<[pc := parseableHandin_code h]> seenProblems)
           end
  end.

(** The body of the loop over the handins; the state is the pair of
    [seenHandinCodes] and [seenProblems]. *)
Definition handin_body (n : nat)
    (topLevelProblemsByCode problemsByCode : gmap string parseableProblem)
    (st : gset string * gmap string string) (h : parseableHandin)
  : R (gset string * gmap string string) :=
  let '(seenHandinCodes, seenProblems) := st in
  bindR (handin_switch n h) (fun _ =>
  if bool_decide (1 < n)%nat && bool_decide (parseableHandin_code h ∈ seenHandinCodes)
  then fail (DuplicateHandinCode (parseableHandin_code h)) else
  let seenHandinCodes := {[parseableHandin_code h]} ∪ seenHandinCodes in
  match parseableHandin_problems h with
  | [] => fail (HandinNoProblems (handinErrorName n h))
  | _ :: _ =>
      bindR (for_range (handin_problem n h topLevelProblemsByCode problemsByCode)
               (parseableHandin_problems h) seenProblems)
        (fun seenProblems => ok (seenHandinCodes, seenProblems))
  end).

Definition validateHandins (handins : list parseableHandin)
    (problems : list parseableProblem) : R unit :=
  match handins with
  | [] => fail MustHaveHandin
  | _ :: _ =>
      bindR (for_range
               (fun (m : gmap string parseableProblem) p =>
                  bindR (lift (parseableProblem_code p)) (fun c => ok (<[c := p]> m)))
               problems ∅) (fun topLevelProblemsByCode =>
      bindR (walkProblems problems ∅) (fun problemsByCode =>
      bindR (for_range (handin_body (length handins) topLevelProblemsByCode problemsByCode)
               handins (∅, ∅)) (fun st =>
      bindR (for_range
               (fun (_ : unit) p =>
                  bindR (lift (parseableProblem_code p)) (fun c =>
                  match snd st !! c with
                  | None => fail (ProblemNotInHandin c)
                  | Some _ => ok tt
                  end))
               problems tt) (fun _ => ok tt))))
  end.

Definition validateAssignment (asgn : parseableAssignment) : R unit :=
  match pa_Code asgn with
  | None => fail MustHaveCode
  | Some c =>
      match ValidateCode c with
      | Some err => fail (BadAssignmentCode c err)
      | None =>
          bindR (validateProblemTree (pa_Problems asgn)) (fun _ =>
          validateHandins (pa_Handins asgn) (pa_Problems asgn))
      end
  end.

(** [parseAssignment], from the result of [json.Decoder.Decode] on. *)
Definition parseAssignment (decoded : string + parseableAssignment) : R Assignment :=
  match decoded with
  | inl msg => fail (JSONError msg)
  | inr asgn =>
      bindR (validateAssignment asgn) (fun _ =>
      bindR (lift (parseableAssignment_code asgn)) (fun code =>
      bindR (lift (toProblems (pa_Problems asgn))) (fun problems =>
      ok {| Assignment_Code := code;
            Assignment_Name := parseableAssignment_name asgn;
            Assignment_Handins := parseableHandin_toHandin <$> pa_Handins asgn;
            Assignment_Problems := problems |})))
  end.

End Validation.

(** The problems of a tree, parents before children, in order. *)
Fixpoint nodes (p : parseableProblem) : list parseableProblem :=
  p :: flat_map nodes (pp_Subproblems p).

Definition all_nodes (problems : list parseableProblem) : list parseableProblem :=
  flat_map nodes problems.

(** The codes of the problems of a tree, in that order. *)
Definition tree_codes (problems : list parseableProblem) : list string :=
  omap pp_Code (all_nodes problems).

(** The sum [walkTreePoints] computes over a slice of problems: float64
    additions from zero, left to right. *)
Definition sum_points (problems : list parseableProblem) : float :=
  fold_left (fun s q => (s + default 0%float (pp_Points q))%float) problems 0%float.

(** A problem with points that, when it has subproblems, are equal (as
    float64 values compare) to the sum of theirs. *)
Definition points_add_up (p : parseableProblem) : Prop :=
  ∃ x, pp_Points p = Some x ∧
       (pp_Subproblems p ≠ [] → (sum_points (pp_Subproblems p) =? x)%float = true).

(** The same handin with another due date. *)
Definition with_due (d : option Z) (h : parseableHandin) : parseableHandin :=
  mkParseableHandin (ph_Code h) d (ph_Problems h).

(** A converted problem keeps the code, the points and the shape. *)
Inductive converted : parseableProblem → Problem → Prop :=
| converted_problem p q :
    pp_Code p = Some (Problem_Code q) →
    pp_Points p = Some (Problem_Points q) →
    Problem_Name q = default "" (pp_Name p) →
    Problem_RubricCommentTemplate q = default "" (pp_RubricCommentTemplate p) →
    Forall2 converted (pp_Subproblems p) (Problem_Subproblems q) →
    converted p q.

(** Induction over a tree of problems, the subproblems first. *)
Section NestedInduction.
Context (Q : parseableProblem → Prop).
Context (step : ∀ c n r pts subs, Forall Q subs → Q (mkParseableProblem c n r pts subs)).
Fixpoint parseableProblem_nested_ind (p : parseableProblem) : Q p :=
  match p with
  | mkParseableProblem c n r pts subs =>
      step c n r pts subs
        ((fix go (l : list parseableProblem) : Forall Q l :=
            match l with
            | [] => @List.Forall_nil _ Q
            | q :: qs => @List.Forall_cons _ Q q qs (parseableProblem_nested_ind q) (go qs)
            end) subs)
  end.
End NestedInduction.

(** A problem with a code; a problem with a code and points. *)
Definition has_code (p : parseableProblem) : Prop := is_Some (pp_Code p).

Definition complete (p : parseableProblem) : Prop :=
  is_Some (pp_Code p) ∧ is_Some (pp_Points p).

(** The codes of the top-level problems, and the problem codes the handins
    list, both in order. *)
Definition top_codes (problems : list parseableProblem) : list string :=
  omap pp_Code problems.

Definition listed_problems (hs : list parseableHandin) : list string :=
  concat (ph_Problems <$> hs).

(** Two handins that differ at most in their due dates. *)
Definition same_but_due (h h' : parseableHandin) : Prop :=
  ph_Code h = ph_Code h' ∧ ph_Problems h = ph_Problems h'.

(** What the loops of [validateHandins] do to their maps when they go on:
    a problem is filed under its code, a listed problem under the code of
    its handin, and a handin adds its code and its problems. *)
Definition index_problem (m : gmap string parseableProblem) (p : parseableProblem)
  : gmap string parseableProblem :=
  match pp_Code p with
  | Some c => <[c := p]> m
  | None => m
  end.

Definition mark (h : parseableHandin) (seen : gmap string string) (pc : string)
  : gmap string string :=
  <[pc := parseableHandin_code h]> seen.

Definition handin_next (st : gset string * gmap string string) (h : parseableHandin)
  : gset string * gmap string string :=
  ({[parseableHandin_code h]} ∪ st.1, fold_left (mark h) (ph_Problems h) st.2).

(** A loop goes through a slice when every element passes [P] in the state
    the elements before it have left. *)
Section Chain.
Context {A S : Type} (P : S → A → Prop) (f : S → A → S).
Fixpoint chain (l : list A) (s : S) : Prop :=
  match l with
  | [] => True
  | a :: l' => P s a ∧ chain l' (f s a)
  end.
End Chain.

Section Accepted.
Context {E : Type} (ValidateCode : string → option E).

(** A problem whose code is present and accepted by [ValidateCode]. *)
Definition well_coded (p : parseableProblem) : Prop :=
  ∃ c, pp_Code p = Some c ∧ ValidateCode c = None.

(** What the first walk of [validateProblemTree] accepts, and the set of
    codes it then returns. *)
Definition walked (ps : list parseableProblem) (seen seen' : gset string) : Prop :=
  Forall well_coded (all_nodes ps) ∧ NoDup (tree_codes ps) ∧
  (∀ c, c ∈ tree_codes ps → c ∉ seen) ∧
  seen' = list_to_set (tree_codes ps) ∪ seen.

(** The head of the loop over the handins lets through a lone handin with
    no code and a due date, and one of several handins with an accepted
    code. *)
Definition switch_ok (n : nat) (h : parseableHandin) : Prop :=
  (n = 1%nat ∧ ph_Code h = None ∧ is_Some (ph_Due h)) ∨
  ((1 < n)%nat ∧ ∃ c, ph_Code h = Some c ∧ ValidateCode c = None).

(** A listed problem code the inner loop lets through. *)
Definition good_pc (top all : gmap string parseableProblem) (seen : gmap string string)
    (pc : string) : Prop :=
  ValidateCode pc = None ∧ pc ∈ dom all ∧ pc ∈ dom top ∧ pc ∉ dom seen.

(** A handin the loop over the handins lets through. *)
Definition handin_ok (n : nat) (top all : gmap string parseableProblem)
    (st : gset string * gmap string string) (h : parseableHandin) : Prop :=
  switch_ok n h ∧ ((1 < n)%nat → parseableHandin_code h ∉ st.1) ∧
  ph_Problems h ≠ [] ∧ chain (good_pc top all) (mark h) (ph_Problems h) st.2.

End Accepted.

End AssignmentParse.

(** ** A sample assignment *)

Module Homework.
Import AssignmentParse.

(** A stand-in for [ValidateCode]: only the empty code is refused. *)
Definition ValidateCode (c : string) : option string :=
  if bool_decide (c = "") then Some "empty code" else None.

Definition leaf (c : string) (pts : float) : parseableProblem :=
  mkParseableProblem (Some c) None None (Some pts) [].

(** Two problems, the first with two parts. *)
Definition problems : list parseableProblem :=
  [mkParseableProblem (Some "p1") (Some "Sorting") None (Some 10%float)
     [leaf "p1a" 4%float; leaf "p1b" 6%float];
   leaf "p2" 5%float].

(** Two handins, the first without a due date. *)
Definition handins : list parseableHandin :=
  [mkParseableHandin (Some "first") None ["p1"];
   mkParseableHandin (Some "second") (Some 1700000000) ["p2"]].

Definition hw1 : parseableAssignment :=
  mkParseableAssignment (Some "hw1") None handins problems.

End Homework.

(** * package kudos: reading assignment files *)

Module AssignmentFiles.
Import AssignmentParse.

Section Files.

(** Not among the sources, and parameters here: [ValidateCode];
    [json.Decoder.Decode] into a [parseableAssignment], as a function of the
    text read; the text of an error; [filepath.Base]; [ioutil.ReadDir], which
    gives the names of a directory; and [config.IgnoreFileAndLog], whose log
    line is left out. *)
Context {E : Type} (ValidateCode : string → option E).
Context (Decode : option json → string + parseableAssignment).
Context (Error : error → string).
Context (Base : string → string).
Context (ReadDir : string → World → error + list string).
Context (IgnoreFileAndLog : string → bool).

(** The errors of [ParseAssignmentFile]: the one of [os.Open] as it is, the
    one of [parseAssignment] under [could not parse], and the mismatch of
    file name and code. *)
Inductive ferror : Type :=
| SystemError (e : error)
| CouldNotParse (e : @verror E)
| NameMismatch (code : string).

(** [ParseAssignmentFile].  The decoder reads the file; a failed read is the
    decoder's error.  The file is not closed. *)
Definition ParseAssignmentFile (path : string) : M (Outcome (ferror + Assignment)) := fun w =>
  match os_Open path w with
  | (w1, Some err) => (w1, Ret (inl (SystemError err)))
  | (w1, None) =>
      let '(w2, text) := file_Read path w1 in
      let decoded := match text with
                     | inl err => inl (Error err)
                     | inr t => Decode t
                     end in
      match parseAssignment ValidateCode decoded with
      | Panic x => (w2, Panic x)
      | Ret (inl err) => (w2, Ret (inl (CouldNotParse err)))
      | Ret (inr a) =>
          let fname := Base path in
          if negb (String.eqb fname (Assignment_Code a))
          then (w2, Ret (inl (NameMismatch (Assignment_Code a))))
          else (w2, Ret (inr a))
      end
  end.

(** [ParseAssignmentFileByCode] and [ParseAssignment], given the directory
    [ctx.CourseAssignmentDir()]. *)
Definition ParseAssignmentFileByCode (dir code : string) : M (Outcome (ferror + Assignment)) :=
  ParseAssignmentFile (Join dir code).

Definition ParseAssignment (dir code : string) : M (Outcome (ferror + Assignment)) :=
  ParseAssignmentFile (Join dir code).

(** The variables of the loop of [ParseAllAssignmentFiles], and the lines
    printed to [ctx.Error]. *)
Record scan : Type := mkScan {
  reterr : option ferror;
  asgns : list Assignment;
  printed : list (string * ferror)
}.

(** The body of the loop, for the file named [name]. *)
Definition scan_file (dir : string) (st : scan) (name : string) : M (Outcome scan) := fun w =>
  let path := Join dir name in
  if negb (IgnoreFileAndLog path) then
    match ParseAssignmentFile path w with
    | (w', Panic x) => (w', Panic x)
    | (w', Ret (inl err)) =>
        (w', Ret (mkScan (match reterr st with None => Some err | Some e => Some e end)
                    (asgns st) (printed st ++ [(path, err)])))
    | (w', Ret (inr a)) => (w', Ret (mkScan (reterr st) (asgns st ++ [a]) (printed st)))
    end
  else (w, Ret st).

Fixpoint scan_files (dir : string) (names : list string) (st : scan) : M (Outcome scan) := fun w =>
  match names with
  | [] => (w, Ret st)
  | name :: rest =>
      match scan_file dir st name w with
      | (w', Panic x) => (w', Panic x)
      | (w', Ret st') => scan_files dir rest st' w'
      end
  end.

(** [ParseAllAssignmentFiles], given the directory: the assignments read,
    the error returned, and the lines printed. *)
Definition ParseAllAssignmentFiles (dir : string)
  : M (Outcome (list Assignment * option ferror * list (string * ferror))) := fun w =>
  match ReadDir dir w with
  | inl err => (w, Ret ([], Some (SystemError err), []))
  | inr names =>
      match scan_files dir names (mkScan None [] []) w with
      | (w', Panic x) => (w', Panic x)
      | (w', Ret st) => (w', Ret (asgns st, reterr st, printed st))
      end
  end.

(** What [ParseAssignmentFile] answers for a path in a world. *)
Definition parsed (w : World) (path : string) : Outcome (ferror + Assignment) :=
  snd (ParseAssignmentFile path w).

Definition parsed_ok (w : World) (path : string) : option Assignment :=
  match parsed w path with
  | Ret (inr a) => Some a
  | _ => None
  end.

Definition parsed_error (w : World) (path : string) : option (string * ferror) :=
  match parsed w path with
  | Ret (inl err) => Some (path, err)
  | _ => None
  end.

(** The paths of a directory that are not ignored. *)
Definition candidates (dir : string) (names : list string) : list string :=
  filter (fun path => IgnoreFileAndLog path = false) (Join dir <$> names).

End Files.

End AssignmentFiles.

(** * package template: commands fed by a template *)

Module Template.

(** [os.Stdout] and [os.Stderr]. *)
Inductive stream : Type := os_Stdout | os_Stderr.

(** [exec.Cmd], as far as [exec.Command] and the package set it. *)
Record Cmd : Type := mkCmd {
  Cmd_Path : string;
  Cmd_Args : list string;
  Cmd_Env : list string;
  Cmd_Stdin : option string;
  Cmd_Stdout : option stream;
  Cmd_Stderr : option stream
}.

(** [panic: runtime error: index out of range]. *)
Definition index_out_of_range : panic_value :=
  PanicString "runtime error: index out of range".

Section Run.

(** The template [t] is fixed: [Execute data] is what [t.Execute] writes to
    the buffer for [data], or its error.  [Environ] is [os.Environ()].
    [Run] is [exec.Cmd.Run], on a state of the machine.  [LookPath name] is
    the path [exec.Command] gives a command: the name as it is, or, for a
    name with no separator, what [exec.LookPath] finds for it when it finds
    something. *)
Context {Data Err St : Type}.
Context (LookPath : string → string).
Context (Execute : Data → Err + string).
Context (Environ : list string).
Context (Run : Cmd → St → St * option Err).

(** [exec.Command(name)]. *)
Definition exec_Command (name : string) : Cmd :=
  mkCmd (LookPath name) [name] [] None None None.

Record Entry : Type := mkEntry {
  Entry_Env : list string;
  Entry_Data : Data
}.

Record EntryError : Type := mkEntryError {
  EntryError_Index : nat;
  EntryError_Entry : Entry;
  EntryError_Err : Err
}.

(** [EntryError.Error] is the text of [Err], given by [text]. *)
Definition EntryError_Error (text : Err → string) (e : EntryError) : string :=
  text (EntryError_Err e).

Definition Command (cmd : string) (data : Data) (env : list string) : Err + Cmd :=
  let c := exec_Command cmd in
  let c := mkCmd (Cmd_Path c) (Cmd_Args c) (Environ ++ env) (Cmd_Stdin c) (Cmd_Stdout c)
             (Cmd_Stderr c) in
  match Execute data with
  | inl err => inl err
  | inr buf =>
      inr (mkCmd (Cmd_Path c) (Cmd_Args c) (Cmd_Env c) (Some buf) (Cmd_Stdout c) (Cmd_Stderr c))
  end.

Definition CommandOut (cmd : string) (data : Data) (env : list string) : Err + Cmd :=
  let c := exec_Command cmd in
  let c := mkCmd (Cmd_Path c) (Cmd_Args c) (Environ ++ env) (Cmd_Stdin c) (Cmd_Stdout c)
             (Cmd_Stderr c) in
  match Execute data with
  | inl err => inl err
  | inr buf =>
      let c := mkCmd (Cmd_Path c) (Cmd_Args c) (Cmd_Env c) (Some buf) (Cmd_Stdout c)
                 (Cmd_Stderr c) in
      inr (mkCmd (Cmd_Path c) (Cmd_Args c) (Cmd_Env c) (Cmd_Stdin c) (Some os_Stdout)
             (Some os_Stderr))
  end.

(** The machine and the commands run on it so far, oldest first. *)
Definition Machine : Type := St * list Cmd.

Definition Cmd_Run (c : Cmd) (m : Machine) : Machine * option Err :=
  let '(s', err) := Run c m.1 in ((s', m.2 ++ [c]), err).

(** The first loop of [RunAll], from index [i] on: the commands built, or
    the error of the first entry whose template fails. *)
Fixpoint build_from (cmd : string) (i : nat) (entries : list Entry) : EntryError + list Cmd :=
  match entries with
  | [] => inr []
  | e :: rest =>
      match Command cmd (Entry_Data e) (Entry_Env e) with
      | inl err => inl (mkEntryError i e err)
      | inr c =>
          match build_from cmd (S i) rest with
          | inl ee => inl ee
          | inr cs => inr (c :: cs)
          end
      end
  end.

(** The second loop, from index [i] on; [entries] is the whole slice, which
    the loop indexes. *)
Fixpoint run_from (entries : list Entry) (i : nat) (cmds : list Cmd) (m : Machine)
  : Machine * Outcome (option EntryError) :=
  match cmds with
  | [] => (m, Ret None)
  | c :: rest =>
      match Cmd_Run c m with
      | (m', Some err) =>
          match entries !! i with
          | Some e => (m', Ret (Some (mkEntryError i e err)))
          | None => (m', Panic index_out_of_range)
          end
      | (m', None) => run_from entries (S i) rest m'
      end
  end.

Definition RunAll (cmd : string) (entries : list Entry) (m : Machine)
  : Machine * Outcome (option EntryError) :=
  match build_from cmd 0 entries with
  | inl ee => (m, Ret (Some ee))
  | inr cmds => run_from entries 0 cmds m
  end.

(** The first loop of [RunAllOut]: it calls [Command] as well. *)
Fixpoint build_out_from (cmd : string) (i : nat) (entries : list Entry)
  : EntryError + list Cmd :=
  match entries with
  | [] => inr []
  | e :: rest =>
      match Command cmd (Entry_Data e) (Entry_Env e) with
      | inl err => inl (mkEntryError i e err)
      | inr c =>
          match build_out_from cmd (S i) rest with
          | inl ee => inl ee
          | inr cs => inr (c :: cs)
          end
      end
  end.

Definition RunAllOut (cmd : string) (entries : list Entry) (m : Machine)
  : Machine * Outcome (option EntryError) :=
  match build_out_from cmd 0 entries with
  | inl ee => (m, Ret (Some ee))
  | inr cmds => run_from entries 0 cmds m
  end.

(** The command [Command] builds for an entry whose template gives [buf]. *)
Definition planned (cmd : string) (e : Entry) (buf : string) : Cmd :=
  mkCmd (LookPath cmd) [cmd] (Environ ++ Entry_Env e) (Some buf) None None.

(** The template fails for this entry. *)
Definition template_fails (e : Entry) : Prop :=
  ∃ err, Execute (Entry_Data e) = inl err.

(** The state of the machine after the commands [cs] have run one after the
    other from the state [s], whatever they returned. *)
Definition state_after (cs : list Cmd) (s : St) : St :=
  fold_left (fun s c => fst (Run c s)) cs s.

(** The commands [cs], run one after the other from the state [s], all
    return nil. *)
Definition all_succeed (cs : list Cmd) (s : St) : Prop :=
  ∀ i c, cs !! i = Some c → snd (Run c (state_after (take i cs) s)) = None.

End Run.

End Template.

(** * package handin: handin directories ([handin.go]) *)

Module Handin.

(** ** Access control lists *)

Inductive acl_tag : Type := TagUser | TagMask.

(** An ACL is a list of entries; the entries [acl.FromUnix] gives for a mode
    are kept together as one item. *)
Inductive acl_entry : Type :=
| FromUnix (mode : string)
| Entry (tag : acl_tag) (qualifier perms : string).

#[global] Instance acl_tag_eq_dec : EqDecision acl_tag.
Proof. solve_decision. Defined.

#[global] Instance acl_entry_eq_dec : EqDecision acl_entry.
Proof. solve_decision. Defined.

(** ** The file system *)

(** The calls the package makes into its environment. *)
Inductive Call : Type :=
| CallMkdir (p mode : string)
| CallChmod (p mode : string)
| CallRemoveAll (p : string)
| CallAclSet (p : string) (a : list acl_entry)
| CallCreate (p : string)
| CallClose (p : string)
| CallRename (old new : string)
| CallOpen (p : string)
| CallSeek (p : string).

#[global] Instance Call_eq_dec : EqDecision Call.
Proof. solve_decision. Defined.

(** Go [error] values: the error of a call, and [fmt.Errorf("ctx: %v", e)]. *)
Inductive herror : Type :=
| CallError (c : Call) (msg : string)
| Wrapped (ctx : string) (e : herror).

Inductive kind : Type := Directory | Regular.

(** A directory or a regular file, with its mode, its ACL when one has been
    set, and the bytes of a regular file. *)
Record node : Type := mkNode {
  node_kind : kind;
  node_mode : string;
  node_acl : option (list acl_entry);
  node_data : string
}.

(** The file system, keyed by path; [failure] decides which calls fail, and
    [calls] is the log of the calls made, oldest first. *)
Record FS : Type := mkFS {
  nodes : gmap string node;
  failure : Call → option string;
  calls : list (Call * option string)
}.

Definition set_nodes (ns : gmap string node) (w : FS) : FS :=
  mkFS ns (failure w) (calls w).

Definition logged (c : Call) (r : option string) (w : FS) : FS :=
  mkFS (nodes w) (failure w) (calls w ++ [(c, r)]).

(** A call on [p] that fails with [msg]. *)
Definition failed {A : Type} (c : Call) (msg : string) (a : A) (w : FS) : FS * (A * option herror) :=
  (logged c (Some msg) w, (a, Some (CallError c msg))).

(** [path] is [p] or lies below it. *)
Definition below (p path : string) : bool :=
  String.eqb p path || String.prefix (p +:+ "/") path.

(** [os.Mkdir]: fails on an injected failure and when the path exists.  The
    mode a new directory gets may be masked by the umask; modes are
    recorded as asked for. *)
Definition os_Mkdir (p mode : string) (w : FS) : FS * option herror :=
  let c := CallMkdir p mode in
  match failure w c with
  | Some m => (logged c (Some m) w, Some (CallError c m))
  | None =>
      match nodes w !! p with
      | Some _ => (logged c (Some "file exists") w, Some (CallError c "file exists"))
      | None => (logged c None (set_nodes (<[p := mkNode Directory mode None ""]> (nodes w)) w),
                 None)
      end
  end.

(** [os.Chmod]. *)
Definition os_Chmod (p mode : string) (w : FS) : FS * option herror :=
  let c := CallChmod p mode in
  match failure w c with
  | Some m => (logged c (Some m) w, Some (CallError c m))
  | None =>
      match nodes w !! p with
      | None => (logged c (Some "no such file or directory") w,
                 Some (CallError c "no such file or directory"))
      | Some n =>
          (logged c None
             (set_nodes (<[p := mkNode (node_kind n) mode (node_acl n) (node_data n)]> (nodes w))
                w), None)
      end
  end.

(** [os.RemoveAll]: removes the path and everything below it; a path that
    does not exist is no error.  A failed call is taken to remove
    nothing. *)
Definition os_RemoveAll (p : string) (w : FS) : FS * option herror :=
  let c := CallRemoveAll p in
  match failure w c with
  | Some m => (logged c (Some m) w, Some (CallError c m))
  | None =>
      (logged c None (set_nodes (filter (fun kv => below p kv.1 = false) (nodes w)) w), None)
  end.

(** [acl.Set]. *)
Definition acl_Set (p : string) (a : list acl_entry) (w : FS) : FS * option herror :=
  let c := CallAclSet p a in
  match failure w c with
  | Some m => (logged c (Some m) w, Some (CallError c m))
  | None =>
      match nodes w !! p with
      | None => (logged c (Some "no such file or directory") w,
                 Some (CallError c "no such file or directory"))
      | Some n =>
          (logged c None
             (set_nodes (<[p := mkNode (node_kind n) (node_mode n) (Some a) (node_data n)]>
                           (nodes w)) w), None)
      end
  end.

(** [os.Create]: a new empty regular file, or the file that is there,
    truncated; the handle is nil when the call fails. *)
Definition os_Create (p : string) (w : FS) : FS * (option string * option herror) :=
  let c := CallCreate p in
  match failure w c with
  | Some m => failed c m None w
  | None =>
      match nodes w !! p with
      | Some (mkNode Directory _ _ _) => failed c "is a directory" None w
      | Some (mkNode Regular mode a _) =>
          (logged c None (set_nodes (<[p := mkNode Regular mode a ""]> (nodes w)) w),
           (Some p, None))
      | None =>
          (logged c None (set_nodes (<[p := mkNode Regular "rw-rw-rw-" None ""]> (nodes w)) w),
           (Some p, None))
      end
  end.

(** [os.File.Close]; on a nil handle it makes no call.  Its result is
    dropped by every caller. *)
Definition file_Close (f : option string) (w : FS) : FS :=
  match f with
  | Some p => logged (CallClose p) None w
  | None => w
  end.

(** [os.Rename], of a file. *)
Definition os_Rename (old new : string) (w : FS) : FS * option herror :=
  let c := CallRename old new in
  match failure w c with
  | Some m => (logged c (Some m) w, Some (CallError c m))
  | None =>
      match nodes w !! old with
      | None => (logged c (Some "no such file or directory") w,
                 Some (CallError c "no such file or directory"))
      | Some n => (logged c None (set_nodes (<[new := n]> (delete old (nodes w))) w), None)
      end
  end.

(** [os.Open]. *)
Definition os_Open (p : string) (w : FS) : FS * (option string * option herror) :=
  let c := CallOpen p in
  match failure w c with
  | Some m => failed c m None w
  | None =>
      match nodes w !! p with
      | None => failed c "no such file or directory" None w
      | Some _ => (logged c None w, (Some p, None))
      end
  end.

(** [f.Seek(0, 2)]: the size of the file. *)
Definition file_Seek_end (p : string) (w : FS) : FS * (Z * option herror) :=
  let c := CallSeek p in
  match failure w c with
  | Some m => failed c m 0 w
  | None =>
      (logged c None w,
       (Z.of_nat (String.length (default "" (node_data <$> nodes w !! p))), None))
  end.

(** ** The package *)

(** [config.HandinFileName] is not among the sources; the name is the one
    the comment of [InitFaclHandin] gives. *)
Definition HandinFileName : string := "handin.tgz".

(** The ACL of a student's directory and of a student's handin file. *)
Definition dir_acl (uid : string) : list acl_entry :=
  [FromUnix "rwxrwx---"; Entry TagUser uid "r-x"; Entry TagMask "" "rwx"].

Definition file_acl (uid : string) : list acl_entry :=
  [FromUnix "r--r-----"; Entry TagUser uid "-w-"; Entry TagMask "" "rw-"].

Definition makeHandinFile (path uid : string) (w : FS) : FS * option herror :=
  let '(w1, (f, err)) := os_Create path w in
  let w2 := file_Close f w1 in
  match err with
  | Some e => (w2, Some e)
  | None => acl_Set path (file_acl uid) w2
  end.

Section Paths.

(** [filepath.Join], which cleans the path it gives, is a parameter here;
    the join of three elements is the join of the first two, joined to the
    third. *)
Context (Join : string → string → string).

(** The loop of [InitFaclHandin] over the UIDs. *)
Fixpoint init_uids (dir : string) (uids : list string) (w : FS) : FS * option herror :=
  match uids with
  | [] => (w, None)
  | uid :: rest =>
      let path := Join dir uid in
      let filepath := Join path HandinFileName in
      match os_Mkdir path "rwxrwx---" w with
      | (w1, Some e) => (w1, Some e)
      | (w1, None) =>
          match acl_Set path (dir_acl uid) w1 with
          | (w2, Some e) => (w2, Some e)
          | (w2, None) =>
              match makeHandinFile filepath uid w2 with
              | (w3, Some e) => (w3, Some e)
              | (w3, None) => init_uids dir rest w3
              end
          end
      end
  end.

(** [InitFaclHandin]; the deferred function runs last, on the paths that
    registered it. *)
Definition InitFaclHandin (dir : string) (uids : list string) (w : FS) : FS * option herror :=
  let mode := "rwxrwxr-x" in
  match os_Mkdir dir mode w with
  | (w1, Some e) => (w1, Some e)
  | (w1, None) =>
      match os_Chmod dir mode w1 with
      | (w2, Some e) => (w2, Some e)
      | (w2, None) =>
          let '(w3, err) := init_uids dir uids w2 in
          match err with
          | Some e => (fst (os_RemoveAll dir w3), Some e)
          | None => (w3, None)
          end
      end
  end.

Definition SaveFaclHandin (handinDir saveDir uid : string) (w : FS) : FS * option herror :=
  let old := Join (Join handinDir uid) HandinFileName in
  let new := Join saveDir (uid +:+ ".tgz") in
  match os_Rename old new w with
  | (w1, Some e) => (w1, Some e)
  | (w1, None) => makeHandinFile old uid w1
  end.

Definition HandedIn (dir uid : string) (w : FS) : FS * (bool * option herror) :=
  let p := Join (Join dir uid) HandinFileName in
  match os_Open p w with
  | (w1, (_, Some e)) => (w1, (false, Some e))
  | (w1, (f, None)) =>
      match file_Seek_end p w1 with
      | (w2, (_, Some e)) => (file_Close f w2, (false, Some e))
      | (w2, (off, None)) => (file_Close f w2, (negb (off =? 0), None))
      end
  end.

End Paths.

Definition InitSetgidHandin (dir : string) (w : FS) : FS * option herror :=
  let mode := "rwxrwx---" in
  match os_Mkdir dir mode w with
  | (w1, Some e) => (w1, Some (Wrapped "could not create handin directory" e))
  | (w1, None) =>
      match os_Chmod dir mode w1 with
      | (w2, Some e) => (w2, Some (Wrapped "could not set permissions on handin directory" e))
      | (w2, None) => (w2, None)
      end
  end.

(** ** What the properties speak of *)

(** An empty regular file at [p]. *)
Definition empty_file (w : FS) (p : string) : Prop :=
  ∃ n, nodes w !! p = Some n ∧ node_kind n = Regular ∧ node_data n = "".

(** The calls of the loop of [InitFaclHandin]: none removes anything. *)
Definition builds (c : Call) : Prop :=
  match c with
  | CallMkdir _ _ | CallAclSet _ _ | CallCreate _ | CallClose _ => True
  | _ => False
  end.

(** The four ways [InitFaclHandin] can go, with the calls made: the first
    [Mkdir] fails; the [Chmod] fails, and the directory stays; everything
    succeeds; or a later call fails, and [RemoveAll] is the last call. *)
Inductive init_log (dir : string) : list (Call * option string) → option herror → Prop :=
| il_mkdir_failed m :
    init_log dir [(CallMkdir dir "rwxrwxr-x", Some m)]
      (Some (CallError (CallMkdir dir "rwxrwxr-x") m))
| il_chmod_failed m :
    init_log dir [(CallMkdir dir "rwxrwxr-x", None); (CallChmod dir "rwxrwxr-x", Some m)]
      (Some (CallError (CallChmod dir "rwxrwxr-x") m))
| il_done body :
    Forall (fun cr => builds cr.1 ∧ cr.2 = None) body →
    init_log dir ([(CallMkdir dir "rwxrwxr-x", None); (CallChmod dir "rwxrwxr-x", None)] ++ body)
      None
| il_removed body c m r :
    Forall (fun cr => builds cr.1 ∧ cr.2 = None) body →
    builds c →
    init_log dir ([(CallMkdir dir "rwxrwxr-x", None); (CallChmod dir "rwxrwxr-x", None)]
                  ++ body ++ [(c, Some m); (CallRemoveAll dir, r)])
      (Some (CallError c m)).

End Handin.

(** ** Samples: a course directory, a mailer and a handin directory *)

Module Course.
Import AssignmentParse AssignmentFiles.

(** A stand-in for the decoder: it knows the text of one assignment. *)
Definition Decode (text : option json) : string + parseableAssignment :=
  match text with
  | Some (JStr s) => if String.eqb s "hw1" then inr Homework.hw1 else inl "unknown assignment"
  | _ => inl "unexpected end of JSON input"
  end.

Definition Error (e : error) : string := "read error".

Fixpoint has_slash (s : string) : bool :=
  match s with
  | EmptyString => false
  | String c r => Ascii.eqb c "/" || has_slash r
  end.

(** A stand-in for [filepath.Base], for paths that do not end in a slash:
    what follows the last slash. *)
Fixpoint Base (p : string) : string :=
  match p with
  | EmptyString => EmptyString
  | String c r => if has_slash r then Base r else if Ascii.eqb c "/" then r else String c r
  end.

Definition assignments : string := "/course/assignments".

Definition ReadDir (d : string) (w : World) : error + list string :=
  if String.eqb d assignments then inr ["hw1"; "hw1~"; "hw2"] else inl (NotExist d).

(** Backup files are ignored. *)
Definition IgnoreFileAndLog (path : string) : bool :=
  String.eqb path "/course/assignments/hw1~".

(** The directory holds the sample assignment, a backup of it, and a file
    that does not decode. *)
Definition disk : World :=
  set_files (<["/course/assignments/hw1" := mkFile (Some (JStr "hw1")) true]>
            (<["/course/assignments/hw1~" := mkFile (Some (JStr "hw1")) true]>
            (<["/course/assignments/hw2" := mkFile (Some JNull) true]> ∅)))
    Roster.empty_world.

Definition ParseAll : M (Outcome (list Assignment * option (@ferror string)
                                  * list (string * @ferror string))) :=
  ParseAllAssignmentFiles Homework.ValidateCode Decode Error Base ReadDir IgnoreFileAndLog
    assignments.

End Course.

Module Mailer.
Import Template.

(** The template greets a name, and fails on an empty one. *)
Definition Execute (name : string) : string + string :=
  if String.eqb name "" then inl "template: empty name" else inr ("Dear " +:+ name).

Definition Environ : list string := ["HOME=/root"].

(** Commands are found in [/usr/sbin]. *)
Definition LookPath (name : string) : string := "/usr/sbin/" +:+ name.

(** The command fails for the input [Dear nobody]; the state is the list of
    the inputs it has accepted. *)
Definition Run (c : Cmd) (sent : list string) : list string * option string :=
  match Cmd_Stdin c with
  | Some text =>
      if String.eqb text "Dear nobody" then (sent, Some "exit status 1")
      else (sent ++ [text], None)
  | None => (sent, Some "no input")
  end.

Definition to (name : string) : @Entry string := mkEntry ["LANG=C"] name.

Definition idle : @Machine (list string) := ([], []).

End Mailer.

Module Coursework.
Import Handin.

(** Nothing exists, nothing fails. *)
Definition empty_disk : FS := mkFS ∅ (fun _ => None) [].

(** The same file system, where the call [bad] fails. *)
Definition failing (bad : Call) (w : FS) : FS :=
  mkFS (nodes w) (fun c => if bool_decide (c = bad) then Some "permission denied" else None)
       (calls w).

(** The handin directory of an assignment for two students, and the same
    after the first student has handed in. *)
Definition ready : FS := fst (InitFaclHandin Join "/handin/hw1" ["1234"; "5678"] empty_disk).

Definition handed_in : FS :=
  set_nodes (<["/handin/hw1/1234/handin.tgz" :=
                 mkNode Regular "rw-rw-rw-" (Some (file_acl "1234")) "tarball"]> (nodes ready))
    ready.

End Coursework.

(** * Properties *)

(** ** Paths *)

Lemma IsAbs_Join (p n : string) : IsAbs p = true → IsAbs (Join p n) = true.
Proof. destruct p as [|a p]; [done|]. destruct n; simpl; auto. Qed.

Lemma resolve_abs (w : World) (p : string) : IsAbs p = true → resolve w p = p.
Proof. unfold resolve. by intros ->. Qed.

Lemma resolve_Join (w : World) (p n : string) :
  IsAbs p = true → resolve w (Join p n) = Join p n.
Proof. intros. by apply resolve_abs, IsAbs_Join. Qed.

Lemma append_inv_head (p a b : string) : p +:+ a = p +:+ b → a = b.
Proof. induction p as [|c p IH]; simpl; [done|]. intros [=]. auto. Qed.


Lemma Join_inj (p a b : string) : a ≠ "" → b ≠ "" → Join p a = Join p b → a = b.
Proof.
  intros Ha Hb. destruct p as [|c p]; simpl; [done|].
  destruct a as [|x a]; [done|].
  destruct b as [|y b]; [done|].
  intros E. apply append_inv_head in E. injection E. by intros -> ->.
Qed.



Lemma tmp_neq_db (p : string) : Join p DBTempFileName ≠ Join p DBFileName.
Proof. intros E. by apply Join_inj in E. Qed.

(** ** The lock manager *)

(** What an acquisition leaves untouched, and what its answer means. *)
Lemma TryLockN_spec (l : Lock) (n : nat) (d : Z) (w w' : World) (r : error + bool) :
  Lock_TryLockN l n d w = (w', r) →
  files w' = files w ∧ cells w' = cells w ∧ cwd w' = cwd w ∧ fault w' = fault w ∧
  user_current w' = user_current w ∧
  match r with
  | inr true => (resolve w (lock_path l) ∉ locked w) ∧
                locked w' = {[resolve w (lock_path l)]} ∪ locked w
  | inr false => locked w' = locked w ∧ (n ≠ O → resolve w (lock_path l) ∈ locked w)
  | inl e => locked w' = locked w ∧
             ∃ m, fault w (OpTryLock (resolve w (lock_path l))) = Some m ∧
                  e = SysErr (OpTryLock (resolve w (lock_path l))) m
  end.
Proof.
  revert w. induction n as [|k IH]; intros w; simpl.
  { intros [= <- <-]. by repeat split. }
  unfold Lock_TryLock.
  destruct (fault w (OpTryLock (resolve w (lock_path l)))) as [m|] eqn:Hf.
  { intros [= <- <-]. repeat split; eauto. }
  destruct (decide (resolve w (lock_path l) ∈ locked w)) as [Hin|Hout].
  - destruct k as [|k'].
    + intros [= <- <-]. by repeat split.
    + intros Hrec. apply IH in Hrec. simpl in Hrec.
      destruct Hrec as (-> & -> & -> & -> & -> & Hr).
      repeat split; try done.
      unfold resolve in *. simpl in Hr.
      destruct r as [e|[|]]; simpl in *.
      * destruct Hr as [-> (m & Hm & ->)]. split; [done|]. rewrite Hf in Hm. done.
      * by destruct Hr as [Hout _].
      * destruct Hr as [-> _]. done.
  - intros [= <- <-]. by repeat split.
Qed.

(** Releasing a held lock, when the release itself does not fail. *)
Lemma Unlock_held (l : Lock) (w : World) :
  fault w (OpUnlock (resolve w (lock_path l))) = None →
  resolve w (lock_path l) ∈ locked w →
  Lock_Unlock l w =
    (log (OpUnlock (resolve w (lock_path l))) None
       (set_locked (locked w ∖ {[resolve w (lock_path l)]}) w), None).
Proof. intros Hf Hin. unfold Lock_Unlock. rewrite Hf. by destruct (decide _). Qed.

(** Every call of [Unlock] is logged last and touches neither files nor cells. *)
Lemma Unlock_frame (l : Lock) (w : World) :
  ∃ u, trace (fst (Lock_Unlock l w)) = trace w ++ [(OpUnlock (resolve w (lock_path l)), u)] ∧
       files (fst (Lock_Unlock l w)) = files w ∧
       cells (fst (Lock_Unlock l w)) = cells w.
Proof.
  unfold Lock_Unlock. destruct (fault w _); [by eexists|].
  destruct (decide _); by eexists.
Qed.

(** ** Opening a transaction *)

Section Properties.

Context {P : Type} `{!Library P} `{!TimeText}.
Context (ver rev : string).

(** Decoding reads; it changes nothing but the log. *)
Lemma Decoder_Decode_frame (p : string) (m : marshaler) (w : World) :
  ∃ u, fst (Decoder_Decode p m w) = log (OpRead (resolve w p)) u w.
Proof.
  unfold Decoder_Decode, file_Read. destruct (fault w _); [by eexists|].
  simpl. destruct (files w !! resolve w p ≫= content) as [[]|]; by eexists.
Qed.

(** The part of [Open] that runs under the lock: what it leaves untouched,
    the committer it builds, and the errors it can return. *)
Lemma Open_locked_spec (v : P) (path : string) (lock : Lock) (w w' : World)
    (t : P) (c : option Committer) (err : option error) :
  Open_locked v path lock w = (w', (t, c, err)) →
  files w' = files w ∧ locked w' = locked w ∧ cwd w' = cwd w ∧ fault w' = fault w ∧
  match err with
  | None => c = Some (mkCommitter lock path (Join path DBFileName) (length (cells w))) ∧
            cells w' = cells w ++ [0]
  | Some e => c = None ∧ cells w' = cells w ∧
              (e = NotExist (resolve w (Join path DBFileName)) ∨
               (∃ m, e = SysErr (OpOpen (resolve w (Join path DBFileName))) m) ∨
               (∃ e', e = Errorf "unmarshal from file" e'))
  end.
Proof.
  unfold Open_locked, os_Open.
  destruct (fault w (OpOpen _)) as [m|] eqn:Hf.
  { intros [= <- <- <- <-]. repeat split; eauto. }
  destruct (files w !! _) as [f|] eqn:Hfile.
  2:{ intros [= <- <- <- <-]. repeat split; eauto. }
  match goal with |- context [Decoder_Decode ?p ?m ?w0] =>
    destruct (Decoder_Decode_frame p m w0) as [u Hu];
    destruct (Decoder_Decode p m w0) as [w2 [m' [e|]]] end;
  simpl in Hu; subst w2; intros [= <- <- <- <-]; repeat split; eauto.
Qed.

(** [Open] on an absolute path, once the lock object is constructed. *)
Lemma Open_unfold (v : P) (path : string) (w : World) :
  IsAbs path = true →
  fault w (OpLockNew (Join path DBLockFileName)) = None →
  Open v path w =
    match Lock_TryLockN (mkLock (Join path DBLockFileName)) 3 30 w with
    | (w2, inl e) => (w2, (v, Ret (None, Some (Errorf "acquire lock" e))))
    | (w2, inr false) => (w2, (v, Ret (None, Some ErrLockFailed)))
    | (w2, inr true) =>
        let '(w3, (v', c, err)) :=
          Open_locked v path (mkLock (Join path DBLockFileName)) w2 in
        match err with
        | Some _ => (fst (Lock_Unlock (mkLock (Join path DBLockFileName)) w3), (v', Ret (c, err)))
        | None => (w3, (v', Ret (c, err)))
        end
    end.
Proof. intros Habs Hnew. unfold Open, lockfile_New. by rewrite Habs, Hnew. Qed.

(** The error the code calls unexpected: a failure to construct the lock
    object does not return, it panics. *)
Lemma Open_lock_New_failure (v : P) (path : string) (w : World) (m : string) :
  IsAbs path = true →
  fault w (OpLockNew (Join path DBLockFileName)) = Some m →
  Open v path w =
    (w, (v, Panic (PanicError (Errorf "db: unexpected error"
                                 (SysErr (OpLockNew (Join path DBLockFileName)) m))))).
Proof. intros Habs Hnew. unfold Open, lockfile_New. by rewrite Habs, Hnew. Qed.

(** The committer handed out by [Open], and the state [Open] leaves. *)
Lemma Open_returns_committer (v t : P) (path : string) (w w' : World)
    (c : Committer) (err : option error) :
  Open v path w = (w', (t, Ret (Some c, err))) →
  IsAbs path = true ∧ err = None ∧
  c = mkCommitter (mkLock (Join path DBLockFileName)) path (Join path DBFileName)
        (length (cells w)) ∧
  cells w' = cells w ++ [0] ∧ Join path DBLockFileName ∈ locked w'.
Proof.
  destruct (IsAbs path) eqn:Habs; [|by unfold Open; rewrite Habs].
  destruct (fault w (OpLockNew (Join path DBLockFileName))) as [m|] eqn:Hnew.
  { by rewrite (Open_lock_New_failure _ _ _ m). }
  rewrite Open_unfold by done.
  destruct (Lock_TryLockN _ 3 30 w) as [w2 [e|[|]]] eqn:Hlock; [done| |done].
  apply TryLockN_spec in Hlock as (Hfiles & Hcells & Hcwd & Hfault & _ & Hlocked).
  simpl in Hlocked. rewrite resolve_Join in Hlocked by done.
  destruct (Open_locked v path _ w2) as [w3 [[t' c'] err']] eqn:Hbody.
  apply Open_locked_spec in Hbody as (_ & Hl3 & _ & _ & Herr).
  destruct Hlocked as [_ Hlocked].
  destruct err' as [e|]; intros [= ? ? ? ?]; subst; destruct Herr as [Hc Hcells3];
    [done|].
  injection Hc as ->. rewrite Hcells3, Hl3, Hlocked, Hcells.
  repeat split. set_solver.
Qed.

(** C8.  On a path that is not absolute both [Open] and [Init] return
    [ErrNeedAbsPath] and hand back the world exactly as they found it: no
    lock sentinel, no data file, no call into the environment at all. *)
Theorem relative_path_rejected (v : P) (iv : option P) (path : string) (w : World) :
  IsAbs path = false →
  Open v path w = (w, (v, Ret (None, Some ErrNeedAbsPath))) ∧
  Init ver rev iv path w = (w, Some ErrNeedAbsPath).
Proof. intros Hrel. unfold Open, Init. by rewrite Hrel. Qed.

(** C5.  With the lock object constructed, the outcome of the bounded
    acquisition decides what [Open] does.  Attempts exhausted: [Open]
    returns the sentinel [ErrLockFailed] (a return, not a panic) and has
    touched neither files nor locks.  An I/O error of an attempt: [Open]
    returns it under the context [acquire lock].  And [ErrLockFailed] is
    returned in no other case. *)
Theorem Open_lock_outcomes (v : P) (path : string) (w w2 : World) (r : error + bool) :
  IsAbs path = true →
  fault w (OpLockNew (Join path DBLockFileName)) = None →
  Lock_TryLockN (mkLock (Join path DBLockFileName)) 3 30 w = (w2, r) →
  match r with
  | inr false =>
      Open v path w = (w2, (v, Ret (None, Some ErrLockFailed))) ∧
      files w2 = files w ∧ locked w2 = locked w ∧
      Join path DBLockFileName ∈ locked w
  | inl e =>
      Open v path w = (w2, (v, Ret (None, Some (Errorf "acquire lock" e)))) ∧
      (∃ m, fault w (OpTryLock (Join path DBLockFileName)) = Some m ∧
            e = SysErr (OpTryLock (Join path DBLockFileName)) m) ∧
      files w2 = files w ∧ locked w2 = locked w
  | inr true =>
      ∀ c, snd (snd (Open v path w)) ≠ Ret (c, Some ErrLockFailed)
  end.
Proof.
  intros Habs Hnew Hlock. rewrite Open_unfold by done. rewrite Hlock.
  apply TryLockN_spec in Hlock as (Hfiles & _ & _ & _ & _ & Hr).
  simpl in Hr. rewrite resolve_Join in Hr by done.
  destruct r as [e|[|]].
  - destruct Hr as [Hl Hm]. done.
  - intros c.
    destruct (Open_locked v path _ w2) as [w3 [[t' c'] err']] eqn:Hbody.
    apply Open_locked_spec in Hbody as (_ & _ & _ & _ & Herr).
    destruct err' as [e|]; simpl; [|congruence].
    destruct Herr as (_ & _ & [->|[[m ->]|[e' ->]]]); congruence.
  - destruct Hr as [Hl Hin]. repeat split; auto.
Qed.

(** A free sentinel never makes [Open] report contention. *)
Lemma Open_not_blocked (v : P) (path : string) (w : World) (c : option Committer) :
  IsAbs path = true →
  Join path DBLockFileName ∉ locked w →
  snd (snd (Open v path w)) ≠ Ret (c, Some ErrLockFailed).
Proof.
  intros Habs Hfree.
  destruct (fault w (OpLockNew (Join path DBLockFileName))) as [m|] eqn:Hnew.
  { by rewrite (Open_lock_New_failure _ _ _ m). }
  rewrite Open_unfold by done.
  destruct (Lock_TryLockN (mkLock (Join path DBLockFileName)) 3 30 w) as [w2 r] eqn:Hlock.
  apply TryLockN_spec in Hlock as (_ & _ & _ & _ & _ & Hr).
  simpl in Hr. rewrite resolve_Join in Hr by done.
  destruct r as [e|[|]].
  - simpl. congruence.
  - destruct (Open_locked v path _ w2) as [w3 [[t' c'] err']] eqn:Hbody.
    apply Open_locked_spec in Hbody as (_ & _ & _ & _ & Herr).
    destruct err' as [e|]; simpl; [|congruence].
    destruct Herr as (_ & _ & [->|[[m ->]|[e' ->]]]); congruence.
  - destruct Hr as [_ Hin]. destruct Hfree. by apply Hin.
Qed.

(** C3.  When [Open] has acquired the lock and then returns an error (the
    document cannot be opened, or does not decode), it hands out no
    committer, the last thing it did was to call [Unlock] on the lock it
    had just acquired, and the files are as before.  Unless that release
    itself fails, the sentinel is free again, the lock set is what it was
    before the call, and a later [Open] of the directory does not report
    contention. *)
Theorem Open_failure_releases_lock (v t : P) (path : string) (w w2 w' : World)
    (c : option Committer) (e : error) :
  IsAbs path = true →
  fault w (OpLockNew (Join path DBLockFileName)) = None →
  Lock_TryLockN (mkLock (Join path DBLockFileName)) 3 30 w = (w2, inr true) →
  Open v path w = (w', (t, Ret (c, Some e))) →
  c = None ∧
  (e = NotExist (Join path DBFileName) ∨
   (∃ m, e = SysErr (OpOpen (Join path DBFileName)) m) ∨
   (∃ e', e = Errorf "unmarshal from file" e')) ∧
  (∃ pre u, trace w' = pre ++ [(OpUnlock (Join path DBLockFileName), u)]) ∧
  files w' = files w ∧
  (fault w (OpUnlock (Join path DBLockFileName)) = None →
   (Join path DBLockFileName ∉ locked w') ∧ locked w' = locked w ∧
   ∀ (v2 : P) (w'' : World) (c2 : option Committer),
     locked w'' = locked w' →
     snd (snd (Open v2 path w'')) ≠ Ret (c2, Some ErrLockFailed)).
Proof.
  intros Habs Hnew Hlock. rewrite Open_unfold by done. rewrite Hlock.
  apply TryLockN_spec in Hlock as (Hfiles & _ & Hcwd & Hfault & _ & Hfree & Hlocked).
  simpl in Hfree, Hlocked. rewrite resolve_Join in Hfree, Hlocked by done.
  destruct (Open_locked v path _ w2) as [w3 [[t' c'] err']] eqn:Hbody.
  apply Open_locked_spec in Hbody as (Hf3 & Hl3 & Hcwd3 & Hfault3 & Herr).
  destruct err' as [e0|]; intros [= ? ? ? ?]; subst.
  destruct Herr as (-> & _ & He). rewrite resolve_Join in He by done.
  split; [done|]. split; [done|].
  set (lock := mkLock (Join path DBLockFileName)).
  destruct (Unlock_frame lock w3) as (u & Htr & Hfu & _).
  simpl in Htr. rewrite resolve_Join in Htr by done.
  split; [by eexists _, _|]. split; [congruence|].
  intros Hunl.
  assert (Hw' : locked (fst (Lock_Unlock lock w3)) = locked w).
  { rewrite Unlock_held; simpl; rewrite resolve_Join by done.
    - rewrite Hl3, Hlocked. set_solver.
    - by rewrite Hfault3, Hfault.
    - rewrite Hl3, Hlocked. set_solver. }
  rewrite Hw'. repeat split; [done|].
  intros v2 w'' c2 Hl''. apply Open_not_blocked; [done|]. by rewrite Hl''.
Qed.

(** ** The committer *)

(** The write path touches no cell and no lock. *)
Lemma commit_write_frame (c : Committer) (v : P) (w : World) :
  cells (fst (commit_write ver rev c v w)) = cells w ∧
  locked (fst (commit_write ver rev c v w)) = locked w ∧
  fault (fst (commit_write ver rev c v w)) = fault w ∧
  cwd (fst (commit_write ver rev c v w)) = cwd w.
Proof.
  unfold commit_write, os_Create, Encoder_Encode, file_Write, file_Sync, os_Rename,
    file_Close.
  repeat (case_match; simplify_eq/=); done.
Qed.

Lemma commit_body_frame (c : Committer) (v : option P) (w : World) :
  cells (fst (commit_body ver rev c v w)) = cells w ∧
  locked (fst (commit_body ver rev c v w)) = locked w ∧
  fault (fst (commit_body ver rev c v w)) = fault w ∧
  cwd (fst (commit_body ver rev c v w)) = cwd w.
Proof. destruct v as [p|]; [apply commit_write_frame|done]. Qed.

(** The first call of a committer: the flag is taken, the body runs, the
    deferred function runs, and the call returns. *)
Lemma commit_first_call (c : Committer) (v : option P) (w : World) :
  cells w !! c_done c = Some 0 →
  commit ver rev c v w =
    let w1 := set_cells (<[c_done c := 1]> (cells w)) w in
    let '(w2, err) := commit_body ver rev c v w1 in
    let '(w3, err') := commit_deferred c err w2 in
    (w3, Ret err').
Proof. intros Hcell. unfold commit, CompareAndSwapUint32. by rewrite Hcell. Qed.

(** A call that finds the flag taken panics and changes nothing. *)
Lemma commit_later_call (c : Committer) (v : option P) (w : World) :
  cells w !! c_done c = Some 1 →
  commit ver rev c v w = (w, Panic (PanicString "db: Committer called twice")).
Proof. intros Hcell. unfold commit, CompareAndSwapUint32. by rewrite Hcell. Qed.

(** C4.  For a committer returned by [Open], whose flag [Open] leaves at
    zero: whatever the first call is given, in whatever world it finds the
    flag still at zero, and whatever it returns, the first call returns (it
    does not panic); and every later call, with any argument, in any world
    where the flag is as the first call left it, panics with the world
    unchanged: no write, no rename, no release of the lock, no call into the
    environment. *)
Theorem committer_second_call_panics (v0 t : P) (path : string) (w0 w1 : World)
    (c : Committer) :
  Open v0 path w0 = (w1, (t, Ret (Some c, None))) →
  cells w1 !! c_done c = Some 0 ∧
  ∀ (w : World) (a1 : option P),
    cells w !! c_done c = Some 0 →
    (∃ err, snd (commit ver rev c a1 w) = Ret err) ∧
    ∀ (w3 : World) (a2 : option P),
      cells w3 !! c_done c = cells (fst (commit ver rev c a1 w)) !! c_done c →
      commit ver rev c a2 w3 = (w3, Panic (PanicString "db: Committer called twice")).
Proof.
  intros Hopen. apply Open_returns_committer in Hopen as (_ & _ & -> & Hcells & _).
  simpl. split.
  { rewrite Hcells. by rewrite lookup_app_r, Nat.sub_diag by lia. }
  intros w a1 Hcell.
  rewrite commit_first_call by done. cbv zeta. simpl (c_done _).
  set (c := mkCommitter _ _ _ _). set (w1' := set_cells _ w).
  pose proof (commit_body_frame c a1 w1') as (Hc2 & _).
  destruct (commit_body ver rev c a1 w1') as [w2 err]. simpl in Hc2.
  unfold commit_deferred.
  destruct (Unlock_frame (c_lock c) w2) as (u & _ & _ & Hc3).
  destruct (Lock_Unlock (c_lock c) w2) as [w3' err2]. simpl in Hc3.
  assert (Hdone : cells w3' !! length (cells w0) = Some 1).
  { rewrite Hc3, Hc2. subst w1'. simpl.
    apply list_lookup_insert_eq. by eapply lookup_lt_Some. }
  destruct err2 as [e2|], err as [e|]; simpl;
    (split; [by eexists|]); intros w3 a2 Hw3; apply commit_later_call;
    simpl in Hw3 |- *; by rewrite Hw3.
Qed.

#[local] Arguments Join : simpl never.
#[local] Arguments marshal_db : simpl never.
#[local] Arguments getDBObj : simpl never.

Lemma marshal_db_getDBObj (v : P) (w : World) :
  marshal_db (getDBObj ver rev (Some v) w) =
    match json_Marshal v with
    | inl e => inl e
    | inr payload => inr (envelope ver rev w payload)
    end.
Proof.
  unfold marshal_db, getDBObj, envelope, marshaler_MarshalJSON. simpl.
  destruct (json_Marshal v); [done|]. by destruct (user_current w).
Qed.

Ltac unfold_write_path :=
  unfold commit_write, os_Create, Encoder_Encode, file_Write, file_Sync, os_Rename,
    file_Close, resolve; simpl.

(** The write path of a commit: its log, what an error means, and what
    success leaves on disk. *)
Lemma commit_write_spec (lock : Lock) (path : string) (a : nat) (v : P) (w : World) :
  IsAbs path = true →
  let c := mkCommitter lock path (Join path DBFileName) a in
  let tmp := Join path DBTempFileName in
  let dbp := Join path DBFileName in
  let w' := fst (commit_write ver rev c v w) in
  let err := snd (commit_write ver rev c v w) in
  (∃ delta, trace w' = trace w ++ delta ∧ write_log tmp dbp delta ∧
     (err = None ↔ delta = [(OpCreate tmp, None); (OpWrite tmp, None); (OpSync tmp, None);
                            (OpRename tmp dbp, None); (OpClose tmp, None)])) ∧
  match err with
  | Some e =>
      write_path_fails path v w ∧
      (∀ q, q ≠ tmp → files w' !! q = files w !! q) ∧
      ((∃ m, e = SysErr (OpCreate tmp) m) ∨
       (∃ e', e = Errorf "marshal to file" e') ∨
       (∃ e', e = Errorf "atomically update" e'))
  | None =>
      ¬ write_path_fails path v w ∧
      ∃ payload, json_Marshal v = inr payload ∧
        files w' = <[dbp := mkFile (Some (envelope ver rev w payload)) true]> (delete tmp (files w))
  end.
Proof.
  intros Habs c tmp dbp w' err. subst w' err c.
  unfold write_path_fails.
  unfold_write_path. rewrite !(IsAbs_Join path) by done.
  fold tmp dbp.
  destruct (fault w (OpCreate tmp)) as [m|] eqn:Hcreate; simpl.
  { split; [eexists; split; [done|]; split; [constructor|done]|]. eauto 10. }
  rewrite marshal_db_getDBObj.
  destruct (json_Marshal v) as [e|payload]; simpl.
  { split; [eexists; split; [by rewrite <- app_assoc|]; split; [constructor|done]|].
    split; [eauto|]. split; [|eauto]. intros q Hq. by rewrite lookup_insert_ne. }
  destruct (fault w (OpWrite tmp)) as [m|] eqn:Hwrite; simpl.
  { split; [eexists; split; [by rewrite <- !app_assoc|]; split; [constructor|done]|].
    split; [eauto 10|]. split; [|eauto]. intros q Hq. by rewrite !lookup_insert_ne. }
  destruct (fault w (OpSync tmp)) as [m|] eqn:Hsync; simpl.
  { split; [eexists; split; [by rewrite <- !app_assoc|]; split; [constructor|done]|].
    split; [eauto 10|]. split; [|eauto]. intros q Hq. by rewrite !lookup_insert_ne. }
  destruct (fault w (OpRename tmp dbp)) as [m|] eqn:Hrename; simpl.
  { split; [eexists; split; [by rewrite <- !app_assoc|]; split; [constructor|done]|].
    split; [eauto 10|]. split; [|eauto]. intros q Hq. rewrite lookup_alter_ne by done.
    by rewrite !lookup_insert_ne. }
  rewrite lookup_alter, decide_True by done. rewrite !lookup_insert_eq. simpl.
  split; [eexists; split; [by rewrite <- !app_assoc|]; split; [constructor|done]|].
  split.
  { intros [[? [=]]|[[? [=]]|[[? [=]]|[[? [=]]|[? [=]]]]]]. }
  eexists; split; [done|]. f_equal.
  apply map_eq. intros q. destruct (decide (q = tmp)) as [->|Hq].
  - by rewrite !lookup_delete_eq.
  - rewrite !lookup_delete_ne by done. rewrite lookup_alter_ne by done.
    by rewrite !lookup_insert_ne.
Qed.

(** C6.  The error a commit returns, from the error of its body and the
    error of the deferred unlock: an error of the body is returned as it is,
    whatever the unlock did; with no error of the body, a failed unlock is
    returned under the context [release lock]; otherwise nil. *)
Theorem commit_unlock_error_reporting (c : Committer) (v : option P)
    (w w1 w2 w3 : World) (err err2 : option error) :
  CompareAndSwapUint32 (c_done c) 0 1 w = (w1, true) →
  commit_body ver rev c v w1 = (w2, err) →
  Lock_Unlock (c_lock c) w2 = (w3, err2) →
  commit ver rev c v w =
    (w3, Ret (match err with
              | Some e => Some e
              | None => Errorf "release lock" <$> err2
              end)).
Proof.
  intros Hcas Hbody Hunlock. unfold commit. rewrite Hcas, Hbody.
  unfold commit_deferred. rewrite Hunlock. by destruct err2, err.
Qed.

(** In every log of the write path a rename comes directly after a
    successful write and a successful sync of the temporary file. *)
Lemma write_log_rename (tmp dbp : string) (delta : list (Op * option string))
    (r : option string) :
  write_log tmp dbp delta →
  (OpRename tmp dbp, r) ∈ delta →
  delta = [(OpCreate tmp, None); (OpWrite tmp, None); (OpSync tmp, None);
           (OpRename tmp dbp, r); (OpClose tmp, None)].
Proof.
  intros Hlog Hin. destruct Hlog; set_unfold; destruct_or?; simplify_eq; done.
Qed.

Lemma write_log_no_unlock (tmp dbp lp : string) (delta : list (Op * option string))
    (u : option string) :
  write_log tmp dbp delta → (OpUnlock lp, u) ∉ delta.
Proof.
  intros Hlog Hin. destruct Hlog; set_unfold; destruct_or?; simplify_eq.
Qed.

(** The first call of a committer with a value, step by step: the write
    path runs in a world [w2], then the deferred unlock in a world [w3]. *)
Lemma commit_value_run (path : string) (a : nat) (v : P) (w : World) :
  IsAbs path = true →
  cells w !! a = Some 0 →
  let tmp := Join path DBTempFileName in
  let dbp := Join path DBFileName in
  let lp := Join path DBLockFileName in
  let c := mkCommitter (mkLock lp) path dbp a in
  ∃ w2 err w3 err2 delta u,
    commit ver rev c (Some v) w =
      (w3, Ret (match err with
                | Some e => Some e
                | None => Errorf "release lock" <$> err2
                end)) ∧
    trace w2 = trace w ++ delta ∧ write_log tmp dbp delta ∧
    (err = None ↔ delta = full_write_log tmp dbp) ∧
    match err with
    | Some e =>
        write_path_fails path v w ∧
        (∀ q, q ≠ tmp → files w2 !! q = files w !! q) ∧
        ((∃ m, e = SysErr (OpCreate tmp) m) ∨
         (∃ e', e = Errorf "marshal to file" e') ∨
         (∃ e', e = Errorf "atomically update" e'))
    | None =>
        ¬ write_path_fails path v w ∧
        ∃ payload, json_Marshal v = inr payload ∧
          files w2 = <[dbp := mkFile (Some (envelope ver rev w payload)) true]> (delete tmp (files w))
    end ∧
    trace w3 = trace w2 ++ [(OpUnlock lp, u)] ∧ files w3 = files w2 ∧
    (fault w (OpUnlock lp) = None → lp ∈ locked w →
     err2 = None ∧ locked w3 = locked w ∖ {[lp]}).
Proof.
  intros Habs Hcell tmp dbp lp c. subst c.
  rewrite commit_first_call by done. cbv zeta.
  unfold commit_body, commit_deferred. simpl (c_done _). simpl (c_lock _).
  remember (set_cells (<[a:=1]> (cells w)) w) as w1' eqn:Hw1'.
  assert (Hsame : files w1' = files w ∧ locked w1' = locked w ∧ fault w1' = fault w ∧
                  trace w1' = trace w ∧ envelope ver rev w1' = envelope ver rev w ∧
                  (write_path_fails path v w1' ↔ write_path_fails path v w)).
  { by subst w1'. }
  destruct Hsame as (Hfiles1 & Hlocked1 & Hfault1 & Htrace1 & Henv1 & Hfails1).
  pose proof (commit_write_spec (mkLock lp) path a v w1' Habs) as Hspec.
  pose proof (commit_write_frame (mkCommitter (mkLock lp) path dbp a) v w1') as Hframe.
  cbv zeta in Hspec. fold tmp dbp lp in Hspec |- *.
  destruct (commit_write ver rev _ v w1') as [w2 err] eqn:Hcw.
  simpl in Hspec, Hframe.
  destruct Hspec as [(delta & Htr & Hlog & Hfull) Herr].
  destruct Hframe as (_ & Hl2 & Hf2 & _).
  destruct (Unlock_frame (mkLock lp) w2) as (u & Htr3 & Hfiles3 & _).
  pose proof (Unlock_held (mkLock lp) w2) as Hheld.
  simpl in Htr3, Hheld. unfold lp in Htr3, Hheld.
  rewrite resolve_Join in Htr3, Hheld by done. fold lp in Htr3, Hheld.
  destruct (Lock_Unlock (mkLock lp) w2) as [w3 err2]. simpl in Htr3, Hfiles3, Hheld.
  exists w2, err, w3, err2, delta, u.
  split; [by destruct err2, err|].
  split; [by rewrite Htr, Htrace1|]. split; [done|]. split; [done|].
  split.
  { destruct err as [e|].
    - destruct Herr as (Hbad & Hq & He). rewrite Hfails1 in Hbad.
      split; [done|]. split; [|done]. intros q Hne. by rewrite Hq, Hfiles1.
    - destruct Herr as (Hok & payload & Hpayload & Hfiles2). rewrite Hfails1 in Hok.
      split; [done|]. exists payload. by rewrite Hfiles2, Henv1, Hfiles1. }
  split; [done|]. split; [done|].
  intros Hunlock Hin. rewrite Hf2, Hl2, Hfault1, Hlocked1 in Hheld.
  specialize (Hheld Hunlock Hin). by injection Hheld as -> ->.
Qed.

(** C1.  The first call of a committer returned by [Open], with a value.
    The call returns.  Its log is a write path followed by one unlock, the
    last call made: the lock is released after the rename, never before.
    A rename is attempted only directly after the temporary file has been
    written and synced with success.  When no step fails, the live document
    becomes the synced envelope of the value (version, build, UID when the
    user resolves, time, payload), the temporary file is gone, and with a
    successful release the call returns nil and the sentinel is free. *)
Theorem commit_writes_syncs_renames_unlocks (v0 t v : P) (path : string)
    (w0 w1 w : World) (c : Committer) :
  Open v0 path w0 = (w1, (t, Ret (Some c, None))) →
  cells w !! c_done c = Some 0 →
  let tmp := Join path DBTempFileName in
  let dbp := Join path DBFileName in
  let lp := Join path DBLockFileName in
  ∃ w' err delta u,
    commit ver rev c (Some v) w = (w', Ret err) ∧
    trace w' = trace w ++ delta ++ [(OpUnlock lp, u)] ∧
    write_log tmp dbp delta ∧
    (∀ r, (OpRename tmp dbp, r) ∈ delta →
          delta = [(OpCreate tmp, None); (OpWrite tmp, None); (OpSync tmp, None);
                   (OpRename tmp dbp, r); (OpClose tmp, None)]) ∧
    (∀ u', (OpUnlock lp, u') ∉ delta) ∧
    (¬ write_path_fails path v w →
     delta = full_write_log tmp dbp ∧
     (∃ payload, json_Marshal v = inr payload ∧
        files w' !! dbp = Some (mkFile (Some (envelope ver rev w payload)) true)) ∧
     files w' !! tmp = None ∧
     (fault w (OpUnlock lp) = None → lp ∈ locked w → err = None ∧ lp ∉ locked w')).
Proof.
  intros Hopen Hcell tmp dbp lp.
  apply Open_returns_committer in Hopen as (Habs & _ & -> & _ & _).
  destruct (commit_value_run path (length (cells w0)) v w Habs Hcell)
    as (w2 & err & w3 & err2 & delta & u & Hrun & Htr & Hlog & Hfull & Herr &
        Htr3 & Hfiles3 & Hunl).
  fold tmp dbp lp in Hrun, Htr, Hlog, Hfull, Herr, Htr3, Hunl.
  eexists w3, _, delta, u. split; [exact Hrun|].
  split; [by rewrite Htr3, Htr, <- app_assoc|].
  split; [done|]. split; [intros r; by apply write_log_rename|].
  split; [intros u'; by eapply write_log_no_unlock|].
  intros Hok. destruct err as [e|]; [by destruct Herr as [Hbad _]|].
  destruct Herr as (_ & payload & Hpayload & Hfiles2).
  split; [by apply Hfull|].
  rewrite Hfiles3, Hfiles2.
  split; [exists payload; split; [done|]; by rewrite lookup_insert_eq|].
  split.
  { rewrite lookup_insert_ne by (symmetry; apply tmp_neq_db). apply lookup_delete_eq. }
  intros Hunlock Hin. destruct (Hunl Hunlock Hin) as [-> ->].
  split; [done|]. set_solver.
Qed.

(** C2.  The first call of a committer returned by [Open], with a value,
    when a step of the write path fails (creating the temporary file,
    serialising, writing, syncing or renaming).  The call returns that
    error; every file but the temporary one, the live document among them,
    is what it was; and the last call made is the unlock, which, unless
    the release itself fails, leaves the sentinel free. *)
Theorem commit_failure_keeps_document (v0 t v : P) (path : string)
    (w0 w1 w : World) (c : Committer) :
  Open v0 path w0 = (w1, (t, Ret (Some c, None))) →
  cells w !! c_done c = Some 0 →
  write_path_fails path v w →
  let tmp := Join path DBTempFileName in
  let dbp := Join path DBFileName in
  let lp := Join path DBLockFileName in
  ∃ w' e pre u,
    commit ver rev c (Some v) w = (w', Ret (Some e)) ∧
    ((∃ m, e = SysErr (OpCreate tmp) m) ∨
     (∃ e', e = Errorf "marshal to file" e') ∨
     (∃ e', e = Errorf "atomically update" e')) ∧
    files w' !! dbp = files w !! dbp ∧
    (∀ q, q ≠ tmp → files w' !! q = files w !! q) ∧
    trace w' = trace w ++ pre ++ [(OpUnlock lp, u)] ∧
    (∀ r, (OpRename tmp dbp, r) ∈ pre → is_Some r) ∧
    (fault w (OpUnlock lp) = None → lp ∈ locked w → lp ∉ locked w').
Proof.
  intros Hopen Hcell Hfails tmp dbp lp.
  apply Open_returns_committer in Hopen as (Habs & _ & -> & _ & _).
  destruct (commit_value_run path (length (cells w0)) v w Habs Hcell)
    as (w2 & err & w3 & err2 & delta & u & Hrun & Htr & Hlog & Hfull & Herr &
        Htr3 & Hfiles3 & Hunl).
  fold tmp dbp lp in Hrun, Htr, Hlog, Hfull, Herr, Htr3, Hunl.
  destruct err as [e|]; [|by destruct Herr as [Hok _]].
  destruct Herr as (_ & Hq & He).
  exists w3, e, delta, u. split; [exact Hrun|]. split; [done|].
  rewrite Hfiles3.
  split; [apply Hq; symmetry; apply tmp_neq_db|]. split; [done|].
  split; [by rewrite Htr3, Htr, <- app_assoc|].
  split.
  { intros r Hin. destruct r as [m|]; [by eexists|].
    apply write_log_rename in Hin; [|done].
    assert (Some e = None) as [=]. by apply Hfull. }
  intros Hunlock Hin. destruct (Hunl Hunlock Hin) as [_ ->]. set_solver.
Qed.

(** ** Reading without a lock *)


(** ** Initialising a store *)

Lemma marshal_db_getDBObj_any (v : option P) (w : World) :
  marshal_db (getDBObj ver rev v w) =
    match marshaler_MarshalJSON (mkMarshaler v) with
    | inl e => inl e
    | inr payload => inr (envelope ver rev w payload)
    end.
Proof.
  unfold marshal_db, getDBObj, envelope. simpl.
  destruct (marshaler_MarshalJSON _); [done|]. by destruct (user_current w).
Qed.

Ltac unfold_init_path :=
  unfold Init, os_Create, Encoder_Encode, file_Write, file_Sync, file_Close, resolve; simpl.

(** The result of [Init] depends on the world only through the failures
    injected, the user and the clock: not through the files, not through
    the locks. *)
Lemma Init_result_indep (v : option P) (path : string) (w1 w2 : World) :
  fault w1 = fault w2 → user_current w1 = user_current w2 → now w1 = now w2 →
  cwd w1 = cwd w2 →
  snd (Init ver rev v path w1) = snd (Init ver rev v path w2).
Proof.
  intros Hf Hu Hn Hc. unfold_init_path. destruct (IsAbs path); simpl; [|done].
  rewrite Hf, Hc.
  destruct (fault w2 (OpCreate _)); simpl; [done|].
  rewrite !marshal_db_getDBObj_any. unfold envelope. simpl. rewrite Hu, Hn.
  destruct (marshaler_MarshalJSON _); simpl; [done|].
  rewrite Hf, Hc.
  destruct (fault w2 (OpWrite _)); simpl; [done|].
  rewrite Hf, Hc.
  destruct (fault w2 (OpSync _)); simpl; done.
Qed.

(** What [Init] does to the world, on an absolute path. *)
Lemma Init_spec (v : option P) (path : string) (w : World) :
  IsAbs path = true →
  let dbp := Join path DBFileName in
  let w' := fst (Init ver rev v path w) in
  let err := snd (Init ver rev v path w) in
  locked w' = locked w ∧
  (∀ q, q ≠ dbp → files w' !! q = files w !! q) ∧
  (∃ delta, trace w' = trace w ++ delta ∧
     ∀ op r, (op, r) ∈ delta → op ∈ [OpCreate dbp; OpWrite dbp; OpSync dbp; OpClose dbp]) ∧
  (fault w (OpCreate dbp) = None →
   ∃ f, files w' !! dbp = Some f ∧
        (content f = None ∨
         ∃ payload, marshaler_MarshalJSON (mkMarshaler v) = inr payload ∧
                    content f = Some (envelope ver rev w payload))) ∧
  (fault w (OpCreate dbp) = None → fault w (OpWrite dbp) = None →
   fault w (OpSync dbp) = None →
   ∀ payload, marshaler_MarshalJSON (mkMarshaler v) = inr payload →
     err = None ∧ files w' !! dbp = Some (mkFile (Some (envelope ver rev w payload)) true)).
Proof.
  intros Habs dbp w' err. subst w' err.
  unfold_init_path. rewrite Habs. simpl. rewrite !(IsAbs_Join path) by done. fold dbp.
  destruct (fault w (OpCreate dbp)) as [m|] eqn:Hcreate; simpl.
  { split_and!; try done. exists [(OpCreate dbp, Some m)]. split; [done|].
    intros op r Hin. set_unfold. destruct_or?; simplify_eq. auto. }
  rewrite !marshal_db_getDBObj_any.
  destruct (marshaler_MarshalJSON (mkMarshaler v)) as [e|payload] eqn:Hm; simpl.
  { split_and!; try done.
    - intros q Hq. by rewrite lookup_insert_ne.
    - exists [(OpCreate dbp, None); (OpClose dbp, None)].
      split; [by rewrite <- app_assoc|].
      intros op r Hin. set_unfold. destruct_or?; simplify_eq; auto.
    - intros _. eexists. rewrite lookup_insert_eq. split; [done|]. by left. }
  destruct (fault w (OpWrite dbp)) as [m|] eqn:Hwrite; simpl.
  { split_and!; try done.
    - intros q Hq. by rewrite !lookup_insert_ne.
    - exists [(OpCreate dbp, None); (OpWrite dbp, Some m); (OpClose dbp, None)].
      split; [by rewrite <- !app_assoc|].
      intros op r Hin. set_unfold. destruct_or?; simplify_eq; auto.
    - intros _. eexists. rewrite lookup_insert_eq. split; [done|]. by left. }
  destruct (fault w (OpSync dbp)) as [m|] eqn:Hsync; simpl.
  { split_and!; try done.
    - intros q Hq. by rewrite !lookup_insert_ne.
    - exists [(OpCreate dbp, None); (OpWrite dbp, None); (OpSync dbp, Some m);
              (OpClose dbp, None)].
      split; [by rewrite <- !app_assoc|].
      intros op r Hin. set_unfold. destruct_or?; simplify_eq; auto 10.
    - intros _. eexists. rewrite lookup_insert_eq. split; [done|]. right. eauto. }
  split_and!; try done.
  - intros q Hq. rewrite lookup_alter_ne by done. by rewrite !lookup_insert_ne.
  - exists [(OpCreate dbp, None); (OpWrite dbp, None); (OpSync dbp, None);
            (OpClose dbp, None)].
    split; [by rewrite <- !app_assoc|].
    intros op r Hin. set_unfold. destruct_or?; simplify_eq; auto 10.
  - intros _. eexists. rewrite lookup_alter, decide_True by done.
    rewrite lookup_insert_eq. simpl. split; [done|]. right. eauto.
  - intros _ _ _ payload' [= <-].
    rewrite lookup_alter, decide_True by done. by rewrite lookup_insert_eq.
Qed.

(** Once the create succeeds, the live document [Init] leaves does not
    depend on the files there were. *)
Lemma Init_live_indep (v : option P) (path : string) (w : World) (fs : gmap string File) :
  IsAbs path = true →
  fault w (OpCreate (Join path DBFileName)) = None →
  files (fst (Init ver rev v path w)) !! Join path DBFileName =
  files (fst (Init ver rev v path (set_files fs w))) !! Join path DBFileName.
Proof.
  intros Habs Hcreate.
  unfold_init_path. rewrite Habs. simpl. rewrite !(IsAbs_Join path) by done.
  rewrite Hcreate. simpl.
  rewrite !marshal_db_getDBObj_any.
  change (envelope ver rev (log _ _ (set_files _ (set_files fs w)))) with (envelope ver rev w).
  change (envelope ver rev (log _ _ (set_files _ w))) with (envelope ver rev w).
  destruct (marshaler_MarshalJSON (mkMarshaler v)) as [e|payload]; simpl.
  { by rewrite !lookup_insert_eq. }
  destruct (fault w (OpWrite _)) as [m|]; simpl.
  { by rewrite !lookup_insert_eq. }
  destruct (fault w (OpSync _)) as [m|]; simpl.
  { by rewrite !lookup_insert_eq. }
  rewrite !lookup_alter, !decide_True by done. by rewrite !lookup_insert_eq.
Qed.

(** A failed create leaves every file as it was. *)
Lemma Init_create_failed (v : option P) (path : string) (w : World) (m : string) :
  IsAbs path = true →
  fault w (OpCreate (Join path DBFileName)) = Some m →
  files (fst (Init ver rev v path w)) = files w.
Proof.
  intros Habs Hcreate.
  unfold_init_path. rewrite Habs. simpl. rewrite !(IsAbs_Join path) by done.
  by rewrite Hcreate.
Qed.

(** C9.  [Init] on a directory that already holds a database, whoever may
    hold the lock.  It touches no lock, no file other than the live
    document, and calls nothing but create, write, sync and close on the
    live path: no temporary file, no rename.  Unless the create itself
    fails (then the old document stays), the old document is gone whatever
    happens next, and what is left in its place is what [Init] leaves in a
    directory without a database.  When no step fails [Init] returns nil
    and the live document is the synced envelope of the new value.  Its
    result is the one it gives in a directory without a database, and does
    not depend on the locks held. *)
Theorem Init_overwrites_in_place (v : option P) (path : string) (w : World) (old : File) :
  IsAbs path = true →
  files w !! Join path DBFileName = Some old →
  let dbp := Join path DBFileName in
  let fresh := set_files (delete dbp (files w)) w in
  let w' := fst (Init ver rev v path w) in
  let err := snd (Init ver rev v path w) in
  locked w' = locked w ∧
  (∀ q, q ≠ dbp → files w' !! q = files w !! q) ∧
  (∃ delta, trace w' = trace w ++ delta ∧
     ∀ op r, (op, r) ∈ delta → op ∈ [OpCreate dbp; OpWrite dbp; OpSync dbp; OpClose dbp]) ∧
  (∀ m, fault w (OpCreate dbp) = Some m → files w' !! dbp = Some old) ∧
  (fault w (OpCreate dbp) = None →
   files w' !! dbp = files (fst (Init ver rev v path fresh)) !! dbp ∧
   ∃ f, files w' !! dbp = Some f ∧
        (content f = None ∨
         ∃ payload, marshaler_MarshalJSON (mkMarshaler v) = inr payload ∧
                    content f = Some (envelope ver rev w payload))) ∧
  (fault w (OpCreate dbp) = None → fault w (OpWrite dbp) = None →
   fault w (OpSync dbp) = None →
   ∀ payload, marshaler_MarshalJSON (mkMarshaler v) = inr payload →
     err = None ∧ files w' !! dbp = Some (mkFile (Some (envelope ver rev w payload)) true)) ∧
  err = snd (Init ver rev v path fresh) ∧
  (∀ ls, err = snd (Init ver rev v path (set_locked ls w))).
Proof.
  intros Habs Hold dbp fresh w' err.
  destruct (Init_spec v path w Habs) as (H1 & H2 & H3 & H4 & H5).
  split_and!; try done.
  - intros m Hm. subst w'. by rewrite (Init_create_failed v path w m).
  - intros Hcreate. split; [by apply Init_live_indep|by apply H4].
  - by apply Init_result_indep.
  - intros ls. by apply Init_result_indep.
Qed.

(** ** Round trip *)

(** What [Read] returns on an absolute path whose document is a JSON object,
    when neither the open nor the read fails. *)
Lemma Read_object (t : P) (path : string) (w : World) (fs : list (string * json))
    (s : bool) :
  IsAbs path = true →
  files w !! Join path DBFileName = Some (mkFile (Some (JObj fs)) s) →
  fault w (OpOpen (Join path DBFileName)) = None →
  fault w (OpRead (Join path DBFileName)) = None →
  snd (Read t path w) =
    (default t (m_v (fst (decode_fields fs (mkMarshaler (Some t)) None))),
     Errorf "unmarshal from file" <$> snd (decode_fields fs (mkMarshaler (Some t)) None)).
Proof.
  intros Habs Hfile Hopen Hread.
  unfold Read, os_Open. rewrite resolve_Join by done. rewrite Hopen, Hfile.
  unfold Decoder_Decode, file_Read. rewrite resolve_Join by done.
  simpl. rewrite Hread, Hfile. simpl.
  by destruct (decode_fields fs _ None) as [m [e|]].
Qed.

(** Decoding the envelope [Init] and the committer write: the metadata
    members are accepted and dropped, the payload goes to the target. *)
Lemma decode_envelope (w : World) (payload : json) (t v : P) :
  json_Unmarshal payload t = (v, None) →
  is_Some (parse_time (format_time (now w))) →
  ∃ fs, envelope ver rev w payload = JObj fs ∧
        decode_fields fs (mkMarshaler (Some t)) None = (mkMarshaler (Some v), None).
Proof.
  intros Hun [z Hz]. unfold envelope. eexists. split; [done|].
  destruct (user_current w) as [uid|]; [destruct (String.eqb uid "")|];
    simpl; unfold marshaler_UnmarshalJSON; simpl; by rewrite Hz, Hun.
Qed.

(** A document that holds the payload and nothing else decodes as well. *)
Lemma decode_bare (payload : json) (t v : P) :
  json_Unmarshal payload t = (v, None) →
  decode_fields [("DB", payload)] (mkMarshaler (Some t)) None = (mkMarshaler (Some v), None).
Proof. intros Hun. simpl. unfold marshaler_UnmarshalJSON. simpl. by rewrite Hun. Qed.

(** A time member that does not parse makes decoding fail: metadata that
    is present is checked, though its value is dropped. *)
Lemma decode_bad_time (s : string) (rest : list (string * json)) (m : marshaler) :
  parse_time s = None →
  snd (decode_fields (("Time", JStr s) :: rest) m None) = Some (JsonErr "parsing time").
Proof. intros Hs. simpl. by rewrite Hs. Qed.

(** Decoding the envelope whatever the payload codec does with the target:
    the result is the codec's, value and error. *)
Lemma decode_envelope_any (w : World) (payload : json) (t : P) :
  is_Some (parse_time (format_time (now w))) →
  ∃ fs, envelope ver rev w payload = JObj fs ∧
        decode_fields fs (mkMarshaler (Some t)) None
          = (mkMarshaler (Some (fst (json_Unmarshal payload t))),
             snd (json_Unmarshal payload t)).
Proof.
  intros [z Hz]. unfold envelope. eexists. split; [done|].
  destruct (user_current w) as [uid|]; [destruct (String.eqb uid "")|];
    simpl; unfold marshaler_UnmarshalJSON; simpl; rewrite Hz;
    by destruct (json_Unmarshal payload t) as [t' [e|]].
Qed.

Lemma decode_bare_any (payload : json) (t : P) :
  decode_fields [("DB", payload)] (mkMarshaler (Some t)) None
    = (mkMarshaler (Some (fst (json_Unmarshal payload t))), snd (json_Unmarshal payload t)).
Proof.
  simpl. unfold marshaler_UnmarshalJSON. simpl.
  by destruct (json_Unmarshal payload t) as [t' [e|]].
Qed.

(** C7.  For a value [v] that [json.Marshal] accepts, on an absolute
    directory, when no step of [Init] fails: [Init] returns nil, and in
    every later world that still holds the document [Init] left, [Read],
    unless its open or read fails, leaves in its target exactly what
    [json.Unmarshal] of the marshalled [v] leaves in that target, and
    returns the error of [json.Unmarshal] under the context
    [unmarshal from file].  So the value read is [v] whenever the codec
    gives [v] back for that target, and only then.  This holds for every
    version, build, user and clock, so the metadata written has no part in
    the result; and a document that holds the payload with no metadata at
    all reads the same way. *)
Theorem Init_then_Read_unmarshals (v t : P) (path : string) (w : World) (payload : json) :
  IsAbs path = true →
  json_Marshal v = inr payload →
  (∀ z, is_Some (parse_time (format_time z))) →
  let dbp := Join path DBFileName in
  fault w (OpCreate dbp) = None → fault w (OpWrite dbp) = None →
  fault w (OpSync dbp) = None →
  let w1 := fst (Init ver rev (Some v) path w) in
  let got := json_Unmarshal payload t in
  snd (Init ver rev (Some v) path w) = None ∧
  (∀ w2, files w2 !! dbp = files w1 !! dbp →
         fault w2 (OpOpen dbp) = None → fault w2 (OpRead dbp) = None →
         snd (Read t path w2) = (fst got, Errorf "unmarshal from file" <$> snd got) ∧
         (snd (Read t path w2) = (v, None) ↔ got = (v, None))) ∧
  (∀ w2 s, files w2 !! dbp = Some (mkFile (Some (JObj [("DB", payload)])) s) →
           fault w2 (OpOpen dbp) = None → fault w2 (OpRead dbp) = None →
           snd (Read t path w2) = (fst got, Errorf "unmarshal from file" <$> snd got)).
Proof.
  intros Habs Hm Htime dbp Hcreate Hwrite Hsync w1 got.
  destruct (Init_spec (Some v) path w Habs) as (_ & _ & _ & _ & Hok).
  destruct (Hok Hcreate Hwrite Hsync payload Hm) as [Herr Hfile].
  fold dbp w1 in Hfile.
  split; [done|]. split.
  - intros w2 Hw2 Hopen Hread. rewrite Hfile in Hw2.
    destruct (decode_envelope_any w payload t (Htime _)) as (fs & Henv & Hdec).
    rewrite Henv in Hw2.
    rewrite (Read_object t path w2 fs true) by done. rewrite Hdec. simpl. fold got.
    split; [done|]. destruct got as [t' [e|]]; simpl; split; intros [= ->]; done.
  - intros w2 s Hw2 Hopen Hread.
    rewrite (Read_object t path w2 _ s Habs Hw2) by done.
    by rewrite (decode_bare_any payload t).
Qed.

End Properties.

(** * More of [db.go]: whole transactions *)

Section Transactions.

Context {P : Type} `{!Library P} `{!TimeText}.
Context (ver rev : string).

#[local] Arguments Join : simpl never.
#[local] Arguments marshal_db : simpl never.
#[local] Arguments getDBObj : simpl never.

(** Three attempts on a sentinel that stays held: each is logged, the
    clock moves by two delays, and the answer is [false]. *)
Lemma TryLockN_held (l : Lock) (w : World) :
  resolve w (lock_path l) ∈ locked w →
  fault w (OpTryLock (resolve w (lock_path l))) = None →
  Lock_TryLockN l 3 30 w =
    (mkWorld (files w) (locked w) (cells w) (cwd w) (now w + 30 + 30) (user_current w)
       (fault w)
       (trace w ++ [(OpTryLock (resolve w (lock_path l)), None);
                    (OpTryLock (resolve w (lock_path l)), None);
                    (OpTryLock (resolve w (lock_path l)), None)]),
     inr false).
Proof.
  intros Hin Hf. simpl. unfold Lock_TryLock. simpl.
  change (resolve (set_now _ (log _ _ w)) (lock_path l)) with (resolve w (lock_path l)).
  rewrite Hf. rewrite decide_True by done. simpl.
  change (resolve (set_now _ (log _ _ w)) (lock_path l)) with (resolve w (lock_path l)).
  rewrite Hf. rewrite decide_True by done. simpl.
  change (resolve (set_now _ (log _ _ (set_now _ (log _ _ w)))) (lock_path l))
    with (resolve w (lock_path l)).
  rewrite Hf. rewrite decide_True by done. simpl.
  unfold log, set_now. simpl. by rewrite <- !app_assoc.
Qed.

(** X1.  The first call of a committer returned by [Open], with nil: it
    writes nothing.  The only call made is the unlock; every file is as it
    was; the call returns nil unless the unlock fails, and then the error
    of the unlock under the context [release lock]; with a lock that is
    held and a release that does not fail, the sentinel is free. *)
Theorem commit_nil_closes (v0 t : P) (path : string) (w0 w1 w : World) (c : Committer) :
  Open v0 path w0 = (w1, (t, Ret (Some c, None))) →
  cells w !! c_done c = Some 0 →
  let lp := Join path DBLockFileName in
  ∃ w' u,
    commit ver rev c None w
      = (w', Ret ((λ m, Errorf "release lock" (SysErr (OpUnlock lp) m)) <$> u)) ∧
    files w' = files w ∧
    trace w' = trace w ++ [(OpUnlock lp, u)] ∧
    (fault w (OpUnlock lp) = None → lp ∈ locked w →
     u = None ∧ locked w' = locked w ∖ {[lp]}).
Proof.
  intros Hopen Hcell lp.
  apply Open_returns_committer in Hopen as (Habs & _ & -> & _ & _).
  simpl in Hcell. rewrite commit_first_call by done. cbv zeta.
  unfold commit_body, commit_deferred, Lock_Unlock. simpl.
  rewrite resolve_Join by done. fold lp.
  destruct (fault w (OpUnlock lp)) as [m|] eqn:Hf; simpl.
  { exists (log (OpUnlock lp) (Some m) (set_cells (<[length (cells w0):=1]> (cells w)) w)),
      (Some m). by repeat split. }
  destruct (decide (lp ∈ locked w)) as [Hin|Hout].
  - eexists _, None. simpl. repeat split; done.
  - eexists _, (Some "not locked"). simpl. repeat split; done.
Qed.

(** X2.  While a lock on the directory is held (as it is from a successful
    [Open] until its committer is called), [Open] on that directory, when
    the lock calls themselves do not fail, returns [ErrLockFailed] after
    three attempts; it hands out no committer and leaves the target, the
    files, the locks and the cells as they were. *)
Theorem Open_excluded_while_locked (v : P) (path : string) (w : World) :
  IsAbs path = true →
  Join path DBLockFileName ∈ locked w →
  fault w (OpLockNew (Join path DBLockFileName)) = None →
  fault w (OpTryLock (Join path DBLockFileName)) = None →
  let r := Open v path w in
  snd r = (v, Ret (None, Some ErrLockFailed)) ∧
  files (fst r) = files w ∧ locked (fst r) = locked w ∧ cells (fst r) = cells w ∧
  trace (fst r) = trace w ++ [(OpTryLock (Join path DBLockFileName), None);
                              (OpTryLock (Join path DBLockFileName), None);
                              (OpTryLock (Join path DBLockFileName), None)].
Proof.
  intros Habs Hin Hnew Htry r. subst r.
  rewrite Open_unfold by done.
  rewrite TryLockN_held; simpl; rewrite resolve_Join by done; done.
Qed.

(** X7.  [Read] only reads: whatever the path, the document and the
    failures injected, it leaves every file, every lock and every cell as
    it was, and calls nothing but open, read and close on the data path. *)
Theorem Read_is_read_only (t : P) (path : string) (w : World) :
  let q := resolve w (Join path DBFileName) in
  let w' := fst (Read t path w) in
  files w' = files w ∧ locked w' = locked w ∧ cells w' = cells w ∧
  ∃ delta, trace w' = trace w ++ delta ∧
           ∀ op r, (op, r) ∈ delta → op ∈ [OpOpen q; OpRead q; OpClose q].
Proof.
  intros q w'. subst w'. unfold Read, os_Open. fold q.
  destruct (fault w (OpOpen q)) as [m|].
  { simpl. repeat split. eexists [_]. split; [done|].
    intros op r Hin. set_unfold. destruct_or?; simplify_eq. auto. }
  destruct (files w !! q) as [f|].
  2:{ simpl. repeat split. eexists [_]. split; [done|].
      intros op r Hin. set_unfold. destruct_or?; simplify_eq. auto. }
  match goal with |- context [Decoder_Decode ?p ?m ?w0] =>
    destruct (Decoder_Decode_frame p m w0) as [u Hu];
    destruct (Decoder_Decode p m w0) as [w2 [m' [e|]]] end;
  simpl in Hu; subst w2; unfold file_Close; simpl;
  change (resolve (log _ _ (log _ _ w)) (Join path DBFileName)) with q;
  change (resolve (log _ _ w) (Join path DBFileName)) with q;
  (repeat split; eexists [_; _; _]; split; [by rewrite <- !app_assoc|];
   intros op r Hin; set_unfold; destruct_or?; simplify_eq; auto 10).
Qed.

(** X8.  [Open] never changes a file, on any path and under any failure.
    When it returns a committer it has taken a sentinel that was free: the
    world it leaves holds that lock and one new flag at zero, which is the
    committer's. *)
Theorem Open_changes_no_file (v : P) (path : string) (w : World) :
  files (fst (Open v path w)) = files w ∧
  ∀ t c err, snd (Open v path w) = (t, Ret (Some c, err)) →
    (Join path DBLockFileName ∉ locked w) ∧
    locked (fst (Open v path w)) = {[Join path DBLockFileName]} ∪ locked w ∧
    cells (fst (Open v path w)) = cells w ++ [0] ∧
    c_done c = length (cells w).
Proof.
  destruct (IsAbs path) eqn:Habs; [|by unfold Open; rewrite Habs].
  destruct (fault w (OpLockNew (Join path DBLockFileName))) as [m|] eqn:Hnew.
  { by rewrite (Open_lock_New_failure _ _ _ m). }
  rewrite Open_unfold by done.
  destruct (Lock_TryLockN _ 3 30 w) as [w2 [e|[|]]] eqn:Hlock;
    apply TryLockN_spec in Hlock as (Hfiles & Hcells & _ & _ & _ & Hlocked);
    [done| |done].
  simpl in Hlocked. rewrite resolve_Join in Hlocked by done.
  destruct Hlocked as [Hfree Hlocked].
  destruct (Open_locked v path _ w2) as [w3 [[t' c'] err']] eqn:Hbody.
  apply Open_locked_spec in Hbody as (Hf3 & Hl3 & _ & _ & Herr).
  destruct err' as [e|]; simpl.
  - destruct (Unlock_frame (mkLock (Join path DBLockFileName)) w3) as (u & _ & Hfu & _).
    split; [congruence|]. destruct Herr as (-> & _). by intros t c err [= _ ? ?].
  - split; [congruence|]. destruct Herr as [-> Hc3].
    intros t c err [= _ <- _]. simpl. split; [done|].
    rewrite Hl3, Hlocked, Hc3, Hcells. done.
Qed.

(** [Open] on a directory whose lock is free and whose document decodes,
    when no call fails. *)
Lemma Open_succeeds (t v : P) (path : string) (w : World) (fs : list (string * json))
    (s : bool) :
  IsAbs path = true →
  Join path DBLockFileName ∉ locked w →
  fault w (OpLockNew (Join path DBLockFileName)) = None →
  fault w (OpTryLock (Join path DBLockFileName)) = None →
  fault w (OpOpen (Join path DBFileName)) = None →
  fault w (OpRead (Join path DBFileName)) = None →
  files w !! Join path DBFileName = Some (mkFile (Some (JObj fs)) s) →
  decode_fields fs (mkMarshaler (Some t)) None = (mkMarshaler (Some v), None) →
  snd (Open t path w) =
    (v, Ret (Some (mkCommitter (mkLock (Join path DBLockFileName)) path
                     (Join path DBFileName) (length (cells w))), None)) ∧
  files (fst (Open t path w)) = files w ∧
  locked (fst (Open t path w)) = {[Join path DBLockFileName]} ∪ locked w ∧
  cells (fst (Open t path w)) = cells w ++ [0].
Proof.
  intros Habs Hfree Hnew Htry Hopen Hread Hfile Hdec.
  rewrite Open_unfold by done.
  simpl. unfold Lock_TryLock. simpl. rewrite resolve_Join by done.
  rewrite Htry. rewrite decide_False by done.
  unfold Open_locked, os_Open. simpl. rewrite resolve_Join by done.
  rewrite Hopen, Hfile.
  unfold Decoder_Decode, file_Read. simpl. rewrite resolve_Join by done.
  rewrite Hread, Hfile. simpl. rewrite Hdec. simpl. done.
Qed.

(** The cells a first call leaves: the flag of the committer is taken,
    nothing else changes. *)
Lemma commit_cells (c : Committer) (v : option P) (w : World) :
  cells w !! c_done c = Some 0 →
  cells (fst (commit ver rev c v w)) = <[c_done c := 1]> (cells w).
Proof.
  intros Hcell. rewrite commit_first_call by done. cbv zeta.
  set (w1' := set_cells _ w).
  pose proof (commit_body_frame ver rev c v w1') as (Hc2 & _).
  destruct (commit_body ver rev c v w1') as [w2 err]. simpl in Hc2.
  unfold commit_deferred.
  destruct (Unlock_frame (c_lock c) w2) as (u & _ & _ & Hc3).
  destruct (Lock_Unlock (c_lock c) w2) as [w3 err2]. simpl in Hc3.
  destruct err2, err; simpl; by rewrite Hc3, Hc2.
Qed.

(** X3.  A transaction and a read.  For a committer returned by [Open],
    called for the first time with a value that the payload codec takes and
    gives back, when no step of the write path fails: in every later world
    that still holds the document the call left, [Read], unless its open or
    read fails, returns nil and fills the target with that value. *)
Theorem commit_then_Read (v0 t0 t v : P) (path : string) (w0 w1 w : World)
    (c : Committer) (payload : json) :
  Open v0 path w0 = (w1, (t0, Ret (Some c, None))) →
  cells w !! c_done c = Some 0 →
  ¬ write_path_fails path v w →
  json_Marshal v = inr payload →
  json_Unmarshal payload t = (v, None) →
  is_Some (parse_time (format_time (now w))) →
  let dbp := Join path DBFileName in
  ∀ w2, files w2 !! dbp = files (fst (commit ver rev c (Some v) w)) !! dbp →
        fault w2 (OpOpen dbp) = None → fault w2 (OpRead dbp) = None →
        snd (Read t path w2) = (v, None).
Proof.
  intros Hopen Hcell Hok Hm Hun Htime dbp w2 Hw2 Hfo Hfr.
  apply Open_returns_committer in Hopen as (Habs & _ & -> & _ & _).
  destruct (commit_value_run ver rev path (length (cells w0)) v w Habs Hcell)
    as (w2' & err & w3 & err2 & delta & u & Hrun & _ & _ & _ & Herr & _ & Hfiles3 & _).
  rewrite Hrun in Hw2. simpl in Hw2.
  destruct err as [e|]; [by destruct Herr as [Hbad _]|].
  destruct Herr as (_ & payload' & Hpayload & Hfiles2).
  assert (payload' = payload) as -> by congruence.
  rewrite Hfiles3, Hfiles2 in Hw2. fold dbp in Hw2. rewrite lookup_insert_eq in Hw2.
  destruct (decode_envelope ver rev w payload t v Hun Htime) as (fs & Henv & Hdec).
  rewrite Henv in Hw2.
  rewrite (Read_object t path w2 fs true) by done. by rewrite Hdec.
Qed.

(** X4.  One transaction after another.  After such a first call, made with
    the lock held and released without failure, [Open] on the directory,
    when none of its calls fails, succeeds again: the target holds the
    value committed, the lock is held again, and the new committer has a
    flag of its own at zero while the flag of the old one stays taken. *)
Theorem commit_then_Open (v0 t0 t v : P) (path : string) (w0 w1 w : World)
    (c : Committer) (payload : json) :
  Open v0 path w0 = (w1, (t0, Ret (Some c, None))) →
  cells w !! c_done c = Some 0 →
  ¬ write_path_fails path v w →
  json_Marshal v = inr payload →
  json_Unmarshal payload t = (v, None) →
  is_Some (parse_time (format_time (now w))) →
  let dbp := Join path DBFileName in
  let lp := Join path DBLockFileName in
  lp ∈ locked w →
  fault w (OpUnlock lp) = None → fault w (OpLockNew lp) = None →
  fault w (OpTryLock lp) = None → fault w (OpOpen dbp) = None →
  fault w (OpRead dbp) = None →
  let w' := fst (commit ver rev c (Some v) w) in
  ∃ c2, snd (Open t path w') = (v, Ret (Some c2, None)) ∧
        c_done c2 ≠ c_done c ∧
        cells (fst (Open t path w')) !! c_done c2 = Some 0 ∧
        cells (fst (Open t path w')) !! c_done c = Some 1 ∧
        lp ∈ locked (fst (Open t path w')).
Proof.
  intros Hopen Hcell Hok Hm Hun Htime dbp lp Hin Hfu Hfn Hft Hfo Hfr w'.
  pose proof (commit_cells c (Some v) w Hcell) as Hcells. fold w' in Hcells.
  pose proof (lookup_lt_Some _ _ _ Hcell) as Hlt.
  apply Open_returns_committer in Hopen as (Habs & _ & -> & _ & _).
  simpl in Hcell, Hcells, Hlt.
  destruct (commit_value_run ver rev path (length (cells w0)) v w Habs Hcell)
    as (w2' & err & w3 & err2 & delta & u & Hrun & _ & _ & _ & Herr & _ & Hfiles3 & Hunl).
  assert (Hw' : w' = w3) by (subst w'; by rewrite Hrun).
  fold dbp lp in Herr, Hunl.
  destruct err as [e|]; [by destruct Herr as [Hbad _]|].
  destruct Herr as (_ & payload' & Hpayload & Hfiles2).
  assert (payload' = payload) as -> by congruence.
  destruct (Hunl Hfu Hin) as [-> Hlocked].
  assert (Hfault : fault w' = fault w).
  { subst w'. rewrite commit_first_call by done. cbv zeta.
    unfold commit_body, commit_deferred.
    set (w1' := set_cells _ w).
    pose proof (commit_write_frame ver rev
      (mkCommitter (mkLock lp) path dbp (length (cells w0))) v w1') as (_ & _ & Hf & _).
    destruct (commit_write _ _ _ v w1') as [wa ea]. simpl in Hf.
    unfold Lock_Unlock. simpl. destruct (fault wa _); [|destruct (decide _)];
      by destruct ea. }
  destruct (decode_envelope ver rev w payload t v Hun Htime) as (fs & Henv & Hdec).
  destruct (Open_succeeds t v path w' fs true) as (Hres & _ & Hl & Hc); try done.
  - rewrite Hw', Hlocked. set_solver.
  - by rewrite Hfault.
  - by rewrite Hfault.
  - by rewrite Hfault.
  - by rewrite Hfault.
  - rewrite Hw', Hfiles3, Hfiles2, <- Henv. apply lookup_insert_eq.
  - eexists. split; [exact Hres|]. simpl. rewrite Hc, Hl, Hcells.
    rewrite length_insert.
    split; [lia|]. split.
    { rewrite lookup_app_r by (rewrite length_insert; lia).
      by rewrite length_insert, Nat.sub_diag. }
    split; [|set_solver].
    rewrite lookup_app_l by (rewrite length_insert; lia).
    by apply list_lookup_insert_eq.
Qed.

(** X5.  The flags of two committers are two cells.  When a second [Open]
    runs in a world that has kept the cells of the first, the committers
    differ in their flag, and a first call of the one leaves the other's
    first call a first call: it returns, it does not panic. *)
Theorem committers_have_own_flags (v1 t1 v2 t2 : P) (p1 p2 : string)
    (w0 w1 w1' w2 : World) (c1 c2 : Committer) :
  Open v1 p1 w0 = (w1, (t1, Ret (Some c1, None))) →
  Open v2 p2 w1' = (w2, (t2, Ret (Some c2, None))) →
  (length (cells w1) ≤ length (cells w1'))%nat →
  c_done c1 ≠ c_done c2 ∧
  ∀ (w : World) (a b : option P),
    cells w !! c_done c1 = Some 0 → cells w !! c_done c2 = Some 0 →
    (∃ e1, snd (commit ver rev c1 a w) = Ret e1) ∧
    (∃ e2, snd (commit ver rev c2 b (fst (commit ver rev c1 a w))) = Ret e2).
Proof.
  intros H1 H2 Hlen.
  apply Open_returns_committer in H1 as (_ & _ & Hc1 & Hcells1 & _).
  apply Open_returns_committer in H2 as (_ & _ & Hc2 & _ & _).
  assert (Hne : c_done c1 ≠ c_done c2).
  { subst c1 c2. simpl. rewrite Hcells1, length_app in Hlen. simpl in Hlen. lia. }
  split; [done|]. intros w a b Hz1 Hz2.
  pose proof (commit_cells c1 a w Hz1) as Hcells.
  assert (Hz2' : cells (fst (commit ver rev c1 a w)) !! c_done c2 = Some 0).
  { rewrite Hcells. by rewrite list_lookup_insert_ne. }
  split.
  - rewrite commit_first_call by done. cbv zeta.
    destruct (commit_body _ _ _ _ _) as [wa ea].
    destruct (commit_deferred _ _ _) as [wb eb]. by eexists.
  - rewrite (commit_first_call ver rev c2 b _ Hz2'). cbv zeta.
    destruct (commit_body _ _ _ _ _) as [wa ea].
    destruct (commit_deferred _ _ _) as [wb eb]. by eexists.
Qed.

(** On absolute paths the calls of the write path do the same whatever the
    working directory is. *)
Lemma os_Create_cwd (p d : string) (w : World) :
  IsAbs p = true →
  os_Create p (set_cwd d w) = (set_cwd d (fst (os_Create p w)), snd (os_Create p w)).
Proof.
  intros Habs. unfold os_Create. rewrite !resolve_abs by done. simpl.
  by destruct (fault w _).
Qed.

Lemma Encoder_Encode_cwd (p d : string) (x : db) (w : World) :
  IsAbs p = true →
  Encoder_Encode p x (set_cwd d w)
    = (set_cwd d (fst (Encoder_Encode p x w)), snd (Encoder_Encode p x w)).
Proof.
  intros Habs. unfold Encoder_Encode, file_Write. rewrite !resolve_abs by done. simpl.
  destruct (marshal_db x); [done|]. by destruct (fault w _).
Qed.

Lemma file_Sync_cwd (p d : string) (w : World) :
  IsAbs p = true →
  file_Sync p (set_cwd d w) = (set_cwd d (fst (file_Sync p w)), snd (file_Sync p w)).
Proof.
  intros Habs. unfold file_Sync. rewrite !resolve_abs by done. simpl.
  by destruct (fault w _).
Qed.

Lemma os_Rename_cwd (p q d : string) (w : World) :
  IsAbs p = true → IsAbs q = true →
  os_Rename p q (set_cwd d w)
    = (set_cwd d (fst (os_Rename p q w)), snd (os_Rename p q w)).
Proof.
  intros Hp Hq. unfold os_Rename. rewrite !resolve_abs by done. simpl.
  destruct (fault w _); [done|]. by destruct (files w !! p).
Qed.

Lemma file_Close_cwd (p d : string) (w : World) :
  IsAbs p = true → file_Close p (set_cwd d w) = set_cwd d (file_Close p w).
Proof. intros Habs. unfold file_Close. by rewrite !resolve_abs by done. Qed.

Lemma Lock_Unlock_cwd (l : Lock) (d : string) (w : World) :
  IsAbs (lock_path l) = true →
  Lock_Unlock l (set_cwd d w)
    = (set_cwd d (fst (Lock_Unlock l w)), snd (Lock_Unlock l w)).
Proof.
  intros Habs. unfold Lock_Unlock. rewrite !resolve_abs by done. simpl.
  destruct (fault w _); [done|]. by destruct (decide _).
Qed.

Lemma commit_write_cwd (c : Committer) (v : P) (d : string) (w : World) :
  IsAbs (c_path c) = true → IsAbs (c_dbpath c) = true →
  commit_write ver rev c v (set_cwd d w)
    = (set_cwd d (fst (commit_write ver rev c v w)), snd (commit_write ver rev c v w)).
Proof.
  intros Hp Hq. unfold commit_write.
  pose proof (IsAbs_Join (c_path c) DBTempFileName Hp) as Htmp.
  rewrite os_Create_cwd by done.
  destruct (os_Create _ w) as [wa [e|]]; simpl; [done|].
  change (getDBObj ver rev (Some v) (set_cwd d wa)) with (getDBObj ver rev (Some v) wa).
  rewrite Encoder_Encode_cwd by done.
  destruct (Encoder_Encode _ _ wa) as [wb [e|]]; simpl; [by rewrite file_Close_cwd|].
  rewrite file_Sync_cwd by done.
  destruct (file_Sync _ wb) as [wc [e|]]; simpl; [by rewrite file_Close_cwd|].
  rewrite os_Rename_cwd by done.
  destruct (os_Rename _ _ wc) as [wd [e|]]; simpl; by rewrite file_Close_cwd.
Qed.

(** X6.  A committer returned by [Open] does not depend on the working
    directory it is called in: called after a change of directory it
    returns the same result and leaves the same files, locks, cells and
    log.  (This is what the absolute path is required for.) *)
Theorem commit_ignores_cwd (v0 t : P) (path : string) (w0 w1 : World) (c : Committer)
    (v : option P) (w : World) (d : string) :
  Open v0 path w0 = (w1, (t, Ret (Some c, None))) →
  commit ver rev c v (set_cwd d w)
    = (set_cwd d (fst (commit ver rev c v w)), snd (commit ver rev c v w)).
Proof.
  intros Hopen.
  apply Open_returns_committer in Hopen as (Habs & _ & -> & _ & _).
  set (c := mkCommitter _ _ _ _).
  assert (Hp : IsAbs (c_path c) = true) by done.
  assert (Hq : IsAbs (c_dbpath c) = true) by (by apply IsAbs_Join).
  assert (Hl : IsAbs (lock_path (c_lock c)) = true) by (by apply IsAbs_Join).
  unfold commit, CompareAndSwapUint32.
  change (cells (set_cwd d w)) with (cells w).
  destruct (cells w !! c_done c) as [x|]; [|done].
  destruct (decide (x = 0)); [|done].
  change (set_cells (<[c_done c:=1]> (cells w)) (set_cwd d w))
    with (set_cwd d (set_cells (<[c_done c:=1]> (cells w)) w)).
  set (wa := set_cells _ w).
  assert (Hbody : commit_body ver rev c v (set_cwd d wa)
                  = (set_cwd d (fst (commit_body ver rev c v wa)),
                     snd (commit_body ver rev c v wa))).
  { destruct v as [p|]; [by apply commit_write_cwd|done]. }
  rewrite Hbody. destruct (commit_body ver rev c v wa) as [wb eb]. simpl.
  unfold commit_deferred. rewrite Lock_Unlock_cwd by done.
  destruct (Lock_Unlock (c_lock c) wb) as [wc [e2|]]; by destruct eb.
Qed.

(** X9.  [Init] is not atomic.  On a directory that holds a database, with
    a value that [json.Marshal] refuses, once the create succeeds: [Init]
    returns the error under the context [marshal to file], and the live
    document is left empty, the old one lost.  In every later world that
    still holds that file, [Read], unless its open or read fails, fails
    with [unmarshal from file: EOF] and leaves its target alone. *)
Theorem Init_marshal_failure_truncates (p t : P) (path : string) (w : World)
    (old : File) (e : error) :
  IsAbs path = true →
  files w !! Join path DBFileName = Some old →
  fault w (OpCreate (Join path DBFileName)) = None →
  json_Marshal p = inl e →
  let dbp := Join path DBFileName in
  let w' := fst (Init ver rev (Some p) path w) in
  snd (Init ver rev (Some p) path w) = Some (Errorf "marshal to file" e) ∧
  files w' !! dbp = Some (mkFile None false) ∧
  ∀ w2, files w2 !! dbp = files w' !! dbp →
        fault w2 (OpOpen dbp) = None → fault w2 (OpRead dbp) = None →
        snd (Read t path w2) = (t, Some (Errorf "unmarshal from file" (JsonErr "EOF"))).
Proof.
  intros Habs _ Hcreate Hm dbp w'.
  assert (Hrun : snd (Init ver rev (Some p) path w) = Some (Errorf "marshal to file" e) ∧
                 files w' !! dbp = Some (mkFile None false)).
  { subst w'. unfold Init, os_Create, Encoder_Encode, file_Close.
    rewrite Habs. simpl. rewrite !resolve_Join by done.
    rewrite Hcreate. rewrite marshal_db_getDBObj_any.
    change (marshaler_MarshalJSON (mkMarshaler (Some p))) with (json_Marshal p).
    rewrite Hm. simpl.
    split; [done|]. apply lookup_insert_eq. }
  destruct Hrun as [Herr Hfile]. split; [done|]. split; [done|].
  intros w2 Hw2 Hfo Hfr. rewrite Hfile in Hw2.
  unfold dbp in *.
  unfold Read, os_Open. rewrite resolve_Join by done. rewrite Hfo, Hw2.
  unfold Decoder_Decode, file_Read. rewrite resolve_Join by done.
  simpl. rewrite Hfr, Hw2. done.
Qed.

(** [Init] injects no failure and touches no cell. *)
Lemma Init_frame (v : option P) (path : string) (w : World) :
  fault (fst (Init ver rev v path w)) = fault w ∧
  cells (fst (Init ver rev v path w)) = cells w.
Proof.
  unfold Init, os_Create, Encoder_Encode, file_Write, file_Sync, file_Close.
  destruct (IsAbs path); simpl; [|done].
  destruct (fault w _); [done|]. simpl.
  destruct (marshal_db _); [done|]. simpl.
  destruct (fault w _); [done|]. simpl. by destruct (fault w _).
Qed.

(** X10.  [Init] and then [Open].  For a value that the payload codec takes
    and gives back, on an absolute directory whose lock is free, when no
    call fails: after [Init], [Open] returns a committer, its target holds
    the value, the lock is held and no file has changed since [Init]. *)
Theorem Init_then_Open (v t : P) (path : string) (w : World) (payload : json) :
  IsAbs path = true →
  json_Marshal v = inr payload →
  json_Unmarshal payload t = (v, None) →
  is_Some (parse_time (format_time (now w))) →
  let dbp := Join path DBFileName in
  let lp := Join path DBLockFileName in
  lp ∉ locked w →
  fault w (OpCreate dbp) = None → fault w (OpWrite dbp) = None →
  fault w (OpSync dbp) = None → fault w (OpLockNew lp) = None →
  fault w (OpTryLock lp) = None → fault w (OpOpen dbp) = None →
  fault w (OpRead dbp) = None →
  let w1 := fst (Init ver rev (Some v) path w) in
  ∃ c, snd (Open t path w1) = (v, Ret (Some c, None)) ∧
       c_path c = path ∧
       cells (fst (Open t path w1)) !! c_done c = Some 0 ∧
       lp ∈ locked (fst (Open t path w1)) ∧
       files (fst (Open t path w1)) = files w1.
Proof.
  intros Habs Hm Hun Htime dbp lp Hfree Hfc Hfw Hfs Hfn Hft Hfo Hfr w1.
  destruct (Init_spec ver rev (Some v) path w Habs) as (Hlocked & _ & _ & _ & Hok).
  destruct (Hok Hfc Hfw Hfs payload Hm) as [_ Hfile].
  fold dbp w1 in Hfile, Hlocked.
  assert (Hfault : fault w1 = fault w) by apply Init_frame.
  destruct (decode_envelope ver rev w payload t v Hun Htime) as (fs & Henv & Hdec).
  rewrite Henv in Hfile.
  destruct (Open_succeeds t v path w1 fs true) as (Hres & Hf & Hl & Hc);
    rewrite ?Hfault, ?Hlocked; try done.
  eexists. split; [exact Hres|]. simpl. split; [done|].
  rewrite Hc, Hl. split; [by rewrite lookup_app_r, Nat.sub_diag by lia|].
  split; [set_solver|done].
Qed.

End Transactions.

(** * The validation of assignment files *)

Module AssignmentProofs.
Import AssignmentParse.

Section Validation.
Context {E : Type} (ValidateCode : string → option E).

Abbreviation R := (@R E).

Lemma all_nodes_cons (p : parseableProblem) (ps : list parseableProblem) :
  all_nodes (p :: ps) = p :: all_nodes (pp_Subproblems p) ++ all_nodes ps.
Proof. unfold all_nodes. simpl. by destruct p. Qed.

Lemma tree_codes_cons (p : parseableProblem) (ps : list parseableProblem) (c : string) :
  pp_Code p = Some c →
  tree_codes (p :: ps) = c :: tree_codes (pp_Subproblems p) ++ tree_codes ps.
Proof.
  intros Hc. unfold tree_codes. rewrite all_nodes_cons. simpl. rewrite Hc.
  by rewrite omap_app.
Qed.

Lemma for_range_cons {A S : Type} (body : S → A → R S) (a : A) (l : list A) (s : S) :
  for_range body (a :: l) s = bindR (body s a) (for_range body l).
Proof. reflexivity. Qed.

Lemma walkTree_problem_eq (seen : gset string) (p : parseableProblem) :
  walkTree_problem ValidateCode seen p =
    match pp_Code p with
    | None => fail ProblemsMustHaveCodes
    | Some c =>
        match ValidateCode c with
        | Some err => fail (BadProblemCode c err)
        | None =>
            if bool_decide (c ∈ seen) then fail (DuplicateProblemCode c)
            else for_range (walkTree_problem ValidateCode) (pp_Subproblems p) ({[c]} ∪ seen)
        end
    end.
Proof. destruct p as [[c|] n r pts subs]; reflexivity. Qed.

Lemma all_nodes_nil : all_nodes [] = [].
Proof. reflexivity. Qed.

Lemma all_nodes_single (p : parseableProblem) :
  all_nodes [p] = p :: all_nodes (pp_Subproblems p).
Proof. rewrite all_nodes_cons, all_nodes_nil. by rewrite app_nil_r. Qed.

Lemma tree_codes_single (p : parseableProblem) (c : string) :
  pp_Code p = Some c → tree_codes [p] = c :: tree_codes (pp_Subproblems p).
Proof.
  intros Hc. rewrite (tree_codes_cons _ _ c Hc).
  change (tree_codes []) with (@nil string). by rewrite app_nil_r.
Qed.

(** A tree walk accepts a slice when it accepts its first problem and then
    the rest. *)
Lemma walked_cons (p : parseableProblem) (ps : list parseableProblem)
    (seen seen' : gset string) :
  walked ValidateCode (p :: ps) seen seen' ↔
  ∃ s1, walked ValidateCode [p] seen s1 ∧ walked ValidateCode ps s1 seen'.
Proof.
  unfold walked. rewrite (all_nodes_cons p ps), (all_nodes_single p). split.
  - intros (Hall & Hnd & Hfresh & ->).
    apply Forall_cons in Hall as [[c [Hc Hv]] Hall].
    apply Forall_app in Hall as [Hsub Hrest].
    rewrite (tree_codes_cons p ps c Hc) in Hnd, Hfresh.
    rewrite (tree_codes_cons p ps c Hc), (tree_codes_single p c Hc).
    apply NoDup_cons in Hnd as [Hnin Hnd].
    apply NoDup_app in Hnd as (Hnd1 & Hdisj & Hnd2).
    eexists. split; split_and!; try done.
    + constructor; [by exists c|done].
    + apply NoDup_cons. split; [set_solver|done].
    + intros x Hx. apply Hfresh. set_solver.
    + intros x Hx. rewrite elem_of_union, elem_of_list_to_set.
      intros [Hx'|Hx'].
      * apply elem_of_cons in Hx' as [->|Hx']; [apply Hnin; set_solver|].
        by apply (Hdisj x).
      * apply (Hfresh x); set_solver.
    + rewrite !list_to_set_cons, !list_to_set_app_L. set_solver.
  - intros (s1 & (Hall1 & Hnd1 & Hfresh1 & ->) & (Hall & Hnd & Hfresh & ->)).
    apply Forall_cons in Hall1 as [[c [Hc Hv]] Hsub].
    rewrite (tree_codes_single p c Hc) in Hnd1, Hfresh1, Hfresh.
    rewrite (tree_codes_cons p ps c Hc), (tree_codes_single p c Hc).
    apply NoDup_cons in Hnd1 as [Hnin1 Hnd1].
    split_and!.
    + constructor; [by exists c|]. by apply Forall_app.
    + apply NoDup_cons. split.
      * rewrite elem_of_app. intros [?|Hin]; [done|]. apply Hfresh in Hin. set_solver.
      * apply NoDup_app. split_and!; [done| |done].
        intros x Hx Hx'. apply Hfresh in Hx'. set_solver.
    + intros x Hx. apply elem_of_cons in Hx as [->|Hx].
      * apply Hfresh1. set_solver.
      * apply elem_of_app in Hx as [Hx|Hx]; [apply Hfresh1; set_solver|].
        apply Hfresh in Hx. set_solver.
    + rewrite !list_to_set_cons, !list_to_set_app_L. set_solver.
Qed.

Lemma walked_nil (seen seen' : gset string) : walked ValidateCode [] seen seen' ↔ seen' = seen.
Proof.
  unfold walked, tree_codes. rewrite all_nodes_nil. simpl. split.
  - intros (_ & _ & _ & ->). set_solver.
  - intros ->. split_and!; [constructor|constructor|set_solver|set_solver].
Qed.

(** The first walk over a slice, from what it does on each problem. *)
Lemma walkTree_list_spec (ps : list parseableProblem) :
  Forall (fun p => ∀ seen,
            (∃ r, walkTree_problem ValidateCode seen p = Ret r) ∧
            ∀ seen', walkTree_problem ValidateCode seen p = ok seen' ↔ walked ValidateCode [p] seen seen') ps →
  ∀ seen,
    (∃ r, for_range (walkTree_problem ValidateCode) ps seen = Ret r) ∧
    ∀ seen', for_range (walkTree_problem ValidateCode) ps seen = ok seen' ↔ walked ValidateCode ps seen seen'.
Proof.
  induction 1 as [|p ps Hp Hps IH]; intros seen.
  { split; [by eexists|]. intros seen'. rewrite walked_nil. simpl. unfold ok.
    split; [by intros [= <-]|by intros ->]. }
  rewrite for_range_cons. destruct (Hp seen) as [[r Hr] Hiff].
  split.
  { rewrite Hr. destruct r as [e|s1]; [by eexists|]. apply IH. }
  intros seen'. rewrite Hr, walked_cons. destruct r as [e|s1]; simpl.
  - split; [done|]. intros (s1 & Hw & _). apply Hiff in Hw. by rewrite Hr in Hw.
  - destruct (IH s1) as [_ IHiff]. rewrite IHiff. split.
    + intros Hw. exists s1. split; [by apply Hiff|done].
    + intros (s1' & Hw1 & Hw). apply Hiff in Hw1. rewrite Hr in Hw1.
      injection Hw1 as <-. done.
Qed.

(** The first walk, on one problem: it never panics, and it accepts exactly
    the trees whose problems all have an accepted code, no code twice and
    none seen before. *)
Lemma walkTree_problem_spec (p : parseableProblem) :
  ∀ seen,
    (∃ r, walkTree_problem ValidateCode seen p = Ret r) ∧
    ∀ seen', walkTree_problem ValidateCode seen p = ok seen' ↔ walked ValidateCode [p] seen seen'.
Proof.
  induction p as [c n r pts subs IH] using parseableProblem_nested_ind.
  intros seen. rewrite walkTree_problem_eq. simpl.
  unfold walked. rewrite all_nodes_single. simpl.
  destruct c as [c|].
  2:{ split; [by eexists|]. intros seen'. split; [done|].
      intros (Hall & _). apply Forall_cons in Hall as [[c [[=] _]] _]. }
  rewrite (tree_codes_single (mkParseableProblem (Some c) n r pts subs) c eq_refl). simpl.
  destruct (ValidateCode c) as [e|] eqn:Hv.
  { split; [by eexists|]. intros seen'. split; [done|].
    intros (Hall & _). apply Forall_cons in Hall as [[c' [[= <-] Hv']] _]. congruence. }
  destruct (bool_decide (c ∈ seen)) eqn:Hseen.
  { apply bool_decide_eq_true in Hseen. split; [by eexists|]. intros seen'.
    split; [done|]. intros (_ & _ & Hfresh & _). exfalso. apply (Hfresh c); set_solver. }
  apply bool_decide_eq_false in Hseen.
  destruct (walkTree_list_spec subs IH ({[c]} ∪ seen)) as [Hret Hiff].
  split; [done|]. intros seen'. rewrite Hiff. unfold walked. split.
  - intros (Hall & Hnd & Hfresh & ->). split_and!.
    + constructor; [by exists c|done].
    + apply NoDup_cons. split; [|done]. intros Hin. apply Hfresh in Hin. set_solver.
    + intros x Hx. apply elem_of_cons in Hx as [->|Hx]; [done|].
      apply Hfresh in Hx. set_solver.
    + rewrite ?list_to_set_cons. set_solver.
  - intros (Hall & Hnd & Hfresh & ->).
    apply Forall_cons in Hall as [_ Hall]. apply NoDup_cons in Hnd as [Hnin Hnd].
    split_and!; [done|done| |].
    + intros x Hx. rewrite elem_of_union, elem_of_singleton. intros [->|Hx']; [done|].
      apply (Hfresh x); set_solver.
    + rewrite ?list_to_set_cons. set_solver.
Qed.

(** The first walk of [validateProblemTree]. *)
Lemma walkTree_spec (ps : list parseableProblem) (seen : gset string) :
  (∃ r, walkTree ValidateCode ps seen = Ret r) ∧
  ∀ seen', walkTree ValidateCode ps seen = ok seen' ↔ walked ValidateCode ps seen seen'.
Proof.
  apply walkTree_list_spec. apply Forall_forall. intros p _. apply walkTree_problem_spec.
Qed.

(** ** The second walk: points *)

Lemma all_nodes_cons_nodes (p : parseableProblem) (ps : list parseableProblem) :
  all_nodes (p :: ps) = nodes p ++ all_nodes ps.
Proof. reflexivity. Qed.

Lemma nodes_eq (p : parseableProblem) : nodes p = p :: all_nodes (pp_Subproblems p).
Proof. by destruct p. Qed.

Lemma walkTreePoints_problem_eq (sum : float) (p : parseableProblem) :
  walkTreePoints_problem sum p =
    match pp_Points p with
    | None => bindR (lift (deref (pp_Code p))) (fun c => fail (ProblemMustHavePoints c))
    | Some x =>
        match pp_Subproblems p with
        | [] => ok (sum + x)%float
        | _ :: _ =>
            bindR (for_range (@walkTreePoints_problem E) (pp_Subproblems p) 0%float)
              (fun subSum =>
                 if negb (subSum =? x)%float then
                   bindR (lift (deref (pp_Code p))) (fun c => fail (PointsNotSum c))
                 else ok (sum + x)%float)
        end
    end.
Proof. destruct p as [c n r [x|] subs]; reflexivity. Qed.

Lemma walkTreePoints_list_spec (ps : list parseableProblem) :
  Forall (fun p => ∀ s,
            (Forall has_code (nodes p) → ∃ r, @walkTreePoints_problem E s p = Ret r) ∧
            ∀ s', @walkTreePoints_problem E s p = ok s' ↔
                  Forall points_add_up (nodes p) ∧
                  s' = (s + default 0%float (pp_Points p))%float) ps →
  ∀ s,
    (Forall has_code (all_nodes ps) →
     ∃ r, for_range (@walkTreePoints_problem E) ps s = Ret r) ∧
    ∀ s', for_range (@walkTreePoints_problem E) ps s = ok s' ↔
          Forall points_add_up (all_nodes ps) ∧
          s' = fold_left (fun s q => (s + default 0%float (pp_Points q))%float) ps s.
Proof.
  induction 1 as [|p ps Hp Hps IH]; intros s.
  { split; [by eexists|]. intros s'. simpl. unfold ok. split.
    - intros [= <-]. by split; [constructor|].
    - by intros [_ ->]. }
  rewrite for_range_cons, all_nodes_cons_nodes. destruct (Hp s) as [Hret Hiff].
  split.
  - intros [Hc1 Hc2]%Forall_app. destruct (Hret Hc1) as [[e|s1] Hr]; rewrite Hr; simpl.
    + by eexists.
    + by apply IH.
  - intros s'. rewrite Forall_app. simpl.
    destruct (walkTreePoints_problem s p) as [[e|s1]|x] eqn:Hr; simpl.
    + split; [done|]. intros [[Hp1 _] _].
      assert (Ret (inl e) = ok (s + default 0%float (pp_Points p))%float) as Habs
        by (by apply Hiff). done.
    + destruct (IH s1) as [_ IHiff]. rewrite IHiff.
      assert (Forall points_add_up (nodes p) ∧
              s1 = (s + default 0%float (pp_Points p))%float) as [Hp1 ->]
        by (by apply Hiff).
      naive_solver.
    + split; [done|]. intros [[Hp1 _] _].
      assert (Panic x = ok (s + default 0%float (pp_Points p))%float) as Habs
        by (by apply Hiff). done.
Qed.

Lemma walkTreePoints_problem_spec (p : parseableProblem) :
  ∀ s,
    (Forall has_code (nodes p) → ∃ r, @walkTreePoints_problem E s p = Ret r) ∧
    ∀ s', @walkTreePoints_problem E s p = ok s' ↔
          Forall points_add_up (nodes p) ∧
          s' = (s + default 0%float (pp_Points p))%float.
Proof.
  induction p as [c n r pts subs IH] using parseableProblem_nested_ind.
  intros s. rewrite walkTreePoints_problem_eq, nodes_eq. simpl.
  destruct pts as [x|].
  2:{ split.
      - intros [[c' Hc] _]%Forall_cons. simpl in Hc. subst c. by eexists.
      - intros s'. split.
        + destruct c; simpl; done.
        + intros [[[x [[=] _]] _]%Forall_cons _]. }
  destruct subs as [|q qs].
  { split; [by eexists|]. intros s'. unfold ok. split.
    - intros [= <-]. split; [|done]. constructor; [|constructor].
      exists x. by split.
    - by intros [_ ->]. }
  destruct (walkTreePoints_list_spec (q :: qs) IH 0%float) as [Hret Hiff].
  split.
  - intros [[c' Hc] Hsub]%Forall_cons. simpl in Hc. subst c.
    destruct (Hret Hsub) as [[e|s1] ->]; simpl; [by eexists|].
    destruct (negb _); by eexists.
  - intros s'. rewrite Forall_cons.
    destruct (for_range walkTreePoints_problem (q :: qs) 0%float) as [[e|s1]|px] eqn:Hr.
    + simpl. split; [done|]. intros [[_ Hsub] _].
      assert (Ret (inl e) = ok (sum_points (q :: qs))) as Habs by (by apply Hiff). done.
    + assert (Forall points_add_up (all_nodes (q :: qs)) ∧ s1 = sum_points (q :: qs))
        as [Hsub ->] by (by apply Hiff).
      simpl. destruct (sum_points (q :: qs) =? x)%float eqn:Heq; simpl.
      * unfold ok. split.
        -- intros [= <-]. split; [|done]. split; [|done]. exists x. by split.
        -- by intros [_ ->].
      * split.
        -- destruct c; simpl; done.
        -- intros [[(x' & [= <-] & Hsum) _] _]. simpl in Hsum.
           rewrite Hsum in Heq; done.
    + simpl. split; [done|]. intros [[_ Hsub] _].
      assert (Panic px = ok (sum_points (q :: qs))) as Habs by (by apply Hiff). done.
Qed.

Lemma walkTreePoints_spec (ps : list parseableProblem) :
  (Forall has_code (all_nodes ps) → ∃ r, @walkTreePoints E ps = Ret r) ∧
  ∀ s', @walkTreePoints E ps = ok s' ↔
        Forall points_add_up (all_nodes ps) ∧ s' = sum_points ps.
Proof.
  apply walkTreePoints_list_spec. apply Forall_forall. intros p _.
  apply walkTreePoints_problem_spec.
Qed.

Lemma well_coded_has_code (p : parseableProblem) : well_coded ValidateCode p → has_code p.
Proof. intros (c & Hc & _). by exists c. Qed.

(** [validateProblemTree] returns. *)
Lemma validateProblemTree_Ret (problems : list parseableProblem) :
  ∃ r, validateProblemTree ValidateCode problems = Ret r.
Proof.
  unfold validateProblemTree. destruct problems as [|p ps]; [by eexists|].
  destruct (walkTree_spec (p :: ps) ∅) as [[[e|s1] Hr] Hiff]; rewrite Hr; simpl.
  { by eexists. }
  apply Hiff in Hr as (Hall & _).
  destruct (walkTreePoints_spec (p :: ps)) as [Hret _].
  destruct Hret as [[e|s2] ->]; simpl; [|by eexists..].
  eapply Forall_impl; [done|]. apply well_coded_has_code.
Qed.

(** What [validateProblemTree] accepts. *)
Lemma validateProblemTree_iff (problems : list parseableProblem) :
  validateProblemTree ValidateCode problems = ok tt ↔
  problems ≠ [] ∧
  Forall (well_coded ValidateCode) (all_nodes problems) ∧
  NoDup (tree_codes problems) ∧
  Forall points_add_up (all_nodes problems).
Proof.
  unfold validateProblemTree. destruct problems as [|p ps].
  { split; [done|]. by intros [? _]. }
  destruct (walkTree_spec (p :: ps) ∅) as [_ Hiff].
  destruct (walkTreePoints_spec (p :: ps)) as [_ Hpts].
  destruct (walkTree ValidateCode (p :: ps) ∅) as [[e|s1]|x] eqn:Hr; simpl.
  - split; [done|]. intros (_ & Hall & Hnd & _).
    assert (Ret (inl e) = ok (list_to_set (tree_codes (p :: ps)) ∪ ∅ : gset string)) as Habs.
    { apply Hiff. split_and!; [done|done|set_solver|done]. }
    done.
  - destruct (proj1 (Hiff s1) eq_refl) as (Hall & Hnd & _ & _).
    destruct (walkTreePoints (p :: ps)) as [[e|s2]|x] eqn:Hr2; simpl.
    + split; [done|]. intros (_ & _ & _ & Hp).
      assert (Ret (inl e) = ok (sum_points (p :: ps))) as Habs by (by apply Hpts). done.
    + destruct (proj1 (Hpts s2) eq_refl) as [Hp _]. done.
    + split; [done|]. intros (_ & _ & _ & Hp).
      assert (Panic x = ok (sum_points (p :: ps))) as Habs by (by apply Hpts). done.
  - split; [done|]. intros (_ & Hall & Hnd & _).
    assert (Panic x = @ok E _ (list_to_set (tree_codes (p :: ps)) ∪ ∅ : gset string)) as Habs.
    { apply Hiff. split_and!; [done|done|set_solver|done]. }
    done.
Qed.

(** ** Loops *)

Section Loops.
Context {A S : Type}.

Lemma for_range_ok (body : S → A → R S) (P : S → A → Prop) (f : S → A → S) (l : list A) :
  (∀ s a s', a ∈ l → body s a = ok s' ↔ P s a ∧ s' = f s a) →
  ∀ s s', for_range body l s = ok s' ↔ chain P f l s ∧ s' = fold_left f l s.
Proof.
  induction l as [|a l IH]; intros Hb s s'; simpl.
  { unfold ok. split; [by intros [= <-]|by intros [_ ->]]. }
  assert (∀ s1, body s a = ok s1 ↔ P s a ∧ s1 = f s a) as Ha
    by (intros s1; apply Hb; left).
  assert (∀ s0 a0 s1, a0 ∈ l → body s0 a0 = ok s1 ↔ P s0 a0 ∧ s1 = f s0 a0) as Hl
    by (intros s0 a0 s1 Hin; apply Hb; by right).
  destruct (body s a) as [[e|s1]|x]; simpl.
  - split; [done|]. intros [[HP _] _]. by assert (Ret (inl e) = ok (f s a)) by (by apply Ha).
  - destruct (proj1 (Ha s1) eq_refl) as [HP ->]. rewrite (IH Hl). naive_solver.
  - split; [done|]. intros [[HP _] _]. by assert (Panic x = @ok E _ (f s a)) by (by apply Ha).
Qed.

Lemma bindR_ext {B : Type} (m : R A) (k k' : A → R B) :
  (∀ a, k a = k' a) → bindR m k = bindR m k'.
Proof. intros Hk. destruct m as [[e|a]|x]; simpl; [done|apply Hk|done]. Qed.

Lemma for_range_returns (body : S → A → R S) (l : list A) :
  (∀ s a, a ∈ l → ∃ r, body s a = Ret r) →
  ∀ s, ∃ r, for_range body l s = Ret r.
Proof.
  induction l as [|a l IH]; intros Hb s; simpl; [by eexists|].
  destruct (Hb s a) as [[e|s1] ->]; [left| |]; simpl; [by eexists|].
  apply IH. intros s0 a0 Hin. apply Hb. by right.
Qed.

End Loops.

(** ** The handins *)

Lemma topLevel_ok (ps : list parseableProblem) (m : gmap string parseableProblem) :
  Forall has_code ps →
  for_range (fun (m : gmap string parseableProblem) p =>
               bindR (lift (parseableProblem_code p)) (fun c => @ok E _ (<[c := p]> m)))
    ps m = ok (fold_left index_problem ps m).
Proof.
  intros Hc. revert m. induction Hc as [|p ps [c Hp] Hc IH]; intros m; [done|].
  simpl. unfold parseableProblem_code, index_problem. rewrite Hp. simpl. apply IH.
Qed.

Lemma topLevel_panics (ps : list parseableProblem) (m : gmap string parseableProblem) :
  ¬ Forall has_code ps →
  for_range (fun (m : gmap string parseableProblem) p =>
               bindR (lift (parseableProblem_code p)) (fun c => @ok E _ (<[c := p]> m)))
    ps m = Panic nil_dereference.
Proof.
  revert m. induction ps as [|p ps IH]; intros m Hn.
  { destruct Hn. constructor. }
  simpl. unfold parseableProblem_code. destruct (pp_Code p) as [c|] eqn:Hp; simpl; [|done].
  apply IH. intros Hc. apply Hn. constructor; [by exists c|done].
Qed.

Lemma dom_index (l : list parseableProblem) (m : gmap string parseableProblem) :
  dom (fold_left index_problem l m) = list_to_set (omap pp_Code l) ∪ dom m.
Proof.
  revert m. induction l as [|p l IH]; intros m; simpl; [set_solver|].
  rewrite IH. unfold index_problem. destruct (pp_Code p) as [c|]; simpl; [|done].
  rewrite dom_insert_L. set_solver.
Qed.

Lemma walkProblems_problem_eq (m : gmap string parseableProblem) (p : parseableProblem) :
  @walkProblems_problem E m p =
    bindR (lift (deref (pp_Code p))) (fun c =>
    for_range (@walkProblems_problem E) (pp_Subproblems p) (<[c := p]> m)).
Proof. by destruct p. Qed.

Lemma walkProblems_list (ps : list parseableProblem) :
  Forall (fun p => Forall has_code (nodes p) →
                   ∀ m, @walkProblems_problem E m p = ok (fold_left index_problem (nodes p) m)) ps →
  Forall has_code (all_nodes ps) →
  ∀ m, for_range (@walkProblems_problem E) ps m = ok (fold_left index_problem (all_nodes ps) m).
Proof.
  induction 1 as [|p ps Hp Hps IH]; intros Hc m; [done|].
  rewrite all_nodes_cons_nodes in Hc |- *. apply Forall_app in Hc as [Hc1 Hc2].
  rewrite fold_left_app. simpl. rewrite (Hp Hc1). simpl. by apply IH.
Qed.

Lemma walkProblems_problem_ok (p : parseableProblem) :
  Forall has_code (nodes p) →
  ∀ m, @walkProblems_problem E m p = ok (fold_left index_problem (nodes p) m).
Proof.
  induction p as [c n r pts subs IH] using parseableProblem_nested_ind.
  rewrite nodes_eq. intros [[c' Hc] Hsub]%Forall_cons m. simpl in Hc, Hsub. subst c.
  rewrite walkProblems_problem_eq. simpl. by rewrite (walkProblems_list subs IH Hsub).
Qed.

Lemma walkProblems_ok (ps : list parseableProblem) (m : gmap string parseableProblem) :
  Forall has_code (all_nodes ps) →
  @walkProblems E ps m = ok (fold_left index_problem (all_nodes ps) m).
Proof.
  intros Hc. apply walkProblems_list; [|done].
  apply Forall_forall. intros p _. apply walkProblems_problem_ok.
Qed.

Lemma top_codes_tree_codes (ps : list parseableProblem) (c : string) :
  c ∈ top_codes ps → c ∈ tree_codes ps.
Proof.
  unfold top_codes, tree_codes. rewrite !list_elem_of_omap.
  intros (p & Hin & Hc). exists p. split; [|done].
  unfold all_nodes. apply list_elem_of_In, in_flat_map. exists p.
  split; [by apply list_elem_of_In|]. destruct p. by left.
Qed.

Lemma handin_switch_returns (n : nat) (h : parseableHandin) :
  ∃ r, handin_switch ValidateCode n h = Ret r.
Proof. unfold handin_switch. repeat case_match; by eexists. Qed.

Lemma handin_switch_ok (n : nat) (h : parseableHandin) :
  (1 ≤ n)%nat →
  handin_switch ValidateCode n h = ok tt ↔ switch_ok ValidateCode n h.
Proof.
  intros Hn. unfold handin_switch, switch_ok, parseableHandin_hasCode, parseableHandin_hasDue,
    parseableHandin_code.
  destruct (ph_Code h) as [c|], (ph_Due h) as [d|]; simpl;
    repeat case_bool_decide; simpl; try destruct (ValidateCode c) as [e|] eqn:Hv;
    try destruct (ValidateCode "") as [e'|] eqn:Hv';
    (split; [try done; intros _|try done; intros [(? & ? & ?)|(? & c' & ? & ?)]]);
    try lia; try (exfalso; by eapply is_Some_None); simplify_eq;
    try (left; split_and!; [lia|done|by eexists]);
    try (right; split; [lia|]; by eexists).
Qed.

Lemma handin_problem_returns n h top all seen pc :
  ∃ r, handin_problem ValidateCode n h top all seen pc = Ret r.
Proof. unfold handin_problem. repeat case_match; by eexists. Qed.

Lemma handin_problem_ok n h top all seen pc seen' :
  handin_problem ValidateCode n h top all seen pc = ok seen' ↔
  good_pc ValidateCode top all seen pc ∧ seen' = mark h seen pc.
Proof.
  unfold handin_problem, good_pc, mark. rewrite not_elem_of_dom, !elem_of_dom.
  destruct (ValidateCode pc) as [e|]; [naive_solver|].
  repeat case_bool_decide; simpl; [|naive_solver..].
  destruct (seen !! pc) as [hc|]; unfold ok; naive_solver.
Qed.

Lemma chain_inner top all h (pcs : list string) (seen : gmap string string) :
  chain (good_pc ValidateCode top all) (mark h) pcs seen ↔
  Forall (fun pc => ValidateCode pc = None ∧ pc ∈ dom all ∧ pc ∈ dom top) pcs ∧
  NoDup pcs ∧ (∀ pc, pc ∈ pcs → pc ∉ dom seen).
Proof.
  revert seen. induction pcs as [|pc pcs IH]; intros seen; simpl.
  { split; [|done]. intros _. split_and!; [constructor|constructor|set_solver]. }
  rewrite IH, Forall_cons, NoDup_cons. unfold good_pc, mark. rewrite dom_insert_L.
  split.
  - intros ((Hv & Ha & Ht & Hs) & HF & Hnd & Hfresh). split_and!; try done.
    + intros Hin. apply Hfresh in Hin. set_solver.
    + intros x [->|Hx]%elem_of_cons; [done|]. apply Hfresh in Hx. set_solver.
  - intros (((Hv & Ha & Ht) & HF) & (Hnin & Hnd) & Hfresh). split_and!; try done.
    + apply Hfresh. by left.
    + intros x Hx. rewrite not_elem_of_union, not_elem_of_singleton. split.
      * by intros ->.
      * apply Hfresh. by right.
Qed.

Lemma dom_mark h (pcs : list string) (seen : gmap string string) :
  dom (fold_left (mark h) pcs seen) = list_to_set pcs ∪ dom seen.
Proof.
  revert seen. induction pcs as [|pc pcs IH]; intros seen; simpl; [set_solver|].
  rewrite IH. unfold mark. rewrite dom_insert_L. set_solver.
Qed.

Lemma handin_body_returns n top all st h :
  ∃ r, handin_body ValidateCode n top all st h = Ret r.
Proof.
  destruct st as [codes seen]. unfold handin_body.
  destruct (handin_switch_returns n h) as [[e|[]] ->]; simpl; [by eexists|].
  case_match; [by eexists|]. unfold parseableHandin_problems.
  destruct (ph_Problems h) as [|pc pcs] eqn:Hp; [by eexists|].
  destruct (for_range_returns (handin_problem ValidateCode n h top all) (pc :: pcs)
              (fun s a _ => handin_problem_returns n h top all s a) seen) as [[e|s1] ->];
    simpl; by eexists.
Qed.

Lemma handin_body_ok n top all st h st' :
  (1 ≤ n)%nat →
  handin_body ValidateCode n top all st h = ok st' ↔
  handin_ok ValidateCode n top all st h ∧ st' = handin_next st h.
Proof.
  intros Hn. destruct st as [codes seen]. unfold handin_body, handin_ok, handin_next. simpl.
  pose proof (handin_switch_ok n h Hn) as Hsw.
  destruct (handin_switch_returns n h) as [[e|[]] Hr]; rewrite Hr in Hsw |- *; simpl.
  { split; [done|]. intros [[Hs _] _]. by apply Hsw in Hs. }
  assert (switch_ok ValidateCode n h) as Hs by (by apply Hsw).
  destruct (bool_decide (1 < n)%nat && bool_decide (parseableHandin_code h ∈ codes)) eqn:Hdup.
  { apply andb_true_iff in Hdup as [H1%bool_decide_eq_true H2%bool_decide_eq_true].
    split; [done|]. intros [(_ & Hfresh & _) _]. by destruct (Hfresh H1). }
  assert ((1 < n)%nat → parseableHandin_code h ∉ codes) as Hfresh.
  { intros H1 H2. apply andb_false_iff in Hdup as [Hd|Hd]; apply bool_decide_eq_false in Hd; done. }
  unfold parseableHandin_problems.
  destruct (ph_Problems h) as [|pc pcs] eqn:Hp.
  { split; [done|]. by intros [(_ & _ & ? & _) _]. }
  pose proof (for_range_ok (handin_problem ValidateCode n h top all) (good_pc ValidateCode top all) (mark h)
                (pc :: pcs) (fun s a s' _ => handin_problem_ok n h top all s a s') seen) as Hin.
  destruct (for_range (handin_problem ValidateCode n h top all) (pc :: pcs) seen)
    as [[e|s1]|x]; simpl.
  - split; [done|]. intros [(_ & _ & _ & Hch) _].
    by assert (Ret (inl e) = ok (fold_left (mark h) (pc :: pcs) seen)) by (by apply Hin).
  - destruct (proj1 (Hin s1) eq_refl) as [Hch ->]. unfold ok. split.
    + intros [= <-]. done.
    + by intros [_ ->].
  - split; [done|]. intros [(_ & _ & _ & Hch) _].
    by assert (Panic x = @ok E _ (fold_left (mark h) (pc :: pcs) seen)) by (by apply Hin).
Qed.

Lemma listed_problems_cons (h : parseableHandin) (hs : list parseableHandin) :
  listed_problems (h :: hs) = ph_Problems h ++ listed_problems hs.
Proof. reflexivity. Qed.

Lemma handin_next_fold (hs : list parseableHandin) (st : gset string * gmap string string) :
  (fold_left handin_next hs st).1 = list_to_set (parseableHandin_code <$> hs) ∪ st.1 ∧
  dom (fold_left handin_next hs st).2 = list_to_set (listed_problems hs) ∪ dom st.2.
Proof.
  revert st. induction hs as [|h hs IH]; intros st; simpl; [set_solver|].
  destruct (IH (handin_next st h)) as [-> ->]. rewrite listed_problems_cons.
  unfold handin_next. simpl. rewrite dom_mark, list_to_set_app_L. set_solver.
Qed.

Lemma chain_outer n top all (hs : list parseableHandin) (st : gset string * gmap string string) :
  chain (handin_ok ValidateCode n top all) handin_next hs st ↔
  Forall (switch_ok ValidateCode n) hs ∧
  ((1 < n)%nat → NoDup (parseableHandin_code <$> hs) ∧
                 ∀ h, h ∈ hs → parseableHandin_code h ∉ st.1) ∧
  Forall (fun h => ph_Problems h ≠ []) hs ∧
  Forall (fun pc => ValidateCode pc = None ∧ pc ∈ dom all ∧ pc ∈ dom top) (listed_problems hs) ∧
  NoDup (listed_problems hs) ∧
  (∀ pc, pc ∈ listed_problems hs → pc ∉ dom st.2).
Proof.
  revert st. induction hs as [|h hs IH]; intros st.
  { simpl. split; [|done]. intros _.
    split_and!; [constructor| |constructor|constructor|constructor|set_solver].
    intros _. split; [constructor|set_solver]. }
  change (chain (handin_ok ValidateCode n top all) handin_next (h :: hs) st)
    with (handin_ok ValidateCode n top all st h ∧ chain (handin_ok ValidateCode n top all) handin_next hs (handin_next st h)).
  rewrite IH. unfold handin_ok. rewrite chain_inner, listed_problems_cons.
  rewrite !Forall_cons, Forall_app, NoDup_app, fmap_cons, NoDup_cons.
  unfold handin_next at 1 2. simpl. rewrite dom_mark. split.
  - intros ((Hsw & Hfresh & Hne & HF1 & Hnd1 & Hfr1) & HFsw & Hcodes & HFne & HF2 & Hnd2 & Hfr2).
    split_and!; try done.
    + intros Hn. destruct (Hcodes Hn) as [Hnd Hfr]. split_and!; [|done|].
      * intros (h' & Heq & Hin)%list_elem_of_fmap. apply Hfr in Hin. set_solver.
      * intros h' [->|Hin]%elem_of_cons; [by apply Hfresh|]. apply Hfr in Hin. set_solver.
    + intros x Hx Hx'. apply Hfr2 in Hx'. set_solver.
    + intros pc [Hx|Hx]%elem_of_app; [by apply Hfr1|]. apply Hfr2 in Hx. set_solver.
  - intros ((Hsw & HFsw) & Hcodes & (Hne & HFne) & (HF1 & HF2) & (Hnd1 & Hdisj & Hnd2) & Hfr).
    split_and!; try done.
    + intros Hn. destruct (Hcodes Hn) as [_ Hfr']. apply Hfr'. by left.
    + intros pc Hpc. apply Hfr. set_solver.
    + intros Hn. destruct (Hcodes Hn) as [[Hnin Hnd] Hfr']. split; [done|].
      intros h' Hin. rewrite not_elem_of_union, not_elem_of_singleton. split.
      * intros Heq. apply Hnin. apply list_elem_of_fmap. by exists h'.
      * apply Hfr'. by right.
    + intros pc Hpc. rewrite not_elem_of_union, not_elem_of_list_to_set. split.
      * intros Hpc'. by apply (Hdisj pc).
      * apply Hfr. set_solver.
Qed.

Lemma final_loop (seen : gmap string string) (ps : list parseableProblem) :
  Forall has_code ps →
  (∃ r, for_range
          (fun (_ : unit) p =>
             bindR (lift (parseableProblem_code p)) (fun c =>
             match seen !! c with
             | None => @fail E _ (ProblemNotInHandin c)
             | Some _ => ok tt
             end)) ps tt = Ret r) ∧
  (for_range
     (fun (_ : unit) p =>
        bindR (lift (parseableProblem_code p)) (fun c =>
        match seen !! c with
        | None => @fail E _ (ProblemNotInHandin c)
        | Some _ => ok tt
        end)) ps tt = ok tt ↔
   Forall (fun c => c ∈ dom seen) (top_codes ps)).
Proof.
  induction 1 as [|p ps [c Hc] Hps [IHr IH]].
  { split; [by eexists|]. split; [constructor|done]. }
  unfold top_codes. simpl. unfold parseableProblem_code. rewrite Hc. simpl.
  rewrite Forall_cons, elem_of_dom.
  destruct (seen !! c) as [hc|] eqn:Hl; simpl.
  - split; [done|]. rewrite IH. unfold top_codes. naive_solver.
  - split; [by eexists|]. split; [done|]. intros [[? [=]] _].
Qed.

Lemma switch_ok_all (hs : list parseableHandin) (n : nat) :
  (1 ≤ n)%nat →
  Forall (switch_ok ValidateCode n) hs ↔
  (n = 1%nat → Forall (fun h => ph_Code h = None ∧ is_Some (ph_Due h)) hs) ∧
  ((1 < n)%nat → Forall (fun h => ∃ c, ph_Code h = Some c ∧ ValidateCode c = None) hs).
Proof.
  intros Hn. unfold switch_ok. rewrite !Forall_forall. split.
  - intros Hall. split; intros Hn' h Hin; destruct (Hall h Hin) as [(? & ?)|(? & ?)];
      try done; lia.
  - intros [H1 H2] h Hin. destruct (decide (n = 1%nat)) as [Heq|Hne].
    + left. split; [done|]. by apply H1.
    + right. assert (1 < n)%nat by lia. split; [done|]. by apply H2.
Qed.

Lemma has_code_top (problems : list parseableProblem) :
  Forall has_code (all_nodes problems) → Forall has_code problems.
Proof.
  intros Hc. apply Forall_forall. intros p Hp. apply (proj1 (Forall_forall _ _) Hc).
  unfold all_nodes. apply list_elem_of_In, in_flat_map. exists p.
  split; [by apply list_elem_of_In|]. destruct p. by left.
Qed.

Lemma validateHandins_eq (h : parseableHandin) (hs : list parseableHandin)
    (problems : list parseableProblem) :
  Forall has_code (all_nodes problems) →
  validateHandins ValidateCode (h :: hs) problems =
    bindR (for_range
             (handin_body ValidateCode (length (h :: hs)) (fold_left index_problem problems ∅)
                (fold_left index_problem (all_nodes problems) ∅)) (h :: hs) (∅, ∅))
      (fun st =>
         bindR (for_range
                  (fun (_ : unit) p =>
                     bindR (lift (parseableProblem_code p)) (fun c =>
                     match st.2 !! c with
                     | None => fail (ProblemNotInHandin c)
                     | Some _ => ok tt
                     end)) problems tt) (fun _ => ok tt)).
Proof.
  intros Hc. unfold validateHandins.
  rewrite (topLevel_ok problems ∅ (has_code_top problems Hc)).
  rewrite (walkProblems_ok problems ∅ Hc). reflexivity.
Qed.

(** [validateHandins] returns on a tree with codes. *)
Lemma validateHandins_Ret (handins : list parseableHandin)
    (problems : list parseableProblem) :
  Forall has_code (all_nodes problems) →
  ∃ r, validateHandins ValidateCode handins problems = Ret r.
Proof.
  intros Hc. destruct handins as [|h hs]; [by eexists|].
  pose proof (has_code_top problems Hc) as Htop.
  rewrite (validateHandins_eq h hs problems Hc).
  set (n := length (h :: hs)). set (hs' := h :: hs).
  destruct (for_range_returns
              (handin_body ValidateCode n (fold_left index_problem problems ∅)
                 (fold_left index_problem (all_nodes problems) ∅)) hs'
              (fun s a _ => handin_body_returns n _ _ s a) (∅, ∅)) as [[e|st] ->];
    simpl; [by eexists|].
  destruct (final_loop st.2 problems Htop) as [[[e|[]] ->] _]; simpl; by eexists.
Qed.

(** What [validateHandins] accepts on a tree with codes. *)
Lemma validateHandins_iff (handins : list parseableHandin)
    (problems : list parseableProblem) :
  Forall has_code (all_nodes problems) →
  validateHandins ValidateCode handins problems = ok tt ↔
  handins ≠ [] ∧
  (length handins = 1%nat →
   Forall (fun h => ph_Code h = None ∧ is_Some (ph_Due h)) handins) ∧
  ((1 < length handins)%nat →
   Forall (fun h => ∃ c, ph_Code h = Some c ∧ ValidateCode c = None) handins ∧
   NoDup (parseableHandin_code <$> handins)) ∧
  Forall (fun h => ph_Problems h ≠ []) handins ∧
  Forall (fun pc => ValidateCode pc = None ∧ pc ∈ top_codes problems) (listed_problems handins) ∧
  NoDup (listed_problems handins) ∧
  Forall (fun c => c ∈ listed_problems handins) (top_codes problems).
Proof.
  intros Hc. destruct handins as [|h hs].
  { split; [done|]. by intros [? _]. }
  pose proof (has_code_top problems Hc) as Htop.
  rewrite (validateHandins_eq h hs problems Hc).
  set (n := length (h :: hs)). assert (1 ≤ n)%nat as Hn by (unfold n; simpl; lia).
  set (hs' := h :: hs) in *.
  set (top := fold_left index_problem problems ∅).
  set (all := fold_left index_problem (all_nodes problems) ∅).
  pose proof (for_range_ok (handin_body ValidateCode n top all) (handin_ok ValidateCode n top all)
                handin_next hs' (fun s a s' _ => handin_body_ok n top all s a s' Hn) (∅, ∅))
    as Hloop.
  assert (chain (handin_ok ValidateCode n top all) handin_next hs' (∅, ∅) ↔
          (n = 1%nat → Forall (fun h => ph_Code h = None ∧ is_Some (ph_Due h)) hs') ∧
          ((1 < n)%nat →
           Forall (fun h => ∃ c, ph_Code h = Some c ∧ ValidateCode c = None) hs' ∧
           NoDup (parseableHandin_code <$> hs')) ∧
          Forall (fun h => ph_Problems h ≠ []) hs' ∧
          Forall (fun pc => ValidateCode pc = None ∧ pc ∈ top_codes problems)
            (listed_problems hs') ∧
          NoDup (listed_problems hs')) as Hchain.
  { rewrite chain_outer, (switch_ok_all hs' n Hn). unfold top, all.
    rewrite !dom_index. simpl.
    assert (Forall (fun pc => ValidateCode pc = None ∧
                              pc ∈ (list_to_set (omap pp_Code (all_nodes problems)) ∪ dom (∅ : gmap string parseableProblem) : gset string) ∧
                              pc ∈ (list_to_set (omap pp_Code problems) ∪ dom (∅ : gmap string parseableProblem) : gset string))
              (listed_problems hs') ↔
            Forall (fun pc => ValidateCode pc = None ∧ pc ∈ top_codes problems)
              (listed_problems hs')) as ->.
    { apply Forall_proper; [|done]. intros pc. rewrite dom_empty_L. split.
      - intros (Hv & _ & Hin). split; [done|]. set_solver.
      - intros (Hv & Hin). split_and!; [done| |set_solver].
        apply top_codes_tree_codes in Hin. unfold tree_codes in Hin. set_solver. }
    rewrite dom_empty_L. split.
    - intros ([H1 H2] & Hcodes & Hne & HF & Hnd & _). split_and!; try done.
      intros Hn'. split; [by apply H2|]. by destruct (Hcodes Hn').
    - intros (H1 & H2 & Hne & HF & Hnd). split_and!; try done.
      + intros Hn'. by destruct (H2 Hn').
      + intros Hn'. destruct (H2 Hn') as [_ ?]. split; [done|]. set_solver. }
  destruct (for_range (handin_body ValidateCode n top all) hs' (∅, ∅)) as [[e|st]|x]; simpl.
  - split; [done|]. intros (_ & H1 & H2 & Hne & HF & Hnd & _).
    assert (Ret (inl e) = ok (fold_left handin_next hs' (∅, ∅))); [|done].
    apply Hloop. split; [|done]. apply Hchain. done.
  - destruct (proj1 (Hloop st) eq_refl) as [Hch ->].
    destruct (handin_next_fold hs' (∅, ∅)) as [_ Hdom].
    destruct (final_loop (fold_left handin_next hs' (∅, ∅)).2 problems Htop) as [_ Hfin].
    rewrite Hdom in Hfin. simpl in Hfin. rewrite dom_empty_L in Hfin.
    apply Hchain in Hch as (H1 & H2 & Hne & HF & Hnd).
    destruct (for_range _ problems ()) as [[e|[]]|x]; simpl.
    + split; [done|]. intros (_ & _ & _ & _ & _ & _ & Hcov).
      assert (Ret (inl e) = @ok E _ tt); [|done]. apply Hfin.
      eapply Forall_impl; [apply Hcov|]. set_solver.
    + split; [intros _|done]. split_and!; try done.
      eapply Forall_impl; [by apply Hfin|]. set_solver.
    + split; [done|]. intros (_ & _ & _ & _ & _ & _ & Hcov).
      assert (Panic x = @ok E _ tt); [|done]. apply Hfin.
      eapply Forall_impl; [apply Hcov|]. set_solver.
  - split; [done|]. intros (_ & H1 & H2 & Hne & HF & Hnd & _).
    assert (Panic x = @ok E _ (fold_left handin_next hs' (∅, ∅))); [|done].
    apply Hloop. split; [|done]. apply Hchain. done.
Qed.

(** X15.  [validateHandins] assumes the problems have been validated: it
    dereferences the code of every top-level problem, and on a top-level
    problem with no code it panics whatever the handins are, as long as
    there is one. *)
Theorem validateHandins_needs_codes (handins : list parseableHandin)
    (problems : list parseableProblem) :
  handins ≠ [] → ¬ Forall has_code problems →
  validateHandins ValidateCode handins problems = Panic nil_dereference.
Proof.
  intros Hne Hn. destruct handins as [|h hs]; [done|].
  unfold validateHandins. by rewrite (topLevel_panics problems ∅ Hn).
Qed.

Lemma handin_body_due n top all st (h h' : parseableHandin) :
  (1 < n)%nat → same_but_due h h' →
  handin_body ValidateCode n top all st h = handin_body ValidateCode n top all st h'.
Proof.
  intros Hn [Hc Hp]. destruct h as [c d pcs], h' as [c' d' pcs']. simpl in Hc, Hp. subst c' pcs'.
  destruct st as [codes seen].
  unfold handin_body, handin_switch, handin_problem, handinErrorName.
  rewrite !(bool_decide_eq_true_2 _ Hn).
  assert (bool_decide (n = 1%nat) = false) as -> by (apply bool_decide_eq_false; lia).
  destruct c; reflexivity.
Qed.

Lemma for_range_handins_due n top all (hs hs' : list parseableHandin) :
  (1 < n)%nat → Forall2 same_but_due hs hs' →
  ∀ st, for_range (handin_body ValidateCode n top all) hs st =
        for_range (handin_body ValidateCode n top all) hs' st.
Proof.
  intros Hn. induction 1 as [|h h' hs hs' Hh Hhs IH]; intros st; [done|].
  rewrite !for_range_cons, (handin_body_due n top all st h h' Hn Hh).
  destruct (handin_body ValidateCode n top all st h') as [[e|st1]|x]; simpl; [done| |done].
  apply IH.
Qed.

(** X16.  With more than one handin, [validateHandins] never looks at a due date:
    its result is the same whatever the due dates are, and whether they are
    there at all. *)
Theorem validateHandins_ignores_due_dates (handins handins' : list parseableHandin)
    (problems : list parseableProblem) :
  (1 < length handins)%nat →
  Forall2 same_but_due handins handins' →
  validateHandins ValidateCode handins problems =
  validateHandins ValidateCode handins' problems.
Proof.
  intros Hn Hsame. pose proof (Forall2_length _ _ _ Hsame) as Hlen.
  unfold validateHandins.
  destruct handins as [|h hs]; [simpl in Hn; lia|].
  destruct handins' as [|h' hs']; [done|].
  apply bindR_ext. intros top. apply bindR_ext. intros all. rewrite <- Hlen.
  by rewrite (for_range_handins_due (length (h :: hs)) top all (h :: hs) (h' :: hs') Hn Hsame).
Qed.

(** ** The assignment *)

Lemma top_codes_sublist (ps : list parseableProblem) : top_codes ps `sublist_of` tree_codes ps.
Proof.
  induction ps as [|p ps IH]; [constructor|].
  unfold top_codes, tree_codes in *. rewrite all_nodes_cons. simpl.
  destruct (pp_Code p) as [c|]; rewrite omap_app.
  - constructor. by apply sublist_inserts_l.
  - by apply sublist_inserts_l.
Qed.

(** [validateAssignment] returns. *)
Lemma validateAssignment_Ret (asgn : parseableAssignment) :
  ∃ r, validateAssignment ValidateCode asgn = Ret r.
Proof.
  unfold validateAssignment. destruct (pa_Code asgn) as [c|]; [|by eexists].
  destruct (ValidateCode c) as [e|]; [by eexists|].
  destruct (validateProblemTree_Ret (pa_Problems asgn)) as [[e|[]] Hr]; rewrite Hr; simpl.
  { by eexists. }
  apply validateProblemTree_iff in Hr as (_ & Hall & _).
  apply validateHandins_Ret. eapply Forall_impl; [done|]. apply well_coded_has_code.
Qed.

(** X18.  In an assignment that [validateAssignment] accepts, the problem lists of
    the handins, put together, are the codes of the top-level problems, each
    exactly once. *)
Theorem validateAssignment_handins_partition (asgn : parseableAssignment) :
  validateAssignment ValidateCode asgn = ok tt →
  listed_problems (pa_Handins asgn) ≡ₚ top_codes (pa_Problems asgn).
Proof.
  unfold validateAssignment. destruct (pa_Code asgn) as [c|]; [|done].
  destruct (ValidateCode c) as [e|]; [done|].
  destruct (validateProblemTree ValidateCode (pa_Problems asgn)) as [[e|[]]|x] eqn:Hr;
    simpl; [done| |done].
  apply validateProblemTree_iff in Hr as (_ & Hall & Hnd & _).
  intros Hh. apply validateHandins_iff in Hh as (_ & _ & _ & _ & HF & Hnd' & Hcov).
  2:{ eapply Forall_impl; [done|]. apply well_coded_has_code. }
  apply NoDup_Permutation; [done| |].
  { apply (sublist_NoDup _ (tree_codes (pa_Problems asgn))); [done|apply top_codes_sublist]. }
  intros x. split.
  - intros Hx. by apply (proj1 (Forall_forall _ _) HF x Hx).
  - intros Hx. by apply (proj1 (Forall_forall _ _) Hcov x Hx).
Qed.

Lemma parseableProblem_toProblem_eq (p : parseableProblem) :
  parseableProblem_toProblem p =
    match deref (pp_Code p) with
    | Panic x => Panic x
    | Ret code =>
        match deref (pp_Points p) with
        | Panic x => Panic x
        | Ret points =>
            match toProblems (pp_Subproblems p) with
            | Panic x => Panic x
            | Ret subs =>
                Ret {| Problem_Code := code;
                       Problem_Name := parseableProblem_name p;
                       Problem_RubricCommentTemplate := parseableProblem_rubricCommentTemplate p;
                       Problem_Points := points;
                       Problem_Subproblems := subs |}
            end
        end
    end.
Proof. destruct p as [c n r pts subs]. reflexivity. Qed.

Lemma toProblems_list (ps : list parseableProblem) :
  Forall (fun p => Forall complete (nodes p) →
                   ∃ q, parseableProblem_toProblem p = Ret q ∧ converted p q) ps →
  Forall complete (all_nodes ps) →
  ∃ qs, toProblems ps = Ret qs ∧ Forall2 converted ps qs.
Proof.
  induction 1 as [|p ps Hp Hps IH]; intros Hc.
  { exists []. split; [done|constructor]. }
  rewrite all_nodes_cons_nodes in Hc. apply Forall_app in Hc as [Hc1 Hc2].
  destruct (Hp Hc1) as (q & Hq & Hcq). destruct (IH Hc2) as (qs & Hqs & Hcqs).
  exists (q :: qs). simpl. rewrite Hq, Hqs. split; [done|by constructor].
Qed.

Lemma parseableProblem_toProblem_converts (p : parseableProblem) :
  Forall complete (nodes p) →
  ∃ q, parseableProblem_toProblem p = Ret q ∧ converted p q.
Proof.
  induction p as [c n r pts subs IH] using parseableProblem_nested_ind.
  rewrite nodes_eq. intros [[[c' Hc] [x Hx]] Hsub]%Forall_cons. simpl in Hc, Hx, Hsub. subst.
  destruct (toProblems_list subs IH Hsub) as (qs & Hqs & Hcqs).
  rewrite parseableProblem_toProblem_eq. simpl. rewrite Hqs.
  eexists. split; [done|]. by constructor.
Qed.

Lemma toProblems_converts (ps : list parseableProblem) :
  Forall complete (all_nodes ps) →
  ∃ qs, toProblems ps = Ret qs ∧ Forall2 converted ps qs.
Proof.
  apply toProblems_list. apply Forall_forall. intros p _.
  apply parseableProblem_toProblem_converts.
Qed.

Lemma validated_complete (ps : list parseableProblem) :
  validateProblemTree ValidateCode ps = ok tt → Forall complete (all_nodes ps).
Proof.
  intros (_ & Hall & _ & Hpts)%validateProblemTree_iff.
  apply Forall_forall. intros p Hp. split.
  - apply well_coded_has_code. by apply (proj1 (Forall_forall _ _) Hall).
  - destruct (proj1 (Forall_forall _ _) Hpts p Hp) as (x & Hx & _). by exists x.
Qed.

(** [parseAssignment] returns. *)
Lemma parseAssignment_Ret (decoded : string + parseableAssignment) :
  ∃ r, parseAssignment ValidateCode decoded = Ret r.
Proof.
  destruct decoded as [msg|asgn]; [by eexists|]. unfold parseAssignment.
  destruct (validateAssignment_Ret asgn) as [[e|[]] Hr]; rewrite Hr; simpl; [by eexists|].
  revert Hr. unfold validateAssignment, parseableAssignment_code.
  destruct (pa_Code asgn) as [c|]; [|done]. destruct (ValidateCode c) as [e|]; [done|].
  destruct (validateProblemTree ValidateCode (pa_Problems asgn)) as [[e|[]]|x] eqn:Hp;
    simpl; [done| |done].
  intros _. destruct (toProblems_converts _ (validated_complete _ Hp)) as (qs & -> & _).
  simpl. by eexists.
Qed.

(** X20.  [parseAssignment] returns, whatever was decoded: the unguarded
    dereferences of the conversion are only reached after the validation has
    checked the pointers. *)
Theorem parseAssignment_returns (decoded : string + parseableAssignment) :
  ∃ r, parseAssignment ValidateCode decoded = Ret r.
Proof.
  destruct (parseAssignment_Ret decoded) as [[e|a] Hr]; rewrite Hr.
  - by exists (inl e).
  - by exists (inr a).
Qed.

(** X21.  For a decoded value that [validateAssignment] accepts,
    [parseAssignment] yields an assignment, and the assignment has the
    code, the name (empty when there is none), the handins and, problem by
    problem, the codes, names, points and shape of the decoded value. *)
Theorem parseAssignment_converts (asgn : parseableAssignment) :
  validateAssignment ValidateCode asgn = ok tt →
  ∃ a, parseAssignment ValidateCode (inr asgn) = ok a ∧
       pa_Code asgn = Some (Assignment_Code a) ∧
       Assignment_Name a = default "" (pa_Name asgn) ∧
       Assignment_Handins a = parseableHandin_toHandin <$> pa_Handins asgn ∧
       Forall2 converted (pa_Problems asgn) (Assignment_Problems a).
Proof.
  intros Hv. unfold parseAssignment. rewrite Hv. simpl.
  revert Hv. unfold validateAssignment, parseableAssignment_code.
  destruct (pa_Code asgn) as [c|]; [|done]. destruct (ValidateCode c) as [e|]; [done|].
  destruct (validateProblemTree ValidateCode (pa_Problems asgn)) as [[e|[]]|x] eqn:Hp;
    simpl; [done| |done].
  intros _. destruct (toProblems_converts _ (validated_complete _ Hp)) as (qs & -> & Hqs).
  simpl. eexists. split; [done|]. simpl. done.
Qed.


Lemma toProblems_complete (ps : list parseableProblem) :
  Forall (fun p => ∀ q, parseableProblem_toProblem p = Ret q → Forall complete (nodes p)) ps →
  ∀ qs, toProblems ps = Ret qs → Forall complete (all_nodes ps).
Proof.
  induction 1 as [|p ps Hp Hps IH]; intros qs; [constructor|].
  simpl. destruct (parseableProblem_toProblem p) as [q|x] eqn:Hq; [|done].
  destruct (toProblems ps) as [qs'|x] eqn:Hqs; [|done]. intros _.
  apply Forall_app. split; [by eapply Hp|by eapply IH].
Qed.

Lemma parseableProblem_toProblem_complete (p : parseableProblem) :
  ∀ q, parseableProblem_toProblem p = Ret q → Forall complete (nodes p).
Proof.
  induction p as [c n r pts subs IH] using parseableProblem_nested_ind.
  intros q. rewrite parseableProblem_toProblem_eq, nodes_eq. simpl.
  destruct c as [c|]; [|done]. destruct pts as [x|]; [|done]. simpl.
  destruct (toProblems subs) as [qs|px] eqn:Hqs; [|done]. intros _.
  constructor; [by split; eexists|]. by eapply toProblems_complete.
Qed.

(** X11.  [validateProblemTree] returns on every tree: none of its
    dereferences is of a nil pointer. *)
Theorem validateProblemTree_returns (problems : list parseableProblem) :
  ∃ r, validateProblemTree ValidateCode problems = Ret r.
Proof. apply validateProblemTree_Ret. Qed.

(** X12.  [validateProblemTree] accepts exactly the non-empty trees in which
    every problem has a code that [ValidateCode] accepts, no two problems
    share a code, and every problem has points, equal as float64 values to
    the left-to-right float64 sum of its subproblems' points when it has
    subproblems. *)
Theorem validateProblemTree_accepts (problems : list parseableProblem) :
  validateProblemTree ValidateCode problems = ok tt ↔
  problems ≠ [] ∧
  Forall (well_coded ValidateCode) (all_nodes problems) ∧
  NoDup (tree_codes problems) ∧
  Forall points_add_up (all_nodes problems).
Proof. apply validateProblemTree_iff. Qed.

(** X13.  [validateHandins] returns when every problem of the tree has a
    code, as the validation of the tree has made sure. *)
Theorem validateHandins_returns (handins : list parseableHandin)
    (problems : list parseableProblem) :
  Forall has_code (all_nodes problems) →
  ∃ r, validateHandins ValidateCode handins problems = Ret r.
Proof. apply validateHandins_Ret. Qed.

(** X14.  [validateHandins], on a tree whose problems all have codes,
    accepts exactly when: there is a handin; a lone handin has no code and
    has a due date; several handins all have accepted codes, no two the
    same; every handin lists a problem; every listed code is accepted and is
    the code of a top-level problem; no problem is listed twice; and every
    top-level problem is listed. *)
Theorem validateHandins_accepts (handins : list parseableHandin)
    (problems : list parseableProblem) :
  Forall has_code (all_nodes problems) →
  validateHandins ValidateCode handins problems = ok tt ↔
  handins ≠ [] ∧
  (length handins = 1%nat →
   Forall (fun h => ph_Code h = None ∧ is_Some (ph_Due h)) handins) ∧
  ((1 < length handins)%nat →
   Forall (fun h => ∃ c, ph_Code h = Some c ∧ ValidateCode c = None) handins ∧
   NoDup (parseableHandin_code <$> handins)) ∧
  Forall (fun h => ph_Problems h ≠ []) handins ∧
  Forall (fun pc => ValidateCode pc = None ∧ pc ∈ top_codes problems) (listed_problems handins) ∧
  NoDup (listed_problems handins) ∧
  Forall (fun c => c ∈ listed_problems handins) (top_codes problems).
Proof. apply validateHandins_iff. Qed.

(** X17.  [validateAssignment] returns on every decoded value: every
    dereference it reaches is of a pointer it has checked. *)
Theorem validateAssignment_returns (asgn : parseableAssignment) :
  ∃ r, validateAssignment ValidateCode asgn = Ret r.
Proof. apply validateAssignment_Ret. Qed.

(** X19.  [toProblem] performs no validation: it returns exactly on the
    trees in which every problem has a code and points, and panics on the
    others; what it returns keeps the codes, names, points and shape. *)
Theorem toProblem_returns_iff (p : parseableProblem) :
  ((∃ q, parseableProblem_toProblem p = Ret q) ↔ Forall complete (nodes p)) ∧
  ∀ q, parseableProblem_toProblem p = Ret q → converted p q.
Proof.
  split; [split|].
  - intros [q Hq]. by eapply parseableProblem_toProblem_complete.
  - intros Hc. destruct (parseableProblem_toProblem_converts p Hc) as (q & Hq & _). by exists q.
  - intros q Hq.
    destruct (parseableProblem_toProblem_converts p
                (parseableProblem_toProblem_complete p q Hq)) as (q' & Hq' & Hc).
    congruence.
Qed.

End Validation.
End AssignmentProofs.

(** * Reading assignment files *)

Module AssignmentFilesProofs.
Import AssignmentParse AssignmentProofs AssignmentFiles.

Section Files.
Context {E : Type} (ValidateCode : string → option E).
Context (Decode : option json → string + parseableAssignment).
Context (Error : error → string).
Context (Base : string → string).
Context (ReadDir : string → World → error + list string).
Context (IgnoreFileAndLog : string → bool).

Abbreviation ParseAssignmentFile := (ParseAssignmentFile ValidateCode Decode Error Base).
Abbreviation parsed := (parsed ValidateCode Decode Error Base).
Abbreviation parsed_ok := (parsed_ok ValidateCode Decode Error Base).
Abbreviation parsed_error := (parsed_error ValidateCode Decode Error Base).
Abbreviation scan_file := (scan_file ValidateCode Decode Error Base IgnoreFileAndLog).
Abbreviation scan_files := (scan_files ValidateCode Decode Error Base IgnoreFileAndLog).
Abbreviation candidates := (candidates IgnoreFileAndLog).

(** Two worlds with the same files, failures and working directory. *)
Lemma parsed_same_disk (w w' : World) (path : string) :
  files w = files w' → fault w = fault w' → cwd w = cwd w' →
  parsed w path = parsed w' path.
Proof.
  destruct w as [f l c d n u fa tr], w' as [f' l' c' d' n' u' fa' tr']. simpl.
  intros <- <- <-.
  unfold AssignmentFiles.parsed, AssignmentFiles.ParseAssignmentFile, os_Open, file_Read,
    resolve. simpl.
  destruct (fa _); [done|]. destruct (f !! _); [|done]. simpl.
  destruct (fa _); simpl; [done|].
  destruct (parseAssignment ValidateCode _) as [[e|a]|x]; simpl; try done.
  by destruct (negb _).
Qed.

(** [ParseAssignmentFile] changes nothing but the log, where it adds an
    open and, when that succeeds, a read. *)
Lemma ParseAssignmentFile_world (path : string) (w : World) :
  let q := resolve w path in
  ∃ delta,
    fst (ParseAssignmentFile path w)
      = mkWorld (files w) (locked w) (cells w) (cwd w) (now w) (user_current w) (fault w)
          (trace w ++ delta) ∧
    ((∃ m, delta = [(OpOpen q, Some m)]) ∨
     (∃ r, delta = [(OpOpen q, None); (OpRead q, r)])) ∧
    ∀ a, snd (ParseAssignmentFile path w) = Ret (inr a) →
         delta = [(OpOpen q, None); (OpRead q, None)].
Proof.
  intros q. unfold AssignmentFiles.ParseAssignmentFile, os_Open. fold q.
  destruct (fault w (OpOpen q)) as [m|].
  { eexists [_]. split; [done|]. split; [left; by eexists|done]. }
  destruct (files w !! q) as [f|] eqn:Hf.
  2:{ eexists [_]. split; [done|]. split; [left; by eexists|done]. }
  unfold file_Read. change (resolve (log (OpOpen q) None w) path) with q.
  change (fault (log (OpOpen q) None w)) with (fault w).
  change (files (log (OpOpen q) None w)) with (files w).
  destruct (fault w (OpRead q)) as [m|].
  - simpl. eexists [_; _]. split; [unfold log; simpl; by rewrite <- app_assoc|].
    split; [right; by eexists|done].
  - destruct (parseAssignment ValidateCode _) as [[e|a]|x]; simpl;
      try destruct (negb _); simpl;
      (eexists [_; _]; split; [unfold log; simpl; by rewrite <- app_assoc|];
       split; [right; by eexists|done]).
Qed.

Lemma ParseAssignmentFile_Ret (path : string) (w : World) :
  ∃ r, snd (ParseAssignmentFile path w) = Ret r.
Proof.
  unfold AssignmentFiles.ParseAssignmentFile.
  destruct (os_Open path w) as [w1 [err|]]; [by eexists|].
  destruct (file_Read path w1) as [w2 text].
  match goal with |- context [parseAssignment ValidateCode ?d] =>
    destruct (parseAssignment_Ret ValidateCode d) as [[e|a] ->] end; simpl.
  - by eexists.
  - destruct (negb _); by eexists.
Qed.

Lemma ParseAssignmentFile_name (path : string) (w : World) (a : Assignment) :
  snd (ParseAssignmentFile path w) = Ret (inr a) →
  Base path = Assignment_Code a ∧
  ∃ decoded, parseAssignment ValidateCode decoded = ok a.
Proof.
  unfold AssignmentFiles.ParseAssignmentFile.
  destruct (os_Open path w) as [w1 [err|]]; [done|].
  destruct (file_Read path w1) as [w2 text].
  match goal with |- context [parseAssignment ValidateCode ?d] =>
    destruct (parseAssignment ValidateCode d) as [[e|a']|x] eqn:Hp end; simpl; try done.
  destruct (String.eqb (Base path) (Assignment_Code a')) eqn:Heq; simpl; [|done].
  intros [= <-]. apply String.eqb_eq in Heq. split; [done|]. by eexists.
Qed.

Lemma list_omap_cons {A B : Type} (f : A → option B) (x : A) (l : list A) :
  omap f (x :: l) = match f x with Some y => y :: omap f l | None => omap f l end.
Proof. reflexivity. Qed.

Lemma candidates_cons (dir name : string) (names : list string) :
  candidates dir (name :: names) =
    if IgnoreFileAndLog (Join dir name) then candidates dir names
    else Join dir name :: candidates dir names.
Proof.
  unfold AssignmentFiles.candidates. rewrite fmap_cons, filter_cons.
  destruct (IgnoreFileAndLog (Join dir name)); by simpl.
Qed.

(** The loop over the names: what it leaves in its variables. *)
Lemma scan_files_spec (dir : string) (names : list string) (st : scan) (w w0 : World) :
  files w = files w0 → fault w = fault w0 → cwd w = cwd w0 →
  ∃ w',
    scan_files dir names st w
      = (w', Ret (mkScan (match reterr st with
                          | Some e => Some e
                          | None => snd <$> head (omap (parsed_error w0) (candidates dir names))
                          end)
                    (asgns st ++ omap (parsed_ok w0) (candidates dir names))
                    (printed st ++ omap (parsed_error w0) (candidates dir names)))) ∧
    files w' = files w0 ∧ locked w' = locked w ∧ cells w' = cells w.
Proof.
  revert st w. induction names as [|name names IH]; intros st w Hfiles Hfault Hcwd.
  { exists w. simpl. rewrite !app_nil_r. destruct st as [[e|] a p]; done. }
  rewrite candidates_cons.
  change (scan_files dir (name :: names) st w)
    with (match scan_file dir st name w with
          | (w', Panic x) => (w', Panic x)
          | (w', Ret st') => scan_files dir names st' w'
          end).
  unfold AssignmentFiles.scan_file.
  destruct (IgnoreFileAndLog (Join dir name)) eqn:Hig; simpl negb; cbv iota.
  { by apply IH. }
  destruct (ParseAssignmentFile_world (Join dir name) w) as (delta & Hw & _ & _).
  pose proof (parsed_same_disk w w0 (Join dir name) Hfiles Hfault Hcwd) as Hp.
  unfold AssignmentFiles.parsed at 1 in Hp.
  destruct (ParseAssignmentFile_Ret (Join dir name) w) as [r Hr].
  destruct (AssignmentFiles.ParseAssignmentFile _ _ _ _ (Join dir name) w) as [w1 r1].
  simpl in Hw, Hr, Hp. rewrite Hr in Hp. rewrite Hr. clear Hr.
  assert (files w1 = files w0 ∧ fault w1 = fault w0 ∧ cwd w1 = cwd w0 ∧
          locked w1 = locked w ∧ cells w1 = cells w) as (Hf1 & Hfa1 & Hc1 & Hl1 & Hce1)
    by (by rewrite Hw).
  assert (parsed_ok w0 (Join dir name) = match r with inr a => Some a | inl _ => None end)
    as Hok by (unfold AssignmentFiles.parsed_ok; fold parsed; rewrite <- Hp; by destruct r).
  assert (parsed_error w0 (Join dir name)
          = match r with inl e => Some (Join dir name, e) | inr _ => None end)
    as Herr by (unfold AssignmentFiles.parsed_error; fold parsed; rewrite <- Hp; by destruct r).
  rewrite !(list_omap_cons _ (Join dir name)), Hok, Herr.
  destruct r as [err|a].
  - destruct (IH (mkScan (match reterr st with None => Some err | Some e => Some e end)
                    (asgns st) (printed st ++ [(Join dir name, err)])) w1 Hf1 Hfa1 Hc1)
      as (w' & Hrun & Hf & Hl & Hce).
    exists w'. rewrite Hrun. simpl. rewrite <- app_assoc. simpl.
    split; [|by rewrite Hf, Hl, Hce, Hl1, Hce1].
    by destruct (reterr st).
  - destruct (IH (mkScan (reterr st) (asgns st ++ [a]) (printed st)) w1 Hf1 Hfa1 Hc1)
      as (w' & Hrun & Hf & Hl & Hce).
    exists w'. rewrite Hrun. simpl. rewrite <- app_assoc. simpl.
    split; [|by rewrite Hf, Hl, Hce, Hl1, Hce1].
    done.
Qed.

(** The codes of the assignments read are names of the directory, in the
    order of the directory. *)
Lemma parsed_codes_sublist (dir : string) (names : list string) (w : World) :
  (∀ name, name ∈ names → Base (Join dir name) = name) →
  Assignment_Code <$> omap (parsed_ok w) (candidates dir names) `sublist_of` names.
Proof.
  induction names as [|name names IH]; intros Hbase; [constructor|].
  assert (Assignment_Code <$> omap (parsed_ok w) (candidates dir names) `sublist_of` names)
    as Hrest by (apply IH; intros n Hn; apply Hbase; by right).
  rewrite candidates_cons. destruct (IgnoreFileAndLog (Join dir name)).
  { by constructor. }
  simpl. unfold AssignmentFiles.parsed_ok at 1, AssignmentFiles.parsed.
  destruct (snd (ParseAssignmentFile (Join dir name) w)) as [[err|a]|x] eqn:Hr;
    try by constructor.
  apply ParseAssignmentFile_name in Hr as [Hcode _].
  rewrite Hbase in Hcode by (by left). simpl. rewrite <- Hcode. by constructor.
Qed.

(** X22.  [ParseAssignmentFile] returns; it changes no file; it opens the
    file and, when that succeeds, reads it, and calls nothing else: the
    file is never closed.  An assignment it returns has passed
    [parseAssignment], its code is the base name of the path, and both the
    open and the read have succeeded. *)
Theorem ParseAssignmentFile_opens_and_reads (path : string) (w : World) :
  let q := resolve w path in
  let w' := fst (ParseAssignmentFile path w) in
  (∃ r, snd (ParseAssignmentFile path w) = Ret r) ∧
  files w' = files w ∧ locked w' = locked w ∧ cells w' = cells w ∧
  (∃ delta, trace w' = trace w ++ delta ∧
            ∀ op r, (op, r) ∈ delta → op = OpOpen q ∨ op = OpRead q) ∧
  ∀ a, snd (ParseAssignmentFile path w) = Ret (inr a) →
       Base path = Assignment_Code a ∧
       (∃ decoded, parseAssignment ValidateCode decoded = ok a) ∧
       trace w' = trace w ++ [(OpOpen q, None); (OpRead q, None)].
Proof.
  intros q w'. subst w'.
  destruct (ParseAssignmentFile_world path w) as (delta & Hw & Hdelta & Hok). fold q in Hdelta, Hok.
  split; [apply ParseAssignmentFile_Ret|]. rewrite Hw. simpl.
  split; [done|]. split; [done|]. split; [done|]. split.
  - exists delta. split; [done|]. intros op r Hin.
    destruct Hdelta as [[m ->]|[r' ->]]; set_unfold; destruct_or?; simplify_eq; auto.
  - intros a Ha. destruct (ParseAssignmentFile_name path w a Ha) as [Hcode Hdec].
    split; [done|]. split; [done|]. by rewrite (Hok a Ha).
Qed.

(** X23.  [ParseAllAssignmentFiles], when the directory can be read, goes
    through all its names and does not stop at a file that fails: it
    returns, in the order of the directory, the assignments of all the
    files that are not ignored and that [ParseAssignmentFile] accepts,
    together with the error of the first file that it refuses (nil when
    there is none), and prints the error of every file refused.  It changes
    no file. *)
Theorem ParseAllAssignmentFiles_collects (dir : string) (names : list string) (w : World) :
  ReadDir dir w = inr names →
  let paths := candidates dir names in
  ∃ w',
    AssignmentFiles.ParseAllAssignmentFiles ValidateCode Decode Error Base ReadDir
        IgnoreFileAndLog dir w
      = (w', Ret (omap (parsed_ok w) paths,
                  snd <$> head (omap (parsed_error w) paths),
                  omap (parsed_error w) paths)) ∧
    files w' = files w.
Proof.
  intros Hdir paths. unfold AssignmentFiles.ParseAllAssignmentFiles. rewrite Hdir.
  destruct (scan_files_spec dir names (mkScan None [] []) w w eq_refl eq_refl eq_refl)
    as (w' & Hrun & Hf & _).
  exists w'. by rewrite Hrun.
Qed.

(** X24.  The assignments [ParseAllAssignmentFiles] returns have the names
    of their files as codes: when the names of the directory are distinct
    and [filepath.Base] gives back the name joined to the directory, the
    codes returned are names of the directory and no two are the same. *)
Theorem ParseAllAssignmentFiles_distinct_codes (dir : string) (names : list string)
    (w w' : World) (found : list Assignment) (err : option ferror)
    (lines : list (string * ferror)) :
  ReadDir dir w = inr names →
  NoDup names →
  (∀ name, name ∈ names → Base (Join dir name) = name) →
  AssignmentFiles.ParseAllAssignmentFiles ValidateCode Decode Error Base ReadDir
      IgnoreFileAndLog dir w = (w', Ret (found, err, lines)) →
  NoDup (Assignment_Code <$> found) ∧
  ∀ a, a ∈ found → Assignment_Code a ∈ names.
Proof.
  intros Hdir Hnd Hbase. unfold AssignmentFiles.ParseAllAssignmentFiles. rewrite Hdir.
  destruct (scan_files_spec dir names (mkScan None [] []) w w eq_refl eq_refl eq_refl)
    as (w1 & Hrun & _).
  rewrite Hrun. simpl. intros [= _ <- _ _].
  pose proof (parsed_codes_sublist dir names w Hbase) as Hsub. split.
  - by apply (sublist_NoDup _ names).
  - intros a Ha. apply (sublist_submseteq _ _) in Hsub.
    eapply elem_of_submseteq; [|exact Hsub]. apply list_elem_of_fmap. by exists a.
Qed.

End Files.
End AssignmentFilesProofs.

(** * Commands fed by a template *)

Module TemplateProofs.
Import Template.

Section Run.
Context {Data Err St : Type}.
Context (LookPath : string → string).
Context (Execute : Data → Err + string).
Context (Environ : list string).
Context (Run : Cmd → St → St * option Err).

Abbreviation Entry := (@Entry Data).
Abbreviation build_from := (build_from LookPath Execute Environ).
Abbreviation build_out_from := (build_out_from LookPath Execute Environ).
Abbreviation run_from := (run_from Run).
Abbreviation planned := (planned (Data:=Data) LookPath Environ).
Abbreviation state_after := (state_after Run).
Abbreviation all_succeed := (all_succeed Run).

(** The first loop stops at the first entry whose template fails. *)
Lemma build_from_fails (cmd : string) (i : nat) (pre post : list Entry) (e : Entry)
    (err : Err) :
  Forall (fun x => ¬ template_fails Execute x) pre →
  Execute (Entry_Data e) = inl err →
  build_from cmd i (pre ++ e :: post) = inl (mkEntryError (i + length pre) e err).
Proof.
  intros Hpre He. revert i. induction Hpre as [|x pre Hx Hpre IH]; intros i; simpl.
  { unfold Command. rewrite He. by rewrite Nat.add_0_r. }
  unfold Command at 1. destruct (Execute (Entry_Data x)) as [err'|buf] eqn:Hx'.
  { destruct Hx. by exists err'. }
  rewrite IH. f_equal. f_equal. lia.
Qed.

(** When every template succeeds, the first loop builds one command for
    each entry. *)
Lemma build_from_succeeds (cmd : string) (i : nat) (entries : list Entry)
    (bufs : list string) :
  Forall2 (fun e buf => Execute (Entry_Data e) = inr buf) entries bufs →
  build_from cmd i entries = inr (zip_with (planned cmd) entries bufs).
Proof.
  intros H. revert i. induction H as [|e buf entries bufs He H IH]; intros i; [done|].
  simpl. unfold Command at 1. rewrite He, IH. done.
Qed.

(** The commands of the first loop have no output attached. *)
Lemma build_from_commands (cmd : string) (i : nat) (entries : list Entry) (cs : list Cmd) :
  build_from cmd i entries = inr cs →
  Forall (fun c => Cmd_Stdout c = None ∧ Cmd_Stderr c = None) cs.
Proof.
  revert i cs. induction entries as [|e entries IH]; intros i cs; simpl.
  { intros [= <-]. constructor. }
  unfold Command at 1. destruct (Execute (Entry_Data e)) as [err|buf]; [done|].
  destruct (build_from cmd (S i) entries) as [ee|cs'] eqn:Hrest; [done|].
  intros [= <-]. constructor; [done|]. by eapply IH.
Qed.

Lemma build_from_length (cmd : string) (i : nat) (entries : list Entry) (cs : list Cmd) :
  build_from cmd i entries = inr cs → length entries = length cs.
Proof.
  revert i cs. induction entries as [|e entries IH]; intros i cs; simpl.
  { by intros [= <-]. }
  destruct (Command _ _ _ _ _ _); [done|].
  destruct (build_from cmd (S i) entries) as [ee|cs'] eqn:Hrest; [done|].
  intros [= <-]. simpl. f_equal. by eapply IH.
Qed.

Lemma build_out_from_eq (cmd : string) (i : nat) (entries : list Entry) :
  build_out_from cmd i entries = build_from cmd i entries.
Proof.
  revert i. induction entries as [|e entries IH]; intros i; simpl; [done|].
  by rewrite IH.
Qed.

Lemma all_succeed_nil (s : St) : all_succeed [] s.
Proof. intros i c Hc. by rewrite lookup_nil in Hc. Qed.

Lemma all_succeed_cons (c : Cmd) (cs : list Cmd) (s : St) :
  snd (Run c s) = None → all_succeed cs (fst (Run c s)) → all_succeed (c :: cs) s.
Proof.
  intros Hc Hcs [|i] c' Hc'; simpl in Hc'.
  - by injection Hc' as <-.
  - by apply (Hcs i c').
Qed.

(** The second loop runs the commands in order, each in the state the one
    before has left, and stops at the first that fails. *)
Lemma run_from_spec (entries : list Entry) (i : nat) (cs : list Cmd) (m : Machine) :
  length entries = (i + length cs)%nat →
  ∃ j,
    (j ≤ length cs)%nat ∧
    fst (run_from entries i cs m) = (state_after (take j cs) m.1, m.2 ++ take j cs) ∧
    ((snd (run_from entries i cs m) = Ret None ∧ j = length cs ∧ all_succeed cs m.1) ∨
     (∃ k e c err,
        j = S k ∧ entries !! (i + k)%nat = Some e ∧ cs !! k = Some c ∧
        all_succeed (take k cs) m.1 ∧
        snd (Run c (state_after (take k cs) m.1)) = Some err ∧
        snd (run_from entries i cs m) = Ret (Some (mkEntryError (i + k) e err)))).
Proof.
  revert i m. induction cs as [|c cs IH]; intros i m Hlen.
  { exists 0%nat. split; [done|]. simpl. rewrite app_nil_r. split; [by destruct m|].
    left. split; [done|]. split; [done|]. apply all_succeed_nil. }
  simpl run_from. unfold Cmd_Run. destruct (Run c m.1) as [s' [err|]] eqn:Hrun.
  - simpl in Hlen. destruct (lookup_lt_is_Some_2 entries i) as [e He]; [lia|].
    rewrite He. exists 1%nat. split; [simpl; lia|]. split.
    { simpl. unfold Template.state_after. simpl. by rewrite Hrun. }
    right. exists 0%nat, e, c, err.
    rewrite Nat.add_0_r. split; [done|]. split; [done|]. split; [done|].
    split; [apply all_succeed_nil|]. split; [|done].
    simpl. unfold Template.state_after. simpl. by rewrite Hrun.
  - simpl in Hlen. destruct (IH (S i) (s', m.2 ++ [c])) as (j & Hj & Hfst & Hres); [lia|].
    assert (∀ l, state_after (c :: l) m.1 = state_after l s') as Hstep.
    { intros l. unfold Template.state_after. simpl. by rewrite Hrun. }
    assert (∀ l, all_succeed l s' → all_succeed (c :: l) m.1) as Hall.
    { intros l Hl. apply all_succeed_cons; by rewrite Hrun. }
    exists (S j). split; [simpl; lia|]. split.
    { rewrite Hfst. simpl take. rewrite Hstep. simpl. by rewrite <- app_assoc. }
    destruct Hres as [(Hnil & -> & Hok)|(k & e & c' & err & -> & He & Hc & Hok & Herr & Hres)].
    + left. split; [done|]. split; [done|]. by apply Hall.
    + right. exists (S k), e, c', err. rewrite <- Nat.add_succ_comm.
      split; [done|]. split; [done|]. split; [done|]. simpl take. rewrite Hstep.
      split; [by apply Hall|]. done.
Qed.

(** X25.  [RunAll] executes the template for every entry before it runs a
    command: when the template fails for some entry, [RunAll] runs no
    command at all, and returns the [EntryError] of the first entry whose
    template fails, with its index and its error. *)
Theorem RunAll_template_errors_first (cmd : string) (pre post : list Entry) (e : Entry)
    (err : Err) (m : Machine) :
  Forall (fun x => ¬ template_fails Execute x) pre →
  Execute (Entry_Data e) = inl err →
  RunAll LookPath Execute Environ Run cmd (pre ++ e :: post) m
    = (m, Ret (Some (mkEntryError (length pre) e err))).
Proof.
  intros Hpre He. unfold RunAll. by rewrite (build_from_fails cmd 0 pre post e err Hpre He).
Qed.

(** X26.  When the template succeeds for every entry, [RunAll] runs the
    commands of the entries in order, each in the state the one before has
    left (each with the path [exec.Command] gives the name, the name as its
    only argument, the environment of the process followed by the entry's,
    and the template's output as standard input), and stops at the first
    that fails.  Either every command returns nil, all have run, and
    [RunAll] returns nil; or some command returns an error while all the
    commands before it returned nil, that command is the last one run, and
    [RunAll] returns the [EntryError] with its index, its entry and its
    error.  The machine is left as the commands run have left it, and the
    index into the entries never panics. *)
Theorem RunAll_runs_in_order (cmd : string) (entries : list Entry) (bufs : list string)
    (m : Machine) :
  Forall2 (fun e buf => Execute (Entry_Data e) = inr buf) entries bufs →
  let cs := zip_with (planned cmd) entries bufs in
  let r := RunAll LookPath Execute Environ Run cmd entries m in
  ∃ j, fst r = (state_after (take j cs) m.1, m.2 ++ take j cs) ∧
       ((snd r = Ret None ∧ j = length entries ∧ all_succeed cs m.1) ∨
        (∃ k e c err,
           j = S k ∧ entries !! k = Some e ∧ cs !! k = Some c ∧
           all_succeed (take k cs) m.1 ∧
           snd (Run c (state_after (take k cs) m.1)) = Some err ∧
           snd r = Ret (Some (mkEntryError k e err)))).
Proof.
  intros Hall cs r. subst r. unfold RunAll.
  rewrite (build_from_succeeds cmd 0 entries bufs Hall). fold cs.
  assert (length cs = length entries) as Hlen.
  { unfold cs. rewrite length_zip_with. pose proof (Forall2_length _ _ _ Hall). lia. }
  destruct (run_from_spec entries 0 cs m) as (j & Hj & Hfst & Hres); [lia|].
  exists j. split; [done|].
  destruct Hres as [(Hnil & -> & Hok)|Hres]; [left; by rewrite Hlen|by right].
Qed.

(** X27.  [RunAllOut] calls [Command], not [CommandOut]: it does what
    [RunAll] does, and no command it runs has a standard output or a
    standard error attached, while a command built by [CommandOut] has
    both. *)
Theorem RunAllOut_attaches_no_output (cmd : string) (entries : list Entry) (m : Machine) :
  RunAllOut LookPath Execute Environ Run cmd entries m
    = RunAll LookPath Execute Environ Run cmd entries m ∧
  (∃ delta, (fst (RunAllOut LookPath Execute Environ Run cmd entries m)).2 = m.2 ++ delta ∧
            ∀ c, c ∈ delta → Cmd_Stdout c = None ∧ Cmd_Stderr c = None) ∧
  ∀ data env c, CommandOut LookPath Execute Environ cmd data env = inr c →
                Cmd_Stdout c = Some os_Stdout ∧ Cmd_Stderr c = Some os_Stderr.
Proof.
  split; [|split].
  - unfold RunAllOut, RunAll. by rewrite build_out_from_eq.
  - unfold RunAllOut. rewrite build_out_from_eq.
    destruct (build_from cmd 0 entries) as [ee|cs] eqn:Hb.
    { exists []. split; [by rewrite app_nil_r|]. by intros c Hc%elem_of_nil. }
    pose proof (build_from_commands cmd 0 entries cs Hb) as Hcs.
    pose proof (build_from_length cmd 0 entries cs Hb) as Hlen.
    destruct (run_from_spec entries 0 cs m) as (j & Hj & Hfst & _); [lia|].
    exists (take j cs). rewrite Hfst. split; [done|].
    intros c Hc. apply elem_of_take in Hc as (i & Hc & _).
    apply (proj1 (Forall_lookup _ _) Hcs i c Hc).
  - intros data env c. unfold CommandOut. destruct (Execute data); [done|].
    by intros [= <-].
Qed.

End Run.
End TemplateProofs.

(** * Handin directories *)

Module HandinProofs.
Import Handin.

(** A call of the loop that succeeded. *)
Abbreviation built := (fun cr : Call * option string => builds cr.1 ∧ cr.2 = None).

(** A run of calls of the loop: it injects no failure, and its log is made
    of calls that succeeded, followed, when it returns an error, by the
    call that failed, whose error it returns. *)
Abbreviation run_of w r :=
  (failure (fst r) = failure w ∧
   ∃ body, calls (fst r) = calls w ++ body ∧
     match snd r with
     | None => Forall built body
     | Some e => ∃ body' c m, body = body' ++ [(c, Some m)] ∧ Forall built body' ∧
                              builds c ∧ e = CallError c m
     end).

Section Paths.
Context (Join : string → string → string).

Abbreviation init_uids := (init_uids Join).
Abbreviation InitFaclHandin := (InitFaclHandin Join).
Abbreviation SaveFaclHandin := (SaveFaclHandin Join).
Abbreviation HandedIn := (HandedIn Join).

Lemma run_of_bind (w w1 : FS) (r : FS * option herror) :
  run_of w (w1, @None herror) → run_of w1 r → run_of w r.
Proof.
  simpl. intros (Hf1 & body1 & Hc1 & Hb1) (Hf & body & Hc & Hb).
  split; [congruence|]. exists (body1 ++ body). split; [by rewrite Hc, Hc1, app_assoc|].
  destruct (snd r) as [e|].
  - destruct Hb as (body' & c & m & -> & Hb' & Hc' & ->).
    exists (body1 ++ body'), c, m. split; [by rewrite app_assoc|].
    split; [by apply Forall_app|done].
  - by apply Forall_app.
Qed.

Lemma os_Mkdir_run (p mode : string) (w : FS) : run_of w (os_Mkdir p mode w).
Proof.
  unfold os_Mkdir. destruct (failure w _) as [m|]; [|destruct (nodes w !! p)]; simpl;
    (split; [done|]); eexists [_]; (split; [done|]).
  - by exists [], (CallMkdir p mode), m.
  - by exists [], (CallMkdir p mode), "file exists".
  - by repeat constructor.
Qed.

Lemma acl_Set_run (p : string) (a : list acl_entry) (w : FS) : run_of w (acl_Set p a w).
Proof.
  unfold acl_Set. destruct (failure w _) as [m|]; [|destruct (nodes w !! p)]; simpl;
    (split; [done|]); eexists [_]; (split; [done|]).
  - by exists [], (CallAclSet p a), m.
  - by repeat constructor.
  - by exists [], (CallAclSet p a), "no such file or directory".
Qed.

Lemma makeHandinFile_run (path uid : string) (w : FS) : run_of w (makeHandinFile path uid w).
Proof.
  unfold makeHandinFile, os_Create, failed.
  destruct (failure w (CallCreate path)) as [m|] eqn:Hf.
  { simpl. split; [done|]. eexists [_]. split; [done|]. by exists [], (CallCreate path), m. }
  assert (∀ n, run_of w (acl_Set path (file_acl uid)
                           (file_Close (Some path)
                              (logged (CallCreate path) None
                                 (set_nodes (<[path := n]> (nodes w)) w))))) as Hok.
  { intros n. apply (run_of_bind w (file_Close (Some path)
                       (logged (CallCreate path) None (set_nodes (<[path := n]> (nodes w)) w)))).
    - simpl. split; [done|]. eexists [_; _]. split; [by rewrite <- app_assoc|].
      by repeat constructor.
    - apply acl_Set_run. }
  destruct (nodes w !! path) as [[[|] mode a d]|]; simpl.
  - split; [done|]. eexists [_]. split; [done|].
    by exists [], (CallCreate path), "is a directory".
  - apply Hok.
  - apply Hok.
Qed.

Lemma init_uids_run (dir : string) (uids : list string) (w : FS) :
  run_of w (init_uids dir uids w).
Proof.
  revert w. induction uids as [|uid uids IH]; intros w.
  { simpl. split; [done|]. exists []. split; [by rewrite app_nil_r|constructor]. }
  simpl.
  pose proof (os_Mkdir_run (Join dir uid) "rwxrwx---" w) as H1.
  destruct (os_Mkdir (Join dir uid) "rwxrwx---" w) as [w1 [e|]]; [exact H1|].
  apply (run_of_bind w w1); [exact H1|].
  pose proof (acl_Set_run (Join dir uid) (dir_acl uid) w1) as H2.
  destruct (acl_Set (Join dir uid) (dir_acl uid) w1) as [w2 [e|]]; [exact H2|].
  apply (run_of_bind w1 w2); [exact H2|].
  pose proof (makeHandinFile_run (Join (Join dir uid) HandinFileName) uid w2) as H3.
  destruct (makeHandinFile (Join (Join dir uid) HandinFileName) uid w2) as [w3 [e|]];
    [exact H3|].
  apply (run_of_bind w2 w3); [exact H3|]. apply IH.
Qed.

(** X28.  The cleanup of [InitFaclHandin].  Its calls and its result are of
    one of four kinds: the [Mkdir] of the directory fails, and nothing else
    is called; the [Chmod] fails, nothing is removed and the directory
    stays behind; every call succeeds and nothing is removed; or a later
    call fails, [RemoveAll] of the directory is the last call made, and the
    error returned is the one of the call that failed, whatever [RemoveAll]
    answers.  When that [RemoveAll] succeeds nothing is left at or below
    the directory. *)
Theorem InitFaclHandin_cleanup (dir : string) (uids : list string) (w : FS) :
  let w' := fst (InitFaclHandin dir uids w) in
  ∃ delta,
    calls w' = calls w ++ delta ∧
    init_log dir delta (snd (InitFaclHandin dir uids w)) ∧
    (∀ m, delta = [(CallMkdir dir "rwxrwxr-x", None); (CallChmod dir "rwxrwxr-x", Some m)] →
          nodes w' = <[dir := mkNode Directory "rwxrwxr-x" None ""]> (nodes w)) ∧
    (∀ pre, delta = pre ++ [(CallRemoveAll dir, None)] →
            ∀ p, below dir p = true → nodes w' !! p = None).
Proof.
  intros w'. subst w'.
  destruct (InitFaclHandin dir uids w) as [w' err] eqn:Hrun. simpl. revert Hrun.
  unfold Handin.InitFaclHandin. unfold os_Mkdir at 1.
  destruct (failure w (CallMkdir dir "rwxrwxr-x")) as [m|] eqn:Hf1.
  { intros [= <- <-]. eexists [_]. split; [done|]. split; [constructor|]. split; [done|].
    intros pre Hpre. apply (f_equal (last)) in Hpre. rewrite last_snoc in Hpre. done. }
  destruct (nodes w !! dir) as [n|] eqn:Hdir.
  { intros [= <- <-]. eexists [_]. split; [done|]. split; [constructor|]. split; [done|].
    intros pre Hpre. apply (f_equal (last)) in Hpre. rewrite last_snoc in Hpre. done. }
  unfold os_Chmod at 1. simpl failure.
  destruct (failure w (CallChmod dir "rwxrwxr-x")) as [m|] eqn:Hf2.
  { intros [= <- <-]. simpl. eexists [_; _]. split; [by rewrite <- app_assoc|].
    split; [constructor|]. split; [done|].
    intros pre Hpre. apply (f_equal (last)) in Hpre. rewrite last_snoc in Hpre. done. }
  simpl nodes. rewrite lookup_insert_eq.
  match goal with |- context [init_uids dir uids ?w2] => remember w2 as w0 eqn:Hw0def end.
  assert (calls w0 = calls w ++ [(CallMkdir dir "rwxrwxr-x", None);
                                 (CallChmod dir "rwxrwxr-x", None)]) as Hw0
    by (rewrite Hw0def; simpl; by rewrite <- app_assoc).
  assert (failure w0 = failure w) as Hfw0 by (by rewrite Hw0def).
  clear Hw0def.
  pose proof (init_uids_run dir uids w0) as (Hfail & body & Hcalls & Hbody).
  destruct (init_uids dir uids w0) as [w3 err3].
  simpl in Hfail, Hcalls, Hbody.
  destruct err3 as [e|].
  - destruct Hbody as (body' & c & m & -> & Hb' & Hc & ->).
    unfold os_RemoveAll. rewrite Hfail, Hfw0.
    destruct (failure w (CallRemoveAll dir)) as [mr|] eqn:Hf3; intros [= <- <-]; simpl.
    + eexists. split; [by rewrite Hcalls, Hw0, <- !app_assoc|].
      split; [by apply (il_removed dir body' c m (Some mr))|]. split.
      * intros m' Heq. apply (f_equal length) in Heq. simpl in Heq.
        rewrite !length_app in Heq. simpl in Heq. lia.
      * intros pre Hpre. apply (f_equal last) in Hpre.
        rewrite last_snoc in Hpre.
        rewrite (app_assoc _ body'), (app_assoc _ [(c, Some m)]) in Hpre.
        by rewrite last_snoc in Hpre.
    + eexists. split; [by rewrite Hcalls, Hw0, <- !app_assoc|].
      split; [by apply (il_removed dir body' c m None)|]. split.
      * intros m' Heq. apply (f_equal length) in Heq. simpl in Heq.
        rewrite !length_app in Heq. simpl in Heq. lia.
      * intros _ _ p Hp. apply map_lookup_filter_None. right. intros x _. simpl.
        by rewrite Hp.
  - intros [= <- <-]. exists ([(CallMkdir dir "rwxrwxr-x", None);
                              (CallChmod dir "rwxrwxr-x", None)] ++ body).
    split; [by rewrite Hcalls, Hw0, <- !app_assoc|].
    split; [by constructor|]. split.
    + intros m' Heq. simpl in Heq. discriminate Heq.
    + intros pre Hpre p Hp. exfalso.
      assert ((CallRemoveAll dir, @None string) ∈
              [(CallMkdir dir "rwxrwxr-x", None); (CallChmod dir "rwxrwxr-x", None)] ++ body)
        as Hin by (rewrite Hpre; set_solver).
      apply elem_of_app in Hin as [Hin|Hin]; [set_solver|].
      by destruct (proj1 (Forall_forall _ _) Hbody _ Hin) as [Hb _].
Qed.

(** An empty handin file stays one through the calls of the loop. *)
Lemma os_Mkdir_keeps (p mode : string) (w : FS) (q : string) :
  empty_file w q → empty_file (fst (os_Mkdir p mode w)) q.
Proof.
  unfold os_Mkdir, empty_file. destruct (failure w _); [done|].
  destruct (nodes w !! p) eqn:Hp; [done|]. simpl.
  intros (n & Hn & Hk & Hd). exists n. rewrite lookup_insert_ne by congruence. done.
Qed.

Lemma acl_Set_keeps (p : string) (a : list acl_entry) (w : FS) (q : string) :
  empty_file w q → empty_file (fst (acl_Set p a w)) q.
Proof.
  unfold acl_Set, empty_file. destruct (failure w _); [done|].
  destruct (nodes w !! p) as [n0|] eqn:Hp; [|done]. simpl.
  intros (n & Hn & Hk & Hd). destruct (decide (p = q)) as [->|Hne].
  - rewrite lookup_insert_eq. eexists. split; [done|]. simpl. by simplify_eq.
  - exists n. by rewrite lookup_insert_ne.
Qed.

Lemma os_Create_keeps (p : string) (w : FS) (q : string) :
  empty_file w q → empty_file (fst (os_Create p w)) q.
Proof.
  unfold os_Create, empty_file, failed. destruct (failure w _); [done|].
  intros (n & Hn & Hk & Hd). destruct (decide (p = q)) as [->|Hne].
  - rewrite Hn. destruct n as [[|] mode a d]; simpl in *; [done|].
    rewrite lookup_insert_eq. by eexists.
  - destruct (nodes w !! p) as [[[|] mode a d]|]; simpl; [by exists n|..];
      exists n; by rewrite lookup_insert_ne.
Qed.

Lemma file_Close_nodes (f : option string) (w : FS) : nodes (file_Close f w) = nodes w.
Proof. by destruct f. Qed.

Lemma makeHandinFile_keeps (path uid : string) (w : FS) (q : string) :
  empty_file w q → empty_file (fst (makeHandinFile path uid w)) q.
Proof.
  intros Hq. unfold makeHandinFile.
  pose proof (os_Create_keeps path w q Hq) as H1.
  destruct (os_Create path w) as [w1 [f [e|]]]; simpl in *.
  - unfold empty_file. by rewrite file_Close_nodes.
  - apply acl_Set_keeps. unfold empty_file. by rewrite file_Close_nodes.
Qed.

(** A handin file just made is empty and carries the ACL of its student. *)
Lemma makeHandinFile_makes (path uid : string) (w w' : FS) :
  makeHandinFile path uid w = (w', None) →
  empty_file w' path ∧ ∃ n, nodes w' !! path = Some n ∧ node_acl n = Some (file_acl uid).
Proof.
  unfold makeHandinFile, os_Create, failed. destruct (failure w (CallCreate path)); [done|].
  assert (∀ n0 w0, node_kind n0 = Regular → node_data n0 = "" →
            acl_Set path (file_acl uid)
              (file_Close (Some path)
                 (logged (CallCreate path) None (set_nodes (<[path := n0]> (nodes w)) w)))
            = (w0, None) →
            empty_file w0 path ∧
            ∃ n, nodes w0 !! path = Some n ∧ node_acl n = Some (file_acl uid)) as Hset.
  { intros n0 w0 Hk Hd. unfold acl_Set. simpl. destruct (failure w _); [done|].
    rewrite lookup_insert_eq. intros [= <-].
    split; eexists; (split; [apply lookup_insert_eq|]); simpl; done. }
  destruct (nodes w !! path) as [[[|] mode a d]|]; simpl; [done|by apply Hset..].
Qed.

Lemma init_uids_keeps (dir : string) (uids : list string) (w : FS) (q : string) :
  empty_file w q → empty_file (fst (init_uids dir uids w)) q.
Proof.
  revert w. induction uids as [|uid uids IH]; intros w Hq; [done|]. simpl.
  pose proof (os_Mkdir_keeps (Join dir uid) "rwxrwx---" w q Hq) as H1.
  destruct (os_Mkdir (Join dir uid) "rwxrwx---" w) as [w1 [e|]]; [done|].
  pose proof (acl_Set_keeps (Join dir uid) (dir_acl uid) w1 q H1) as H2.
  destruct (acl_Set (Join dir uid) (dir_acl uid) w1) as [w2 [e|]]; [done|].
  pose proof (makeHandinFile_keeps (Join (Join dir uid) HandinFileName) uid w2 q H2) as H3.
  destruct (makeHandinFile (Join (Join dir uid) HandinFileName) uid w2) as [w3 [e|]]; [done|].
  by apply IH.
Qed.

Lemma init_uids_makes (dir : string) (uids : list string) (w w' : FS) :
  init_uids dir uids w = (w', None) →
  ∀ uid, uid ∈ uids → empty_file w' (Join (Join dir uid) HandinFileName).
Proof.
  revert w. induction uids as [|u uids IH]; intros w Hrun uid Hin.
  { by apply elem_of_nil in Hin. }
  simpl in Hrun.
  destruct (os_Mkdir (Join dir u) "rwxrwx---" w) as [w1 [e|]]; [done|].
  destruct (acl_Set (Join dir u) (dir_acl u) w1) as [w2 [e|]]; [done|].
  destruct (makeHandinFile (Join (Join dir u) HandinFileName) u w2) as [w3 [e|]] eqn:Hmk;
    [done|].
  apply elem_of_cons in Hin as [->|Hin].
  - apply makeHandinFile_makes in Hmk as [Hempty _].
    pose proof (init_uids_keeps dir uids w3 _ Hempty) as Hkeep. by rewrite Hrun in Hkeep.
  - by eapply IH.
Qed.

Lemma HandedIn_empty (dir uid : string) (w : FS) :
  let p := Join (Join dir uid) HandinFileName in
  empty_file w p → failure w (CallOpen p) = None → failure w (CallSeek p) = None →
  snd (HandedIn dir uid w) = (false, None).
Proof.
  intros p (n & Hn & Hk & Hd) Hopen Hseek. unfold Handin.HandedIn, os_Open, file_Seek_end. fold p.
  rewrite Hopen, Hn. simpl. rewrite Hseek, Hn. simpl. by rewrite Hd.
Qed.

(** X29.  [InitFaclHandin] and then [HandedIn].  After [InitFaclHandin] has
    returned nil, in every later world with the same files, [HandedIn]
    answers [false] without an error for every UID given, unless its open
    or its seek fails: nobody has handed in. *)
Theorem InitFaclHandin_then_HandedIn (dir : string) (uids : list string) (w w' : FS) :
  InitFaclHandin dir uids w = (w', None) →
  ∀ uid, uid ∈ uids →
  ∀ w2, nodes w2 = nodes w' →
        failure w2 (CallOpen (Join (Join dir uid) HandinFileName)) = None →
        failure w2 (CallSeek (Join (Join dir uid) HandinFileName)) = None →
        snd (HandedIn dir uid w2) = (false, None).
Proof.
  unfold Handin.InitFaclHandin.
  destruct (os_Mkdir dir "rwxrwxr-x" w) as [w1 [e|]]; [done|].
  destruct (os_Chmod dir "rwxrwxr-x" w1) as [w2' [e|]]; [done|].
  destruct (init_uids dir uids w2') as [w3 [e|]] eqn:Hloop; [done|].
  intros [= <-] uid Hin w2 Hnodes Hopen Hseek.
  apply HandedIn_empty; [|done..].
  unfold empty_file. rewrite Hnodes. by eapply init_uids_makes.
Qed.

(** X30.  [SaveFaclHandin] on a handin file that is there, once its rename
    has succeeded.  When the save path and the handin path are two paths,
    the handin is saved: the file it was is at the save path, whatever
    happens next; when the creation of the new handin file fails, an error
    is returned and there is no handin file any more, the rename is not
    undone.  When [SaveFaclHandin] returns nil, the handin path holds an
    empty file with the student's write ACL, and [HandedIn] answers [false]
    again; so when the two paths are one path, a nil result means that the
    save path holds that empty file and what was handed in is lost. *)
Theorem SaveFaclHandin_moves (handinDir saveDir uid : string) (w : FS) (n : node) :
  let old := Join (Join handinDir uid) HandinFileName in
  let new := Join saveDir (uid +:+ ".tgz") in
  let r := SaveFaclHandin handinDir saveDir uid w in
  nodes w !! old = Some n →
  failure w (CallRename old new) = None →
  (old ≠ new →
   nodes (fst r) !! new = Some n ∧
   (is_Some (failure w (CallCreate old)) →
    is_Some (snd r) ∧ nodes (fst r) !! old = None)) ∧
  (snd r = None →
   empty_file (fst r) old ∧
   (∃ n', nodes (fst r) !! old = Some n' ∧ node_acl n' = Some (file_acl uid)) ∧
   ∀ w2, nodes w2 = nodes (fst r) →
         failure w2 (CallOpen old) = None → failure w2 (CallSeek old) = None →
         snd (HandedIn handinDir uid w2) = (false, None)) ∧
  (old = new → snd r = None → empty_file (fst r) new).
Proof.
  intros old new r Hold Hrename. subst r.
  unfold Handin.SaveFaclHandin, os_Rename. fold old new. rewrite Hrename, Hold.
  set (w1 := logged _ _ _).
  assert (nodes w1 !! new = Some n) as Hnew by (simpl; apply lookup_insert_eq).
  assert (old ≠ new → nodes w1 !! old = None) as Hgone
    by (intros Hne; simpl; rewrite lookup_insert_ne by done; apply lookup_delete_eq).
  assert (failure w1 = failure w) as Hfail by done.
  clearbody w1.
  destruct (makeHandinFile old uid w1) as [w' err] eqn:Hmk. simpl.
  assert (err = None →
          empty_file w' old ∧
          (∃ n', nodes w' !! old = Some n' ∧ node_acl n' = Some (file_acl uid)) ∧
          ∀ w2, nodes w2 = nodes w' →
                failure w2 (CallOpen old) = None → failure w2 (CallSeek old) = None →
                snd (HandedIn handinDir uid w2) = (false, None)) as Hnil.
  { intros ->. destruct (makeHandinFile_makes old uid w1 w' Hmk) as [Hempty Hacl].
    split; [done|]. split; [done|].
    intros w2 Hnodes Hopen Hseek. apply HandedIn_empty; [|done..].
    unfold empty_file. by rewrite Hnodes. }
  split; [|split].
  - intros Hne. specialize (Hgone Hne). split.
    + revert Hmk. unfold makeHandinFile, os_Create, failed, acl_Set. rewrite Hgone.
      destruct (failure w1 (CallCreate old)); [by intros [= <- <-]|]. simpl.
      destruct (failure w1 (CallAclSet old (file_acl uid))); [|rewrite lookup_insert_eq];
        intros [= <- <-]; simpl; by rewrite ?lookup_insert_ne by done.
    + intros [m Hm]. revert Hmk. unfold makeHandinFile, os_Create, failed.
      rewrite Hfail, Hm. intros [= <- <-]. by split; [eexists|].
  - exact Hnil.
  - intros Heq Herr. rewrite <- Heq. by destruct (Hnil Herr) as [Hempty _].
Qed.

End Paths.

End HandinProofs.

(** * The properties at work on the sample roster *)

Module RosterExamples.
Import Roster.

Lemma relative_path_rejected_witness :
  IsAbs "relative/dir" = false ∧
  Open ["x"] "relative/dir" empty_world
    = (empty_world, (["x"], Ret (None, Some ErrNeedAbsPath))) ∧
  Init ver rev (Some []) "relative/dir" empty_world = (empty_world, Some ErrNeedAbsPath).
Proof.
  split; [reflexivity|].
  apply (relative_path_rejected ver rev ["x"] (Some []) "relative/dir" empty_world).
  reflexivity.
Defined.

Lemma Open_lock_outcomes_witness :
  IsAbs dir = true ∧
  fault busy (OpLockNew (Join dir DBLockFileName)) = None ∧
  snd (Lock_TryLockN (mkLock (Join dir DBLockFileName)) 3 30 busy) = inr false ∧
  Open ["x"] dir busy
    = (fst (Lock_TryLockN (mkLock (Join dir DBLockFileName)) 3 30 busy),
       (["x"], Ret (None, Some ErrLockFailed))).
Proof.
  split; [reflexivity|]. split; [reflexivity|]. split; [vm_compute; reflexivity|].
  apply (Open_lock_outcomes ["x"] dir busy
           (fst (Lock_TryLockN (mkLock (Join dir DBLockFileName)) 3 30 busy))
           (inr false)).
  - reflexivity.
  - reflexivity.
  - vm_compute. reflexivity.
Defined.

(** An I/O error of the acquisition is returned under its context. *)
Example Open_lock_io_error :
  snd (snd (Open ["x"] dir (failing (OpTryLock "/tmp/c1/lock") initialized)))
  = Ret (None, Some (Errorf "acquire lock"
                       (SysErr (OpTryLock "/tmp/c1/lock") "input/output error"))).
Proof. vm_compute. reflexivity. Qed.

Lemma Open_failure_releases_lock_witness :
  IsAbs dir = true ∧
  fault empty_world (OpLockNew (Join dir DBLockFileName)) = None ∧
  snd (Lock_TryLockN (mkLock (Join dir DBLockFileName)) 3 30 empty_world) = inr true ∧
  snd (Open ["x"] dir empty_world) = (["x"], Ret (None, Some (NotExist "/tmp/c1/data"))) ∧
  trace (fst (Open ["x"] dir empty_world))
    = [(OpTryLock "/tmp/c1/lock", None);
       (OpOpen "/tmp/c1/data", Some "no such file or directory");
       (OpUnlock "/tmp/c1/lock", None)] ∧
  Join dir DBLockFileName ∉ locked (fst (Open ["x"] dir empty_world)).
Proof.
  split; [reflexivity|]. split; [reflexivity|]. split; [vm_compute; reflexivity|].
  split; [vm_compute; reflexivity|]. split; [vm_compute; reflexivity|].
  refine (proj1 (proj2 (proj2 (proj2 (proj2
    (Open_failure_releases_lock ["x"] ["x"] dir empty_world
       (fst (Lock_TryLockN (mkLock (Join dir DBLockFileName)) 3 30 empty_world))
       (fst (Open ["x"] dir empty_world)) None (NotExist "/tmp/c1/data")
       _ _ _ _)))) _)); try reflexivity; vm_compute; reflexivity.
Defined.

Lemma committer_second_call_panics_witness :
  let first := commit ver rev tx (Some ["u1"]) opened in
  Open [] dir initialized = (opened, ([], Ret (Some tx, None))) ∧
  cells opened !! c_done tx = Some 0 ∧
  (∃ err, snd first = Ret err) ∧
  commit ver rev tx (Some ["u2"]) (fst first)
    = (fst first, Panic (PanicString "db: Committer called twice")) ∧
  commit ver rev tx None (fst first)
    = (fst first, Panic (PanicString "db: Committer called twice")).
Proof.
  intros first.
  assert (Hopen : Open [] dir initialized = (opened, ([], Ret (Some tx, None))))
    by (vm_compute; reflexivity).
  destruct (committer_second_call_panics ver rev [] [] dir initialized opened tx Hopen)
    as [Hzero Hcalls].
  destruct (Hcalls opened (Some ["u1"]) Hzero) as [Hret Hlater].
  split; [exact Hopen|]. split; [exact Hzero|]. split; [exact Hret|].
  split; apply Hlater; reflexivity.
Defined.

Lemma commit_writes_syncs_renames_unlocks_witness :
  Open [] dir initialized = (opened, ([], Ret (Some tx, None))) ∧
  cells opened !! c_done tx = Some 0 ∧
  ∃ w' err delta u,
    commit ver rev tx (Some ["u1"]) opened = (w', Ret err) ∧
    trace w' = trace opened ++ delta ++ [(OpUnlock "/tmp/c1/lock", u)] ∧
    write_log "/tmp/c1/data.tmp" "/tmp/c1/data" delta ∧
    (¬ write_path_fails dir ["u1"] opened →
     delta = full_write_log "/tmp/c1/data.tmp" "/tmp/c1/data" ∧
     files w' !! "/tmp/c1/data.tmp" = None).
Proof.
  split; [vm_compute; reflexivity|]. split; [reflexivity|].
  destruct (commit_writes_syncs_renames_unlocks ver rev [] [] ["u1"] dir
              initialized opened opened tx)
    as (w' & err & delta & u & Hrun & Htr & Hlog & _ & _ & Hok).
  - vm_compute. reflexivity.
  - reflexivity.
  - exists w', err, delta, u. split; [exact Hrun|]. split; [exact Htr|].
    split; [exact Hlog|]. intros Hnf. destruct (Hok Hnf) as (Hd & _ & Htmp & _).
    split; [exact Hd|exact Htmp].
Defined.

(** The whole run, failure free. *)
Example commit_run :
  snd (commit ver rev tx (Some ["u1"]) opened) = Ret None ∧
  files (fst (commit ver rev tx (Some ["u1"]) opened)) !! "/tmp/c1/data"
    = Some (mkFile (Some (JObj [("Version", JStr "0.1"); ("Commit", JStr "4f2a");
                                ("UID", JStr "501"); ("Time", JStr "T1000");
                                ("DB", JObj [("students", JArr [JStr "u1"])])])) true) ∧
  elements (locked (fst (commit ver rev tx (Some ["u1"]) opened))) = [].
Proof. vm_compute. done. Qed.

Lemma commit_failure_keeps_document_witness :
  let w := failing (OpSync "/tmp/c1/data.tmp") opened in
  Open [] dir initialized = (opened, ([], Ret (Some tx, None))) ∧
  cells w !! c_done tx = Some 0 ∧
  write_path_fails dir ["u1"] w ∧
  ∃ w' e pre u,
    commit ver rev tx (Some ["u1"]) w = (w', Ret (Some e)) ∧
    files w' !! "/tmp/c1/data" = files w !! "/tmp/c1/data" ∧
    trace w' = trace w ++ pre ++ [(OpUnlock "/tmp/c1/lock", u)].
Proof.
  intros w.
  assert (Hopen : Open [] dir initialized = (opened, ([], Ret (Some tx, None))))
    by (vm_compute; reflexivity).
  assert (Hcell : cells w !! c_done tx = Some 0) by reflexivity.
  assert (Hfails : write_path_fails dir ["u1"] w).
  { right. right. right. left. vm_compute. eexists. reflexivity. }
  split; [exact Hopen|]. split; [exact Hcell|]. split; [exact Hfails|].
  destruct (commit_failure_keeps_document ver rev [] [] ["u1"] dir initialized opened w tx
              Hopen Hcell Hfails)
    as (w' & e & pre & u & Hrun & _ & Hdb & _ & Htr & _).
  exists w', e, pre, u. split; [exact Hrun|]. split; [exact Hdb|exact Htr].
Defined.

Lemma commit_unlock_error_reporting_witness :
  let w := failing (OpUnlock "/tmp/c1/lock") opened in
  let w1 := fst (CompareAndSwapUint32 (c_done tx) 0 1 w) in
  let w2 := fst (commit_body ver rev tx (Some ["u1"]) w1) in
  let w3 := fst (Lock_Unlock (c_lock tx) w2) in
  CompareAndSwapUint32 (c_done tx) 0 1 w = (w1, true) ∧
  commit_body ver rev tx (Some ["u1"]) w1 = (w2, None) ∧
  Lock_Unlock (c_lock tx) w2
    = (w3, Some (SysErr (OpUnlock "/tmp/c1/lock") "input/output error")) ∧
  commit ver rev tx (Some ["u1"]) w
    = (w3, Ret (Some (Errorf "release lock"
                        (SysErr (OpUnlock "/tmp/c1/lock") "input/output error")))).
Proof.
  intros w w1 w2 w3.
  assert (H1 : CompareAndSwapUint32 (c_done tx) 0 1 w = (w1, true)) by reflexivity.
  assert (H2 : commit_body ver rev tx (Some ["u1"]) w1 = (w2, None))
    by (vm_compute; reflexivity).
  assert (H3 : Lock_Unlock (c_lock tx) w2
               = (w3, Some (SysErr (OpUnlock "/tmp/c1/lock") "input/output error")))
    by (vm_compute; reflexivity).
  split; [exact H1|]. split; [exact H2|]. split; [exact H3|].
  exact (commit_unlock_error_reporting ver rev tx (Some ["u1"]) w w1 w2 w3 None _ H1 H2 H3).
Defined.

Lemma Init_then_Read_unmarshals_witness :
  let payload := JObj [("students", JArr [JStr "u1"])] in
  IsAbs dir = true ∧
  json_Marshal ["u1"] = inr payload ∧
  (∀ z, is_Some (parse_time (format_time z))) ∧
  snd (Init ver rev (Some ["u1"]) dir empty_world) = None ∧
  snd (Read [] dir (fst (Init ver rev (Some ["u1"]) dir empty_world))) = (["u1"], None).
Proof.
  intros payload.
  assert (Htime : ∀ z, is_Some (parse_time (format_time z))) by (intros z; by eexists).
  assert (Hm : json_Marshal ["u1"] = inr payload) by reflexivity.
  split; [reflexivity|]. split; [exact Hm|]. split; [exact Htime|].
  destruct (Init_then_Read_unmarshals ver rev ["u1"] [] dir empty_world payload eq_refl Hm
              Htime eq_refl eq_refl eq_refl)
    as (Hinit & Hread & _).
  split; [exact Hinit|].
  destruct (Hread (fst (Init ver rev (Some ["u1"]) dir empty_world)) eq_refl eq_refl eq_refl)
    as [Hgot _].
  exact Hgot.
Defined.

Lemma Init_overwrites_in_place_witness :
  let old := mkFile (Some (JObj [("Version", JStr "0.1"); ("Commit", JStr "4f2a");
                                 ("UID", JStr "501"); ("Time", JStr "T1000");
                                 ("DB", JObj [("students", JArr [])])])) true in
  IsAbs dir = true ∧
  files busy !! Join dir DBFileName = Some old ∧
  Join dir DBLockFileName ∈ locked busy ∧
  snd (Init ver rev (Some ["u9"]) dir busy) = None ∧
  files (fst (Init ver rev (Some ["u9"]) dir busy)) !! Join dir DBFileName
    = Some (mkFile (Some (envelope ver rev busy (JObj [("students", JArr [JStr "u9"])]))) true) ∧
  locked (fst (Init ver rev (Some ["u9"]) dir busy)) = locked busy.
Proof.
  intros old.
  assert (Hold : files busy !! Join dir DBFileName = Some old) by (vm_compute; reflexivity).
  split; [reflexivity|]. split; [exact Hold|]. split; [vm_compute; set_solver|].
  destruct (Init_overwrites_in_place ver rev (Some ["u9"]) dir busy old eq_refl Hold)
    as (Hlocked & _ & _ & _ & _ & Hok & _).
  destruct (Hok eq_refl eq_refl eq_refl (JObj [("students", JArr [JStr "u9"])]) eq_refl)
    as [Herr Hfile].
  split; [exact Herr|]. split; [exact Hfile|exact Hlocked].
Defined.


(** The scenario of the spec: the directory holds an empty roster; A opens
    it; B, opening before A commits, is told the lock is taken; A commits a
    roster with one student; B then opens and reads that roster. *)
Example scenario :
  let a_open := Open [] dir initialized in
  let b_early := Open [] dir (fst a_open) in
  let a_commit := commit ver rev tx (Some ["u1"]) (fst b_early) in
  let b_late := Open [] dir (fst a_commit) in
  snd (snd a_open) = Ret (Some tx, None) ∧
  snd (snd b_early) = Ret (None, Some ErrLockFailed) ∧
  snd a_commit = Ret None ∧
  fst (snd b_late) = ["u1"] ∧
  snd (snd b_late) = Ret (Some (mkCommitter (c_lock tx) (c_path tx) (c_dbpath tx) 1), None).
Proof. vm_compute. done. Qed.

(** The relative read finds the document of the working directory. *)
Example Read_relative_run :
  snd (Read ["x"] "c1" (set_cwd "/tmp" initialized)) = ([], None) ∧
  snd (Read ["x"] "c1" initialized)
    = (["x"], Some (NotExist "/home/ta/c1/data")).
Proof. vm_compute. done. Qed.

End RosterExamples.

(** * A target that already holds entries *)

Module GradesExamples.
Import Roster Grades.

(** [Init] with the empty map and then [Read] into a map that holds an
    entry: both return nil, and the target still holds its entry; it is
    not the value written. *)
Lemma Init_then_Read_keeps_target_entries :
  let v : grades := [] in
  let t : grades := [("old", 1)] in
  let w1 := fst (Init ver rev (Some v) dir empty_world) in
  IsAbs dir = true ∧
  json_Marshal v = inr (JObj []) ∧
  snd (Init ver rev (Some v) dir empty_world) = None ∧
  snd (Read t dir w1) = ([("old", 1)], None) ∧
  [("old", 1)] ≠ v.
Proof. vm_compute. split_and!; try reflexivity. discriminate. Qed.

End GradesExamples.

(** * Whole transactions on the sample roster *)

Module TransactionExamples.
Import Roster.

Lemma commit_nil_closes_witness :
  Open [] dir initialized = (opened, ([], Ret (Some tx, None))) ∧
  cells opened !! c_done tx = Some 0 ∧
  ∃ w' u,
    commit ver rev tx None opened
      = (w', Ret ((λ m, Errorf "release lock" (SysErr (OpUnlock "/tmp/c1/lock") m)) <$> u)) ∧
    files w' = files opened ∧
    trace w' = trace opened ++ [(OpUnlock "/tmp/c1/lock", u)].
Proof.
  assert (Hopen : Open [] dir initialized = (opened, ([], Ret (Some tx, None))))
    by (vm_compute; reflexivity).
  assert (Hcell : cells opened !! c_done tx = Some 0) by reflexivity.
  split; [exact Hopen|]. split; [exact Hcell|].
  destruct (commit_nil_closes ver rev [] [] dir initialized opened opened tx Hopen Hcell)
    as (w' & u & Hrun & Hfiles & Htrace & _).
  exists w', u. split; [exact Hrun|]. split; [exact Hfiles|exact Htrace].
Defined.

Lemma Open_excluded_while_locked_witness :
  IsAbs dir = true ∧
  Join dir DBLockFileName ∈ locked busy ∧
  snd (Open ["x"] dir busy) = (["x"], Ret (None, Some ErrLockFailed)) ∧
  files (fst (Open ["x"] dir busy)) = files busy ∧
  locked (fst (Open ["x"] dir busy)) = locked busy.
Proof.
  assert (Hin : Join dir DBLockFileName ∈ locked busy) by (vm_compute; set_solver).
  split; [reflexivity|]. split; [exact Hin|].
  destruct (Open_excluded_while_locked ["x"] dir busy eq_refl Hin eq_refl eq_refl)
    as (Hres & Hfiles & Hlocked & _).
  split; [exact Hres|]. split; [exact Hfiles|exact Hlocked].
Defined.

Lemma commit_then_Read_witness :
  let payload := JObj [("students", JArr [JStr "u1"])] in
  let w' := fst (commit ver rev tx (Some ["u1"]) opened) in
  Open [] dir initialized = (opened, ([], Ret (Some tx, None))) ∧
  cells opened !! c_done tx = Some 0 ∧
  ¬ write_path_fails dir ["u1"] opened ∧
  json_Marshal ["u1"] = inr payload ∧
  json_Unmarshal payload ["old"] = (["u1"], None) ∧
  snd (Read ["old"] dir w') = (["u1"], None).
Proof.
  intros payload w'.
  assert (Hopen : Open [] dir initialized = (opened, ([], Ret (Some tx, None))))
    by (vm_compute; reflexivity).
  assert (Hcell : cells opened !! c_done tx = Some 0) by reflexivity.
  assert (Hok : ¬ write_path_fails dir ["u1"] opened).
  { intros [H|[H|[H|[H|H]]]]; vm_compute in H; destruct H as [x H]; discriminate H. }
  split; [exact Hopen|]. split; [exact Hcell|]. split; [exact Hok|].
  split; [reflexivity|]. split; [reflexivity|].
  apply (commit_then_Read ver rev [] [] ["old"] ["u1"] dir initialized opened opened tx payload
           Hopen Hcell Hok eq_refl eq_refl (ex_intro _ 0 eq_refl) w' eq_refl);
    reflexivity.
Defined.

Lemma commit_then_Open_witness :
  let payload := JObj [("students", JArr [JStr "u1"])] in
  let w' := fst (commit ver rev tx (Some ["u1"]) opened) in
  Open [] dir initialized = (opened, ([], Ret (Some tx, None))) ∧
  cells opened !! c_done tx = Some 0 ∧
  ¬ write_path_fails dir ["u1"] opened ∧
  Join dir DBLockFileName ∈ locked opened ∧
  ∃ c2, snd (Open ["old"] dir w') = (["u1"], Ret (Some c2, None)) ∧
        c_done c2 ≠ c_done tx ∧
        cells (fst (Open ["old"] dir w')) !! c_done c2 = Some 0 ∧
        cells (fst (Open ["old"] dir w')) !! c_done tx = Some 1.
Proof.
  intros payload w'.
  assert (Hopen : Open [] dir initialized = (opened, ([], Ret (Some tx, None))))
    by (vm_compute; reflexivity).
  assert (Hcell : cells opened !! c_done tx = Some 0) by reflexivity.
  assert (Hok : ¬ write_path_fails dir ["u1"] opened).
  { intros [H|[H|[H|[H|H]]]]; vm_compute in H; destruct H as [x H]; discriminate H. }
  assert (Hin : Join dir DBLockFileName ∈ locked opened) by (vm_compute; set_solver).
  split; [exact Hopen|]. split; [exact Hcell|]. split; [exact Hok|]. split; [exact Hin|].
  destruct (commit_then_Open ver rev [] [] ["old"] ["u1"] dir initialized opened opened tx
              payload Hopen Hcell Hok eq_refl eq_refl (ex_intro _ 0 eq_refl) Hin
              eq_refl eq_refl eq_refl eq_refl eq_refl)
    as (c2 & Hres & Hne & Hnew & Hold & _).
  exists c2. split; [exact Hres|]. split; [exact Hne|]. split; [exact Hnew|exact Hold].
Defined.

Lemma committers_have_own_flags_witness :
  let w0 := fst (Init ver rev (Some ["a"]) "/tmp/c2" initialized) in
  let w1 := fst (Open [] dir w0) in
  let w2 := fst (Open [] "/tmp/c2" w1) in
  let c2 := mkCommitter (mkLock "/tmp/c2/lock") "/tmp/c2" "/tmp/c2/data" 1 in
  Open [] dir w0 = (w1, ([], Ret (Some tx, None))) ∧
  Open [] "/tmp/c2" w1 = (w2, (["a"], Ret (Some c2, None))) ∧
  c_done tx ≠ c_done c2 ∧
  (∃ e1, snd (commit ver rev tx (Some ["u1"]) w2) = Ret e1) ∧
  (∃ e2, snd (commit ver rev c2 None (fst (commit ver rev tx (Some ["u1"]) w2))) = Ret e2).
Proof.
  intros w0 w1 w2 c2.
  assert (H1 : Open [] dir w0 = (w1, ([], Ret (Some tx, None)))) by (vm_compute; reflexivity).
  assert (H2 : Open [] "/tmp/c2" w1 = (w2, (["a"], Ret (Some c2, None))))
    by (vm_compute; reflexivity).
  split; [exact H1|]. split; [exact H2|].
  destruct (committers_have_own_flags ver rev [] [] [] ["a"] dir "/tmp/c2" w0 w1 w1 w2 tx c2
              H1 H2 (le_n _)) as [Hne Hcalls].
  split; [exact Hne|].
  apply (Hcalls w2 (Some ["u1"]) None); reflexivity.
Defined.

Lemma commit_ignores_cwd_witness :
  Open [] dir initialized = (opened, ([], Ret (Some tx, None))) ∧
  commit ver rev tx (Some ["u1"]) (set_cwd "/var/empty" opened)
    = (set_cwd "/var/empty" (fst (commit ver rev tx (Some ["u1"]) opened)),
       snd (commit ver rev tx (Some ["u1"]) opened)).
Proof.
  assert (Hopen : Open [] dir initialized = (opened, ([], Ret (Some tx, None))))
    by (vm_compute; reflexivity).
  split; [exact Hopen|].
  exact (commit_ignores_cwd ver rev [] [] dir initialized opened tx (Some ["u1"]) opened
           "/var/empty" Hopen).
Defined.

Lemma Init_then_Open_witness :
  let payload := JObj [("students", JArr [JStr "u1"])] in
  let w1 := fst (Init ver rev (Some ["u1"]) dir empty_world) in
  IsAbs dir = true ∧
  json_Marshal ["u1"] = inr payload ∧
  json_Unmarshal payload [] = (["u1"], None) ∧
  (Join dir DBLockFileName ∉ locked empty_world) ∧
  ∃ c, snd (Open [] dir w1) = (["u1"], Ret (Some c, None)) ∧
       c_path c = dir ∧
       files (fst (Open [] dir w1)) = files w1.
Proof.
  intros payload w1.
  assert (Hfree : Join dir DBLockFileName ∉ locked empty_world) by (vm_compute; set_solver).
  split; [reflexivity|]. split; [reflexivity|]. split; [reflexivity|]. split; [exact Hfree|].
  assert (Hm : json_Marshal ["u1"] = inr payload) by reflexivity.
  assert (Hun : json_Unmarshal payload [] = (["u1"], None)) by reflexivity.
  assert (Htime : is_Some (parse_time (format_time (now empty_world)))) by (by eexists).
  destruct (Init_then_Open ver rev ["u1"] [] dir empty_world payload eq_refl Hm Hun Htime
              Hfree eq_refl eq_refl eq_refl eq_refl eq_refl eq_refl eq_refl)
    as (c & Hres & Hpath & _ & _ & Hfiles).
  exists c. split; [exact Hres|]. split; [exact Hpath|exact Hfiles].
Defined.

End TransactionExamples.

(** * [Init] with a value that cannot be marshalled *)

Module SettingsExamples.
Import Roster Settings.

Lemma Init_marshal_failure_truncates_witness :
  let w := fst (Init ver rev (Some (Limit 3)) dir empty_world) in
  let old := mkFile (Some (envelope ver rev empty_world (JObj [("limit", JNum 3)]))) true in
  let w' := fst (Init ver rev (Some Callback) dir w) in
  IsAbs dir = true ∧
  files w !! Join dir DBFileName = Some old ∧
  json_Marshal Callback = inl (JsonErr "json: unsupported type: func()") ∧
  snd (Init ver rev (Some Callback) dir w)
    = Some (Errorf "marshal to file" (JsonErr "json: unsupported type: func()")) ∧
  files w' !! Join dir DBFileName = Some (mkFile None false) ∧
  snd (Read (Limit 0) dir w')
    = (Limit 0, Some (Errorf "unmarshal from file" (JsonErr "EOF"))).
Proof.
  intros w old w'.
  assert (Hold : files w !! Join dir DBFileName = Some old) by (vm_compute; reflexivity).
  split; [reflexivity|]. split; [exact Hold|]. split; [reflexivity|].
  assert (Hm : json_Marshal Callback = inl (JsonErr "json: unsupported type: func()"))
    by reflexivity.
  destruct (Init_marshal_failure_truncates ver rev Callback (Limit 0) dir w old
              (JsonErr "json: unsupported type: func()") eq_refl Hold eq_refl Hm)
    as (Herr & Hfile & Hread).
  split; [exact Herr|]. split; [exact Hfile|].
  apply (Hread w'); reflexivity.
Defined.

End SettingsExamples.

(** * The validation at work on the sample assignment *)

Module AssignmentExamples.
Import AssignmentParse AssignmentProofs Homework.

Lemma problems_have_codes : Forall has_code (all_nodes problems).
Proof. repeat constructor; by eexists. Defined.

Lemma validateHandins_returns_witness :
  Forall has_code (all_nodes problems) ∧
  ∃ r, validateHandins ValidateCode handins problems = Ret r.
Proof.
  split; [exact problems_have_codes|].
  exact (validateHandins_returns ValidateCode handins problems problems_have_codes).
Defined.

Lemma validateHandins_accepts_witness :
  Forall has_code (all_nodes problems) ∧
  validateHandins ValidateCode handins problems = ok tt ∧
  NoDup (listed_problems handins) ∧
  Forall (fun c => c ∈ listed_problems handins) (top_codes problems).
Proof.
  split; [exact problems_have_codes|].
  assert (Hok : validateHandins ValidateCode handins problems = ok tt)
    by (vm_compute; reflexivity).
  split; [exact Hok|].
  destruct (proj1 (validateHandins_accepts ValidateCode handins problems problems_have_codes)
              Hok) as (_ & _ & _ & _ & _ & Hnd & Hcov).
  split; [exact Hnd|exact Hcov].
Defined.

Lemma validateHandins_needs_codes_witness :
  let anonymous := mkParseableProblem None (Some "Sorting") None (Some 10%float) [] in
  handins ≠ [] ∧ ¬ Forall has_code [anonymous] ∧
  validateHandins ValidateCode handins [anonymous] = Panic nil_dereference.
Proof.
  intros anonymous.
  assert (Hne : handins ≠ []) by discriminate.
  assert (Hn : ¬ Forall has_code [anonymous]).
  { intros H. inversion H as [|p ps [c Hc] Hps]. discriminate Hc. }
  split; [exact Hne|]. split; [exact Hn|].
  exact (validateHandins_needs_codes ValidateCode handins [anonymous] Hne Hn).
Defined.

Lemma validateHandins_ignores_due_dates_witness :
  (1 < length handins)%nat ∧
  Forall2 same_but_due handins (with_due None <$> handins) ∧
  validateHandins ValidateCode handins problems
    = validateHandins ValidateCode (with_due None <$> handins) problems ∧
  validateHandins ValidateCode (with_due None <$> handins) problems = ok tt.
Proof.
  assert (Hn : (1 < length handins)%nat) by (simpl; lia).
  assert (Hsame : Forall2 same_but_due handins (with_due None <$> handins))
    by (repeat constructor).
  split; [exact Hn|]. split; [exact Hsame|].
  split; [|vm_compute; reflexivity].
  exact (validateHandins_ignores_due_dates ValidateCode handins (with_due None <$> handins)
           problems Hn Hsame).
Defined.

Lemma validateAssignment_handins_partition_witness :
  validateAssignment ValidateCode hw1 = ok tt ∧
  listed_problems (pa_Handins hw1) ≡ₚ top_codes (pa_Problems hw1).
Proof.
  assert (Hok : validateAssignment ValidateCode hw1 = ok tt) by (vm_compute; reflexivity).
  split; [exact Hok|].
  exact (validateAssignment_handins_partition ValidateCode hw1 Hok).
Defined.

Lemma parseAssignment_converts_witness :
  validateAssignment ValidateCode hw1 = ok tt ∧
  ∃ a, parseAssignment ValidateCode (inr hw1) = ok a ∧
       Assignment_Code a = "hw1" ∧
       Forall2 converted (pa_Problems hw1) (Assignment_Problems a).
Proof.
  assert (Hok : validateAssignment ValidateCode hw1 = ok tt) by (vm_compute; reflexivity).
  split; [exact Hok|].
  destruct (parseAssignment_converts ValidateCode hw1 Hok) as (a & Hrun & Hcode & _ & _ & Hc).
  exists a. split; [exact Hrun|]. split; [|exact Hc].
  simpl in Hcode. by injection Hcode.
Defined.

End AssignmentExamples.

(** * Reading the sample course directory *)

Module CourseExamples.
Import AssignmentParse AssignmentFiles AssignmentFilesProofs Course.

Lemma ParseAllAssignmentFiles_collects_witness :
  ReadDir assignments disk = inr ["hw1"; "hw1~"; "hw2"] ∧
  ∃ w' a,
    ParseAll disk
      = (w', Ret ([a],
                  Some (CouldNotParse (JSONError "unexpected end of JSON input")),
                  [("/course/assignments/hw2",
                    CouldNotParse (JSONError "unexpected end of JSON input"))])) ∧
    Assignment_Code a = "hw1" ∧ files w' = files disk.
Proof.
  assert (Hdir : ReadDir assignments disk = inr ["hw1"; "hw1~"; "hw2"]) by reflexivity.
  split; [exact Hdir|].
  destruct (ParseAllAssignmentFiles_collects Homework.ValidateCode Decode Error Base ReadDir
              IgnoreFileAndLog assignments ["hw1"; "hw1~"; "hw2"] disk Hdir)
    as (w' & Hrun & Hfiles).
  exists w'. eexists. split; [|split; [|exact Hfiles]].
  - unfold ParseAll. rewrite Hrun. vm_compute. reflexivity.
  - reflexivity.
Defined.

Lemma ParseAllAssignmentFiles_distinct_codes_witness :
  ReadDir assignments disk = inr ["hw1"; "hw1~"; "hw2"] ∧
  NoDup ["hw1"; "hw1~"; "hw2"] ∧
  (∀ name, name ∈ ["hw1"; "hw1~"; "hw2"] → Base (Join assignments name) = name) ∧
  ∃ w' found err lines,
    ParseAll disk = (w', Ret (found, err, lines)) ∧
    NoDup (Assignment_Code <$> found).
Proof.
  assert (Hdir : ReadDir assignments disk = inr ["hw1"; "hw1~"; "hw2"]) by reflexivity.
  assert (Hnd : NoDup ["hw1"; "hw1~"; "hw2"]).
  { apply (bool_decide_unpack _). vm_compute. exact I. }
  assert (Hbase : ∀ name, name ∈ ["hw1"; "hw1~"; "hw2"] → Base (Join assignments name) = name).
  { intros name Hin. repeat (apply elem_of_cons in Hin as [->|Hin]; [reflexivity|]).
    by apply elem_of_nil in Hin. }
  split; [exact Hdir|]. split; [exact Hnd|]. split; [exact Hbase|].
  destruct (ParseAll disk) as [w' [[[found err] lines]|x]] eqn:Hrun;
    [|vm_compute in Hrun; discriminate Hrun].
  exists w', found, err, lines. split; [reflexivity|].
  exact (proj1 (ParseAllAssignmentFiles_distinct_codes Homework.ValidateCode Decode Error Base
                  ReadDir IgnoreFileAndLog assignments ["hw1"; "hw1~"; "hw2"] disk w' found
                  err lines Hdir Hnd Hbase Hrun)).
Defined.

End CourseExamples.

(** * The sample mailer *)

Module MailerExamples.
Import Template TemplateProofs Mailer.

Lemma RunAll_template_errors_first_witness :
  Forall (fun x => ¬ template_fails Execute x) [to "ann"; to "nobody"] ∧
  Execute (Entry_Data (to "")) = inl "template: empty name" ∧
  RunAll LookPath Execute Environ Run "sendmail" [to "ann"; to "nobody"; to ""; to "bob"] idle
    = (idle, Ret (Some (mkEntryError 2 (to "") "template: empty name"))).
Proof.
  assert (Hpre : Forall (fun x => ¬ template_fails Execute x) [to "ann"; to "nobody"]).
  { repeat constructor; intros [err Herr]; discriminate Herr. }
  split; [exact Hpre|]. split; [reflexivity|].
  exact (RunAll_template_errors_first LookPath Execute Environ Run "sendmail"
           [to "ann"; to "nobody"] [to "bob"] (to "") "template: empty name" idle Hpre eq_refl).
Defined.

Lemma RunAll_runs_in_order_witness :
  let entries := [to "ann"; to "nobody"; to "bob"] in
  let bufs := ["Dear ann"; "Dear nobody"; "Dear bob"] in
  let cs := zip_with (planned LookPath Environ "sendmail") entries bufs in
  let r := RunAll LookPath Execute Environ Run "sendmail" entries idle in
  Forall2 (fun e buf => Execute (Entry_Data e) = inr buf) entries bufs ∧
  snd r = Ret (Some (mkEntryError 1 (to "nobody") "exit status 1")) ∧
  fst r = (["Dear ann"], take 2 cs) ∧
  ∃ j, fst r = (state_after Run (take j cs) idle.1, idle.2 ++ take j cs).
Proof.
  intros entries bufs cs r.
  assert (Hall : Forall2 (fun e buf => Execute (Entry_Data e) = inr buf) entries bufs)
    by (repeat constructor).
  split; [exact Hall|]. split; [vm_compute; reflexivity|]. split; [vm_compute; reflexivity|].
  destruct (RunAll_runs_in_order LookPath Execute Environ Run "sendmail" entries bufs idle Hall)
    as (j & Hrun & _).
  exists j. exact Hrun.
Defined.

End MailerExamples.

(** * The sample handin directory *)

Module CourseworkExamples.
Import Handin HandinProofs Coursework.

Lemma InitFaclHandin_then_HandedIn_witness :
  InitFaclHandin Join "/handin/hw1" ["1234"; "5678"] empty_disk = (ready, None) ∧
  "5678" ∈ ["1234"; "5678"] ∧
  snd (HandedIn Join "/handin/hw1" "5678" ready) = (false, None).
Proof.
  assert (Hrun : InitFaclHandin Join "/handin/hw1" ["1234"; "5678"] empty_disk = (ready, None))
    by (vm_compute; reflexivity).
  assert (Hin : "5678" ∈ ["1234"; "5678"]) by (right; left).
  split; [exact Hrun|]. split; [exact Hin|].
  exact (InitFaclHandin_then_HandedIn Join "/handin/hw1" ["1234"; "5678"] empty_disk ready
           Hrun "5678" Hin ready eq_refl eq_refl eq_refl).
Defined.

Lemma SaveFaclHandin_moves_witness :
  let old := "/handin/hw1/1234/handin.tgz" in
  let new := "/saved/hw1/1234.tgz" in
  let n := mkNode Regular "rw-rw-rw-" (Some (file_acl "1234")) "tarball" in
  let r := SaveFaclHandin Join "/handin/hw1" "/saved/hw1" "1234" handed_in in
  old ≠ new ∧ nodes handed_in !! old = Some n ∧
  snd (HandedIn Join "/handin/hw1" "1234" handed_in) = (true, None) ∧
  snd r = None ∧
  nodes (fst r) !! new = Some n ∧
  snd (HandedIn Join "/handin/hw1" "1234" (fst r)) = (false, None).
Proof.
  intros old new n r.
  assert (Hne : old ≠ new) by discriminate.
  assert (Hold : nodes handed_in !! old = Some n) by (vm_compute; reflexivity).
  assert (Hok : snd r = None) by (vm_compute; reflexivity).
  split; [exact Hne|]. split; [exact Hold|]. split; [vm_compute; reflexivity|].
  split; [exact Hok|].
  destruct (SaveFaclHandin_moves Join "/handin/hw1" "/saved/hw1" "1234" handed_in n Hold
              eq_refl) as (Hsaved & Hnil & _).
  split; [exact (proj1 (Hsaved Hne))|].
  destruct (Hnil Hok) as (_ & _ & Hhanded).
  apply (Hhanded (fst r)); reflexivity.
Defined.

(** A student directory that cannot be given its ACL: the handin directory
    is removed again. *)
Example InitFaclHandin_removes :
  let w := failing (CallAclSet "/handin/hw1/5678" (dir_acl "5678")) empty_disk in
  let r := InitFaclHandin Join "/handin/hw1" ["1234"; "5678"] w in
  snd r = Some (CallError (CallAclSet "/handin/hw1/5678" (dir_acl "5678")) "permission denied") ∧
  nodes (fst r) = ∅ ∧
  last (calls (fst r)) = Some (CallRemoveAll "/handin/hw1", None).
Proof. vm_compute. done. Qed.

(** A save directory that is the student's own directory, for a student
    whose UID is the name of the handin file less its extension: the save
    path is the handin path, [SaveFaclHandin] returns nil, and the handin
    is gone. *)
Example SaveFaclHandin_onto_itself :
  let w := set_nodes (<["/h/handin/handin.tgz" := mkNode Regular "rw-rw-rw-" None "tarball"]> ∅)
             empty_disk in
  let r := SaveFaclHandin Join "/h" "/h/handin" "handin" w in
  Join (Join "/h" "handin") HandinFileName = Join "/h/handin" ("handin" +:+ ".tgz") ∧
  snd r = None ∧
  node_data <$> nodes (fst r) !! "/h/handin/handin.tgz" = Some "".
Proof. vm_compute. done. Qed.

End CourseworkExamples.
